(** * Bayesian protein inference (OpenMS, BayesianProteinInferenceAlgorithm.cpp)

    A shallow embedding of the per-connected-component inference functors,
    the indistinguishable-group annotator, the grid-search evaluator and the
    orchestrator [inferPosteriorProbabilities], with the properties of the
    design document stated and settled against it.

    C++ [double] is Rocq's primitive binary64 [float]; a [std::vector] is a
    list read with stdpp's lookup; pointers into the caller's identification
    data are indices into the hit lists; exceptions, and reads the C++
    standard leaves undefined, are outcomes of a small state monad that
    also records the observable events (calls of the graph builder, log
    lines). *)

From Stdlib Require Import Floats ZArith.
From stdpp Require Import base option list strings.

Local Open Scope Z_scope.

(** ** Numbers *)

Abbreviation double := float (only parsing).
Abbreviation vertex_t := nat (only parsing).

Definition flt (x y : double) : bool := PrimFloat.ltb x y.
Definition fle (x y : double) : bool := PrimFloat.leb x y.
Definition fsub (x y : double) : double := PrimFloat.sub x y.

(** ** Outcomes of a C++ computation *)

(** Modelled from the spec: the error kinds NumericError and GraphShapeError
    of the error-handling design (no such classes are in the source slice).
    The per-component functor is said to catch them, and its handler catches
    [std::runtime_error], so they are kinds of runtime error. *)
Inductive runtime_kind : Type :=
| NumericError
| GraphShapeError
| PlainRuntimeError.

(** [std::runtime_error] and the classes derived from it are what the
    functors' handlers catch; every other exception type is
    [OtherException]. *)
Inductive exn : Type :=
| RuntimeError (k : runtime_kind)
| OtherException.

Definition is_runtime_error (e : exn) : bool :=
  match e with
  | RuntimeError _ => true
  | OtherException => false
  end.

Inductive result (A : Type) : Type :=
| Normal (a : A)
| Throws (e : exn)
| Undefined.

Arguments Normal {A} a.
Arguments Throws {A} e.
Arguments Undefined {A}.

(** ** Observable events *)

Inductive event : Type :=
| EvToGraph                                   (* BetheInferenceGraphBuilder::to_graph() is entered *)
| EvLogWarn (msg : string)                    (* LOG_WARN << msg *)
| EvCout (msg : string)                       (* std::cout << msg *)
| EvCoutTesting (combos : nat)                (* "Testing <n> param combinations." *)
| EvCoutBest (alpha beta gamma : double)      (* "Best params found at a=.., b=.., g=.." *)
| EvEvaluate (alpha beta gamma : double).     (* GridSearchEvaluator::operator() is entered *)

(** A computation over a mutable state [S] that also writes events. The
    state reached when an exception is thrown is kept, since a handler runs
    in it; the events are output only and cannot be read back. *)

Definition M (S A : Type) : Type := S -> result A * S * list event.

Definition ret {S A : Type} (a : A) : M S A := fun s => (Normal a, s, []).

Definition bind {S A B : Type} (m : M S A) (k : A -> M S B) : M S B :=
  fun s =>
    match m s with
    | (Normal a, s', t) => let '(r, s'', t') := k a s' in (r, s'', t ++ t')
    | (Throws e, s', t) => (Throws e, s', t)
    | (Undefined, s', t) => (Undefined, s', t)
    end.

Definition throw {S A : Type} (e : exn) : M S A := fun s => (Throws e, s, []).
Definition undefined {S A : Type} : M S A := fun s => (Undefined, s, []).
Definition get {S : Type} : M S S := fun s => (Normal s, s, []).
Definition modify {S : Type} (f : S -> S) : M S unit := fun s => (Normal tt, f s, []).
Definition emit {S : Type} (e : event) : M S unit := fun s => (Normal tt, s, [e]).

Definition deref {S A : Type} (o : option A) : M S A :=
  match o with
  | Some a => ret a
  | None => undefined
  end.

Definition may_throw {S : Type} (o : option exn) : M S unit :=
  match o with
  | Some e => throw e
  | None => ret tt
  end.

Declare Scope cpp_scope.
Delimit Scope cpp_scope with cpp.
Notation "x <- c1 ;; c2" := (bind c1 (fun x => c2))
  (at level 100, c1 at next level, right associativity) : cpp_scope.
Notation "c1 ;;; c2" := (bind c1 (fun _ => c2))
  (at level 100, right associativity) : cpp_scope.
Local Open Scope cpp_scope.

(** [for (x : l) body] *)
Fixpoint for_each {S A : Type} (l : list A) (body : A -> M S unit) : M S unit :=
  match l with
  | [] => ret tt
  | x :: l' => body x ;;; for_each l' body
  end.

(** [try m catch (const std::runtime_error&) h] *)
Definition try_catch_runtime {S A : Type} (m : M S A) (h : M S A) : M S A :=
  fun s =>
    match m s with
    | (Throws e, s', t) =>
        if is_runtime_error e
        then let '(r, s'', t') := h s' in (r, s'', t ++ t')
        else (Throws e, s', t)
    | r => r
    end.

Definition when {S : Type} (b : bool) (m : M S unit) : M S unit :=
  if b then m else ret tt.

(** ** Identification data owned by the caller *)

(** Modelled from the spec: the protein hit, the peptide hit, the protein
    group record and the protein identification (their classes are outside
    the source slice), with the members the algorithm reads and writes. *)

Record ProteinHit : Type := mkProteinHit {
  accession : string;
  prot_score : double;
  prior_meta : option double   (* meta value "Prior" *)
}.

Record PeptideHit : Type := mkPeptideHit {
  pep_score : double;
  peptide_evidences : nat      (* getPeptideEvidences().size() *)
}.

Record ProteinGroup : Type := mkProteinGroup {
  probability : double;
  accessions : list string
}.

Record IDData : Type := mkIDData {
  score_type : string;
  search_engine : string;
  higher_score_better : bool;
  hits : list ProteinHit;
  indistinguishable_proteins : list ProteinGroup;
  peptide_hits : list PeptideHit
}.

Definition set_hits (d : IDData) (h : list ProteinHit) : IDData :=
  mkIDData (score_type d) (search_engine d) (higher_score_better d) h
           (indistinguishable_proteins d) (peptide_hits d).

Definition set_peptide_hits (d : IDData) (p : list PeptideHit) : IDData :=
  mkIDData (score_type d) (search_engine d) (higher_score_better d) (hits d)
           (indistinguishable_proteins d) p.

Definition set_indistinguishable (d : IDData) (g : list ProteinGroup) : IDData :=
  mkIDData (score_type d) (search_engine d) (higher_score_better d) (hits d)
           g (peptide_hits d).

Definition setScore_prot (h : ProteinHit) (x : double) : ProteinHit :=
  mkProteinHit (accession h) x (prior_meta h).

Definition setScore_pep (h : PeptideHit) (x : double) : PeptideHit :=
  mkPeptideHit x (peptide_evidences h).

(** ** The identification graph *)

(** Modelled from the spec: the vertex variant of IDBoostGraph (its
    declaration is outside the source slice), with the four arms and the
    discriminants the data model lists. A protein or PSM vertex holds a
    non-owning pointer to a hit, here the hit's index. *)
Inductive IDPointer : Type :=
| ProteinHitPtr (p : nat)
| ProteinGroupVal (x : double)
| PeptideClusterVal (x : double)
| PeptideHitPtr (p : nat).

Definition which (v : IDPointer) : Z :=
  match v with
  | ProteinHitPtr _ => 0
  | ProteinGroupVal _ => 1
  | PeptideClusterVal _ => 2
  | PeptideHitPtr _ => 6
  end.

(** A stored vertex: its property and its adjacency list, in the order
    [boost::adjacent_vertices] enumerates it. *)
Record Vertex : Type := mkVertex {
  vprop : IDPointer;
  adjacent : list vertex_t
}.

Abbreviation Graph := (list Vertex) (only parsing).

(** ** Marginals returned by the inference engine *)

(** Modelled from the spec: the PMF of the inference library, a
    first-support index and a table of probabilities; the last support
    index is the one of the table's last entry. *)
Record PMF : Type := mkPMF {
  first_support : Z;
  table : list double
}.

Definition last_support (p : PMF) : Z := first_support p + Z.of_nat (length (table p)) - 1.

Record PosteriorFactor : Type := mkPosteriorFactor {
  ordered_variables : list vertex_t;
  pmf : PMF
}.

(** ** Parameters (the [Param] object of the algorithm) *)

Inductive scheduling : Type :=
| priority
| fifo
| random_spanning_tree.

Record Param : Type := mkParam {
  top_PSMs : nat;
  update_PSM_probabilities : bool;
  user_defined_priors : bool;
  annotate_group_probabilities : bool;
  prot_prior : double;
  pep_emission : double;
  pep_spurious_emission : double;
  pep_prior : double;
  scheduling_type : scheduling;
  convergence_threshold : double;
  dampening_lambda : double;
  max_nr_iterations : N;
  p_norm_inference : double;
  aucweight : double
}.

Definition set_update_PSM_probabilities (p : Param) (b : bool) : Param :=
  mkParam (top_PSMs p) b (user_defined_priors p) (annotate_group_probabilities p)
          (prot_prior p) (pep_emission p) (pep_spurious_emission p) (pep_prior p)
          (scheduling_type p) (convergence_threshold p) (dampening_lambda p)
          (max_nr_iterations p) (p_norm_inference p) (aucweight p).

Definition set_annotate_group_probabilities (p : Param) (b : bool) : Param :=
  mkParam (top_PSMs p) (update_PSM_probabilities p) (user_defined_priors p) b
          (prot_prior p) (pep_emission p) (pep_spurious_emission p) (pep_prior p)
          (scheduling_type p) (convergence_threshold p) (dampening_lambda p)
          (max_nr_iterations p) (p_norm_inference p) (aucweight p).

Definition set_prot_prior (p : Param) (x : double) : Param :=
  mkParam (top_PSMs p) (update_PSM_probabilities p) (user_defined_priors p)
          (annotate_group_probabilities p)
          x (pep_emission p) (pep_spurious_emission p) (pep_prior p)
          (scheduling_type p) (convergence_threshold p) (dampening_lambda p)
          (max_nr_iterations p) (p_norm_inference p) (aucweight p).

Definition set_pep_emission (p : Param) (x : double) : Param :=
  mkParam (top_PSMs p) (update_PSM_probabilities p) (user_defined_priors p)
          (annotate_group_probabilities p)
          (prot_prior p) x (pep_spurious_emission p) (pep_prior p)
          (scheduling_type p) (convergence_threshold p) (dampening_lambda p)
          (max_nr_iterations p) (p_norm_inference p) (aucweight p).

Definition set_pep_spurious_emission (p : Param) (x : double) : Param :=
  mkParam (top_PSMs p) (update_PSM_probabilities p) (user_defined_priors p)
          (annotate_group_probabilities p)
          (prot_prior p) (pep_emission p) x (pep_prior p)
          (scheduling_type p) (convergence_threshold p) (dampening_lambda p)
          (max_nr_iterations p) (p_norm_inference p) (aucweight p).

(** ** The inference library as the functors use it

    The message-passer factory, the factors it creates, the Bethe graph
    builder and the schedulers belong to the inference library, outside the
    source slice. A factor is recorded as the factory call that creates it;
    the library's behaviour is a parameter of the development. *)

Record MessagePasserFactory : Type := mkMPF {
  mpf_alpha : double;
  mpf_beta : double;
  mpf_gamma : double;
  mpf_p : double;
  mpf_pep_prior : double
}.

Inductive Factor : Type :=
| SumEvidenceFactor (n : nat) (parent psm : vertex_t)
| PeptideEvidenceFactor (v : vertex_t) (score : double)
| PeptideProbabilisticAdderFactor (ins : list vertex_t) (v : vertex_t)
| ProteinFactor (v : vertex_t)
| ProteinFactorWithPrior (v : vertex_t) (prior : double).

Inductive SchedulerClass : Type :=
| PriorityScheduler
| FIFOScheduler
| RandomSubtreeScheduler.

Record Scheduler : Type := mkScheduler {
  scheduler_class : SchedulerClass;
  sched_dampening_lambda : double;
  sched_convergence_threshold : double;
  sched_max_iterations : N
}.

(** What the engine is given: the factory, the factors inserted into the
    builder (in insertion order) and the scheduler. *)
Record InferenceInput : Type := mkInferenceInput {
  in_factory : MessagePasserFactory;
  in_factors : list Factor;
  in_scheduler : Scheduler
}.

(** Modelled from the spec: the collaborators outside the source slice. A
    fault is the exception a call throws, if any; [estimate_posteriors]
    returns, for each requested variable list, the marginal factor over it
    ([marginal]); the graph builder yields the clustered connected
    components; the scoring callback maps the protein identification to a
    number; [missing_meta_value] is what the conversion of an absent meta
    value to a number throws. *)
Record Collaborators : Type := mkCollaborators {
  factor_fault : MessagePasserFactory -> Factor -> option exn;
  to_graph_fault : list Factor -> option exn;
  inference_fault : InferenceInput -> list (list vertex_t) -> option exn;
  marginal : InferenceInput -> list vertex_t -> PMF;
  buildGraph : nat -> IDData -> list Graph;
  applyEvaluateProteinIDs : IDData -> double;
  missing_meta_value : exn
}.

(** ** State of one functor call *)

Record CCState : Type := mkCCState {
  cc_graph : Graph;
  cc_data : IDData
}.

(** Local variables of [operator()] that the handler still sees. *)
Record Locals : Type := mkLocals {
  bigb : list Factor;
  posteriorVars : list (list vertex_t);
  graph_mp_ownership_acquired : bool
}.

Definition init_locals : Locals := mkLocals [] [] false.

Definition FunctorState : Type := CCState * Locals.

Definition on_locals {A : Type} (m : M Locals A) : M FunctorState A :=
  fun s => let '(r, l, t) := m (snd s) in (r, (fst s, l), t).

Definition on_cc {A : Type} (m : M CCState A) : M FunctorState A :=
  fun s => let '(r, c, t) := m (fst s) in (r, (c, snd s), t).

(** Runs a body with fresh locals and drops them at the end of the scope. *)
Definition with_locals {A : Type} (m : M FunctorState A) : M CCState A :=
  fun c => let '(r, s, t) := m (c, init_locals) in (r, fst s, t).

(** [boost::vertices(fg)]: the vertex descriptors 0 .. n-1. *)
Definition vertices (fg : Graph) : list vertex_t := seq 0 (length fg).

(** The inner loop over the adjacent vertices of [ui]: the neighbours whose
    discriminant is strictly lower than [w], in adjacency order. A neighbour
    that is no vertex of [fg] cannot be read. *)
Fixpoint lower_neighbours (fg : Graph) (w : Z) (adj : list vertex_t) : option (list vertex_t) :=
  match adj with
  | [] => Some []
  | nb :: rest =>
      match fg !! nb with
      | None => None
      | Some v =>
          match lower_neighbours fg w rest with
          | None => None
          | Some r => Some (if which (vprop v) <? w then nb :: r else r)
          end
      end
  end.

(** [boost::get<T>] on the variant: a wrong arm throws [boost::bad_get], which
    is no [std::runtime_error]. *)
Definition get_PeptideHit {S : Type} (v : IDPointer) : M S nat :=
  match v with
  | PeptideHitPtr p => ret p
  | _ => throw OtherException
  end.

Definition get_ProteinHit {S : Type} (v : IDPointer) : M S nat :=
  match v with
  | ProteinHitPtr p => ret p
  | _ => throw OtherException
  end.

Definition get_ProteinGroup {S : Type} (v : IDPointer) : M S double :=
  match v with
  | ProteinGroupVal x => ret x
  | _ => throw OtherException
  end.

(** [(double) hit->getMetaValue("Prior")] *)
Definition get_Prior {S : Type} (E : Collaborators) (h : ProteinHit) : M S double :=
  match prior_meta h with
  | Some x => ret x
  | None => throw (missing_meta_value E)
  end.

Definition insert_dependency (E : Collaborators) (mpf : MessagePasserFactory) (f : Factor) : M Locals unit :=
  may_throw (factor_fault E mpf f) ;;;
  modify (fun l => mkLocals (bigb l ++ [f]) (posteriorVars l) (graph_mp_ownership_acquired l)).

Definition push_posteriorVars (vs : list vertex_t) : M Locals unit :=
  modify (fun l => mkLocals (bigb l) (posteriorVars l ++ [vs]) (graph_mp_ownership_acquired l)).

(** [bigb.to_graph()] *)
Definition to_graph (E : Collaborators) : M FunctorState unit :=
  on_cc (emit EvToGraph) ;;;
  l <- on_locals get ;;
  may_throw (to_graph_fault E (bigb l)).

Definition set_acquired : M Locals unit :=
  modify (fun l => mkLocals (bigb l) (posteriorVars l) true).

(** Modelled from the spec: scheduler construction, [add_ab_initio_edges],
    engine construction and [estimate_posteriors] of the inference library,
    with the factors held by the built graph. *)
Definition estimate_posteriors (E : Collaborators) (mpf : MessagePasserFactory) (sch : Scheduler)
  : M Locals (list PosteriorFactor) :=
  l <- get ;;
  let input := mkInferenceInput mpf (bigb l) sch in
  may_throw (inference_fault E input (posteriorVars l)) ;;;
  ret (map (fun vs => mkPosteriorFactor vs (marginal E input vs)) (posteriorVars l)).

(** Modelled from the spec: [IDBoostGraph::SetPosteriorVisitor], the visitor
    that writes a posterior into the data behind a vertex: the score of the
    protein hit or of the peptide hit, the value of a protein-group vertex;
    the remaining arm is left as it is. *)
Definition SetPosteriorVisitor (nodeId : vertex_t) (posterior : double) : M CCState unit :=
  s <- get ;;
  u <- deref (cc_graph s !! nodeId) ;;
  match vprop u with
  | ProteinHitPtr p =>
      h <- deref (hits (cc_data s) !! p) ;;
      modify (fun s => mkCCState (cc_graph s)
                (set_hits (cc_data s) (<[p := setScore_prot h posterior]> (hits (cc_data s)))))
  | PeptideHitPtr p =>
      h <- deref (peptide_hits (cc_data s) !! p) ;;
      modify (fun s => mkCCState (cc_graph s)
                (set_peptide_hits (cc_data s)
                   (<[p := setScore_pep h posterior]> (peptide_hits (cc_data s)))))
  | ProteinGroupVal _ =>
      modify (fun s => mkCCState
                (<[nodeId := mkVertex (ProteinGroupVal posterior) (adjacent u)]> (cc_graph s))
                (cc_data s))
  | PeptideClusterVal _ => ret tt
  end.

(** ** GraphInferenceFunctor *)

(** [if (pnorm <= 0) pnorm = infinity] *)
Definition effective_pnorm (param : Param) : double :=
  if fle (p_norm_inference param) 0%float then infinity else p_norm_inference param.

Definition make_factory (param : Param) : MessagePasserFactory :=
  mkMPF (pep_emission param) (pep_spurious_emission param) (prot_prior param)
        (effective_pnorm param) (pep_prior param).

(** The scheduler both functors construct. *)
Definition make_scheduler (param : Param) : Scheduler :=
  mkScheduler PriorityScheduler (dampening_lambda param) (convergence_threshold param)
              (max_nr_iterations param).

(** The body of the loop over the vertices of the component. *)
Definition GraphInference_vertex (E : Collaborators) (param : Param) (mpf : MessagePasserFactory)
    (fg : Graph) (ids : IDData) (ui : vertex_t) : M Locals unit :=
  u <- deref (fg !! ui) ;;
  ins <- deref (lower_neighbours fg (which (vprop u)) (adjacent u)) ;;
  if which (vprop u) =? 6 then
    (p <- get_PeptideHit (vprop u) ;;
     h <- deref (peptide_hits ids !! p) ;;
     parent <- deref (ins !! 0%nat) ;;
     insert_dependency E mpf (SumEvidenceFactor (peptide_evidences h) parent ui) ;;;
     insert_dependency E mpf (PeptideEvidenceFactor ui (pep_score h)) ;;;
     when (update_PSM_probabilities param) (push_posteriorVars [ui]))
  else if which (vprop u) =? 2 then
    insert_dependency E mpf (PeptideProbabilisticAdderFactor ins ui)
  else if which (vprop u) =? 1 then
    (insert_dependency E mpf (PeptideProbabilisticAdderFactor ins ui) ;;;
     when (annotate_group_probabilities param) (push_posteriorVars [ui]))
  else if which (vprop u) =? 0 then
    ((if user_defined_priors param then
        (p <- get_ProteinHit (vprop u) ;;
         h <- deref (hits ids !! p) ;;
         prior <- get_Prior E h ;;
         insert_dependency E mpf (ProteinFactorWithPrior ui prior))
      else insert_dependency E mpf (ProteinFactor ui)) ;;;
     push_posteriorVars [ui])
  else ret tt.

(** [posterior = 1.0; if (0 >= first_support && 0 <= last_support)
    posterior = 1. - table[0ul]] *)
Definition GraphInference_posterior (pm : PMF) : option double :=
  if (first_support pm <=? 0) && (0 <=? last_support pm) then
    match table pm !! 0%nat with
    | Some t0 => Some (fsub 1%float t0)
    | None => None
    end
  else Some 1%float.

(** The body of the loop over the posterior factors; a table read out of
    range cannot be carried out. *)
Definition GraphInference_write (f : PosteriorFactor) : M CCState unit :=
  nodeId <- deref (ordered_variables f !! 0%nat) ;;
  posterior <- deref (GraphInference_posterior (pmf f)) ;;
  SetPosteriorVisitor nodeId posterior.

Definition skipped_cc_message : string :=
  "Skipped cc with only one type (proteins or peptides)".

Definition GraphInference_warning : string :=
  "Warning: Loopy belief propagation encountered a problem in a connected component. Skipping inference there.".

(** The [try] block. *)
Definition GraphInference_try (E : Collaborators) (param : Param) (c : CCState) : M FunctorState unit :=
  let fg := cc_graph c in
  let mpf := make_factory param in
  on_locals (for_each (vertices fg) (GraphInference_vertex E param mpf fg (cc_data c))) ;;;
  to_graph E ;;;
  on_locals set_acquired ;;;
  posteriorFactors <- on_locals (estimate_posteriors E mpf (make_scheduler param)) ;;
  on_cc (for_each posteriorFactors GraphInference_write).

(** The handler of [catch (const std::runtime_error&)]. *)
Definition GraphInference_catch (E : Collaborators) : M FunctorState unit :=
  l <- on_locals get ;;
  when (negb (graph_mp_ownership_acquired l)) (to_graph E) ;;;
  emit (EvLogWarn GraphInference_warning).

Definition GraphInferenceFunctor (E : Collaborators) (param : Param) : M CCState unit :=
  c <- get ;;
  if (2 <=? length (cc_graph c))%nat then
    with_locals (try_catch_runtime (GraphInference_try E param c) (GraphInference_catch E))
  else emit (EvCout skipped_cc_message).

(** ** ExtendedGraphInferenceFunctor *)

Definition ExtendedGraphInference_vertex (E : Collaborators) (mpf : MessagePasserFactory)
    (fg : Graph) (ids : IDData) (ui : vertex_t) : M Locals unit :=
  u <- deref (fg !! ui) ;;
  ins <- deref (lower_neighbours fg (which (vprop u)) (adjacent u)) ;;
  if which (vprop u) =? 6 then
    (p <- get_PeptideHit (vprop u) ;;
     h <- deref (peptide_hits ids !! p) ;;
     parent <- deref (ins !! 0%nat) ;;
     insert_dependency E mpf (SumEvidenceFactor (peptide_evidences h) parent ui) ;;;
     insert_dependency E mpf (PeptideEvidenceFactor ui (pep_score h)))
  else if which (vprop u) =? 2 then
    insert_dependency E mpf (PeptideProbabilisticAdderFactor ins ui)
  else if which (vprop u) =? 1 then
    insert_dependency E mpf (PeptideProbabilisticAdderFactor ins ui)
  else if which (vprop u) =? 0 then
    (insert_dependency E mpf (ProteinFactor ui) ;;;
     push_posteriorVars [ui])
  else ret tt.

(** [posterior = 0.0; if (1 >= first_support && 1 <= last_support)
    posterior = table[1 - first_support]] *)
Definition ExtendedGraphInference_posterior (pm : PMF) : option double :=
  if (first_support pm <=? 1) && (1 <=? last_support pm) then
    table pm !! Z.to_nat (1 - first_support pm)
  else Some 0%float.

Definition ExtendedGraphInference_write (f : PosteriorFactor) : M CCState unit :=
  nodeId <- deref (ordered_variables f !! 0%nat) ;;
  posterior <- deref (ExtendedGraphInference_posterior (pmf f)) ;;
  SetPosteriorVisitor nodeId posterior.

Definition ExtendedGraphInference_warning : string :=
  "Warning: Loopy belief propagation encountered a problem in a connected component. Skippinginference there.".

Definition ExtendedGraphInference_try (E : Collaborators) (param : Param) (c : CCState)
  : M FunctorState unit :=
  let fg := cc_graph c in
  let mpf := make_factory param in
  on_locals (for_each (vertices fg) (ExtendedGraphInference_vertex E mpf fg (cc_data c))) ;;;
  to_graph E ;;;
  posteriorFactors <- on_locals (estimate_posteriors E mpf (make_scheduler param)) ;;
  on_cc (for_each posteriorFactors ExtendedGraphInference_write).

Definition ExtendedGraphInference_catch (E : Collaborators) : M FunctorState unit :=
  to_graph E ;;;
  emit (EvLogWarn ExtendedGraphInference_warning).

Definition ExtendedGraphInferenceFunctor (E : Collaborators) (param : Param) : M CCState unit :=
  c <- get ;;
  if (2 <=? length (cc_graph c))%nat then
    with_locals (try_catch_runtime (ExtendedGraphInference_try E param c)
                                   (ExtendedGraphInference_catch E))
  else emit (EvCout skipped_cc_message).

(** ** AnnotateIndistGroupsFunctor *)

(** The loop over the neighbours of a protein-group vertex: the accessions
    of the adjacent protein vertices, in adjacency order. *)
Fixpoint group_accessions (fg : Graph) (ids : IDData) (adj : list vertex_t) (acc : list string)
  : M CCState (list string) :=
  match adj with
  | [] => ret acc
  | nb :: rest =>
      v <- deref (fg !! nb) ;;
      if which (vprop v) =? 0 then
        (p <- get_ProteinHit (vprop v) ;;
         h <- deref (hits ids !! p) ;;
         group_accessions fg ids rest (acc ++ [accession h]))
      else group_accessions fg ids rest acc
  end.

Definition push_back_group (pg : ProteinGroup) : M CCState unit :=
  modify (fun s => mkCCState (cc_graph s)
            (set_indistinguishable (cc_data s) (indistinguishable_proteins (cc_data s) ++ [pg]))).

Definition AnnotateIndistGroups_vertex (ui : vertex_t) : M CCState unit :=
  s <- get ;;
  u <- deref (cc_graph s !! ui) ;;
  when (which (vprop u) =? 1)
    (prob <- get_ProteinGroup (vprop u) ;;
     accs <- group_accessions (cc_graph s) (cc_data s) (adjacent u) [] ;;
     push_back_group (mkProteinGroup prob accs)).

Definition AnnotateIndistGroupsFunctor : M CCState unit :=
  c <- get ;;
  when (2 <=? length (cc_graph c))%nat
    (for_each (vertices (cc_graph c)) AnnotateIndistGroups_vertex).

(** ** The driver over the connected components *)

(** The graph object: its connected components, and the identification
    data its vertices point into. *)
Record World : Type := mkWorld {
  ccs : list Graph;
  data : IDData
}.

(** Modelled from the spec: the body of [IDBoostGraph::applyFunctorOnCCs],
    which invokes the functor on a connected component with at least two
    vertices. *)
Definition run_on_cc (F : M CCState unit) (i : nat) : M World unit :=
  fun w =>
    match ccs w !! i with
    | None => (Undefined, w, [])
    | Some g =>
        if (2 <=? length g)%nat then
          let '(r, c, t) := F (mkCCState g (data w)) in
          (r, mkWorld (<[i := cc_graph c]> (ccs w)) (cc_data c), t)
        else (Normal tt, w, [])
    end.

(** Modelled from the spec: [IDBoostGraph::applyFunctorOnCCs]. The
    components are taken one after the other in their stored order, and an
    exception that leaves the functor ends the loop. *)
Definition applyFunctorOnCCs (F : M CCState unit) : M World unit :=
  w <- get ;;
  for_each (seq 0 (length (ccs w))) (run_on_cc F).

(** Modelled from the spec: [IDBoostGraph::applyFunctorOnCCsST], the
    single-threaded variant. *)
Definition applyFunctorOnCCsST (F : M CCState unit) : M World unit :=
  w <- get ;;
  for_each (seq 0 (length (ccs w))) (run_on_cc F).

(** ** The algorithm object: its [param_] and the data it works on *)

Record Algorithm : Type := mkAlgorithm {
  param_ : Param;
  world : World
}.

Definition on_world {A : Type} (m : M World A) : M Algorithm A :=
  fun a => let '(r, w, t) := m (world a) in (r, mkAlgorithm (param_ a) w, t).

Definition modify_param (f : Param -> Param) : M Algorithm unit :=
  modify (fun a => mkAlgorithm (f (param_ a)) (world a)).

Definition modify_data (f : IDData -> IDData) : M Algorithm unit :=
  modify (fun a => mkAlgorithm (param_ a) (mkWorld (ccs (world a)) (f (data (world a))))).

(** ** GridSearchEvaluator *)

Definition GridSearchEvaluator (E : Collaborators) (alpha beta gamma : double) : M Algorithm double :=
  emit (EvEvaluate alpha beta gamma) ;;;
  modify_param (fun p => set_prot_prior p gamma) ;;;
  modify_param (fun p => set_pep_emission p alpha) ;;;
  modify_param (fun p => set_pep_spurious_emission p beta) ;;;
  a <- get ;;
  on_world (applyFunctorOnCCs (GraphInferenceFunctor E (param_ a))) ;;;
  a' <- get ;;
  ret (applyEvaluateProteinIDs E (data (world a'))).

(** ** GridSearch *)

(** Modelled from the spec: the grid-search controller (its class is outside
    the source slice). It holds the three axes, counts their combinations,
    and [evaluate] calls the evaluator on every tuple, keeping the indices
    of the tuple with the greatest value seen above the start value. *)
Record GridSearch : Type := mkGridSearch {
  grid_alpha : list double;
  grid_beta : list double;
  grid_gamma : list double
}.

(** Modelled from the spec: [GridSearch::getNrCombos]. *)
Definition getNrCombos (gs : GridSearch) : nat :=
  (length (grid_alpha gs) * length (grid_beta gs) * length (grid_gamma gs))%nat.

Abbreviation Indices := (nat * nat * nat)%type (only parsing).

Definition indexed (l : list double) : list (nat * double) := imap pair l.

Definition tuples (gs : GridSearch) : list (Indices * (double * double * double)) :=
  flat_map (fun a =>
    flat_map (fun b =>
      map (fun c => ((fst a, fst b, fst c), (snd a, snd b, snd c)))
          (indexed (grid_gamma gs)))
      (indexed (grid_beta gs)))
    (indexed (grid_alpha gs)).

(** Modelled from the spec: the loop of [GridSearch::evaluate] over the
    tuples, with the best value and its indices so far. *)
Fixpoint gridSearch {S : Type} (evaluator : double -> double -> double -> M S double)
    (todo : list (Indices * (double * double * double)))
    (bestValue : double) (bestIndices : Indices) : M S Indices :=
  match todo with
  | [] => ret bestIndices
  | (idx, (a, b, c)) :: rest =>
      currVal <- evaluator a b c ;;
      if flt bestValue currVal
      then gridSearch evaluator rest currVal idx
      else gridSearch evaluator rest bestValue bestIndices
  end.

(** Modelled from the spec: [GridSearch::evaluate]. *)
Definition evaluate {S : Type} (gs : GridSearch)
    (evaluator : double -> double -> double -> M S double)
    (startValue : double) (resultIndices : Indices) : M S Indices :=
  gridSearch evaluator (tuples gs) startValue resultIndices.

(** ** inferPosteriorProbabilities *)

Set Warnings "-inexact-float".

Definition gamma_default : list double := [0.5%float].
Definition beta_default : list double := [0.001%float].
Definition alpha_default : list double :=
  [0.1%float; 0.3%float; 0.5%float; 0.7%float; 0.9%float].

(** [if (x > 1.0 || x < 0.0) search = default; else search = {x}] *)
Definition search_axis (x : double) (default : list double) : list double :=
  if flt 1%float x || flt x 0%float then default else [x].

Definition gamma_search (param : Param) : list double := search_axis (prot_prior param) gamma_default.
Definition beta_search (param : Param) : list double := search_axis (pep_spurious_emission param) beta_default.
Definition alpha_search (param : Param) : list double := search_axis (pep_emission param) alpha_default.

Definition make_grid (param : Param) : GridSearch :=
  mkGridSearch (alpha_search param) (beta_search param) (gamma_search param).

Definition save_prior (h : ProteinHit) : ProteinHit :=
  mkProteinHit (accession h) (prot_score h) (Some (prot_score h)).

(** The statements before the axes are built: score type, search engine,
    priors, and the graph with its connected components. The two LOG_INFO
    lines that report the peptide FDR change nothing and are left out. *)
Definition prepare (E : Collaborators) : M Algorithm unit :=
  modify_data (fun d => mkIDData "Posterior Probability" "Epifany" true (hits d)
                          (indistinguishable_proteins d) (peptide_hits d)) ;;;
  a <- get ;;
  when (user_defined_priors (param_ a))
       (modify_data (fun d => set_hits d (map save_prior (hits d)))) ;;;
  modify (fun a => mkAlgorithm (param_ a)
            (mkWorld (buildGraph E (top_PSMs (param_ a)) (data (world a))) (data (world a)))).

Definition skip_message : string := "Only one combination specified: Skipping grid search.".
Definition running_message : string := "Running with best parameters:".

(** The grid search proper: both side-effect switches are turned off, then
    the controller runs unless the grid has a single combination. *)
Definition search_phase (E : Collaborators) (gs : GridSearch) : M Algorithm Indices :=
  modify_param (fun p => set_update_PSM_probabilities p false) ;;;
  modify_param (fun p => set_annotate_group_probabilities p false) ;;;
  if (1 <? getNrCombos gs)%nat then
    (emit (EvCoutTesting (getNrCombos gs)) ;;;
     evaluate gs (GridSearchEvaluator E) (-1)%float (0, 0, 0)%nat)
  else
    (emit (EvCout skip_message) ;;; ret (0, 0, 0)%nat).

(** The last pass: the best parameters are set, the two switches get the
    values saved before the search, and the functor runs once more. *)
Definition final_pass (E : Collaborators) (gs : GridSearch) (bestParams : Indices)
    (update_PSM annotate_group : bool) : M Algorithm unit :=
  bestGamma <- deref (grid_gamma gs !! snd bestParams) ;;
  bestBeta <- deref (grid_beta gs !! snd (fst bestParams)) ;;
  bestAlpha <- deref (grid_alpha gs !! fst (fst bestParams)) ;;
  emit (EvCoutBest bestAlpha bestBeta bestGamma) ;;;
  emit (EvCout running_message) ;;;
  modify_param (fun p => set_prot_prior p bestGamma) ;;;
  modify_param (fun p => set_pep_emission p bestAlpha) ;;;
  modify_param (fun p => set_pep_spurious_emission p bestBeta) ;;;
  modify_param (fun p => set_update_PSM_probabilities p update_PSM) ;;;
  modify_param (fun p => set_annotate_group_probabilities p annotate_group) ;;;
  a <- get ;;
  on_world (applyFunctorOnCCs (GraphInferenceFunctor E (param_ a))).

Definition inferPosteriorProbabilities (E : Collaborators) : M Algorithm unit :=
  prepare E ;;;
  a <- get ;;
  let gs := make_grid (param_ a) in
  let update_PSM := update_PSM_probabilities (param_ a) in
  let annotate_group := annotate_group_probabilities (param_ a) in
  bestParams <- search_phase E gs ;;
  final_pass E gs bestParams update_PSM annotate_group ;;;
  on_world (applyFunctorOnCCsST AnnotateIndistGroupsFunctor).

(** ** A small identification problem

    Two proteins that share their only peptide: protein vertices 0 and 1,
    the protein-group vertex 2 joined to both, and the PSM vertex 3 joined
    to the group. *)

Definition ex_param : Param :=
  mkParam 1 true false true (-1)%float (-1)%float (-1)%float 0.5%float priority
          1e-5%float 1e-3%float (2 ^ 31)%N 1%float 0.2%float.

Definition ex_data : IDData :=
  mkIDData "q-value" "Comet" false
           [mkProteinHit "P0" 0.4%float None; mkProteinHit "P1" 0.6%float None]
           []
           [mkPeptideHit 0.9%float 2].

Definition ex_cc : Graph :=
  [mkVertex (ProteinHitPtr 0) [2%nat];
   mkVertex (ProteinHitPtr 1) [2%nat];
   mkVertex (ProteinGroupVal 0%float) [0%nat; 1%nat; 3%nat];
   mkVertex (PeptideHitPtr 0) [2%nat]].

(** An engine without faults: the group variable (vertex 2) has both
    proteins present with certainty, so its marginal is supported on {2};
    every other marginal is (1/4, 3/4) on {0, 1}. *)
Definition ex_marginal (input : InferenceInput) (vs : list vertex_t) : PMF :=
  match vs with
  | [2%nat] => mkPMF 2 [1%float]
  | _ => mkPMF 0 [0.25%float; 0.75%float]
  end.

Definition first_score (d : IDData) : double :=
  match hits d with
  | h :: _ => prot_score h
  | [] => 0%float
  end.

Definition ex_E : Collaborators :=
  mkCollaborators (fun _ _ => None) (fun _ => None) (fun _ _ => None) ex_marginal
                  (fun _ _ => [ex_cc]) first_score OtherException.

(** The same engine, except that inference fails. *)
Definition ex_E_failing (e : exn) : Collaborators :=
  mkCollaborators (fun _ _ => None) (fun _ => None) (fun _ _ => Some e) ex_marginal
                  (fun _ _ => [ex_cc]) first_score OtherException.

Definition ex_state : CCState := mkCCState ex_cc ex_data.

(** A component whose PSM vertex has no neighbour at all. *)
Definition ex_cc_isolated_psm : Graph :=
  [mkVertex (ProteinHitPtr 0) [];
   mkVertex (PeptideHitPtr 0) []].

(** ** Notions the properties are stated with *)

(** The vertices whose posterior [GraphInferenceFunctor] requests:
    proteins always, protein groups and PSMs when switched on. *)
Definition requested (param : Param) (v : IDPointer) : bool :=
  match v with
  | ProteinHitPtr _ => true
  | ProteinGroupVal _ => annotate_group_probabilities param
  | PeptideClusterVal _ => false
  | PeptideHitPtr _ => update_PSM_probabilities param
  end.

(** [ExtendedGraphInferenceFunctor] requests the proteins only. *)
Definition requested_extended (v : IDPointer) : bool :=
  match v with
  | ProteinHitPtr _ => true
  | _ => false
  end.

Definition requested_at (req : IDPointer -> bool) (fg : Graph) (v : vertex_t) : bool :=
  match fg !! v with
  | Some u => req (vprop u)
  | None => false
  end.

(** The place a vertex keeps its number in: the score of the hit it points
    to, or the vertex itself. *)
Inductive cell : Type :=
| HitCell (p : nat)
| PepCell (p : nat)
| VertexCell (v : vertex_t).

Definition cell_of (v : vertex_t) (u : Vertex) : cell :=
  match vprop u with
  | ProteinHitPtr p => HitCell p
  | PeptideHitPtr p => PepCell p
  | _ => VertexCell v
  end.

Definition read_cell (c : CCState) (k : cell) : option double :=
  match k with
  | HitCell p => prot_score <$> hits (cc_data c) !! p
  | PepCell p => pep_score <$> peptide_hits (cc_data c) !! p
  | VertexCell v =>
      match cc_graph c !! v with
      | Some u =>
          match vprop u with
          | ProteinGroupVal x => Some x
          | PeptideClusterVal x => Some x
          | _ => None
          end
      | None => None
      end
  end.

(** The number behind vertex [v]: what a posterior written back to [v] is
    read from afterwards. *)
Definition vertex_value (c : CCState) (v : vertex_t) : option double :=
  match cc_graph c !! v with
  | Some u => read_cell c (cell_of v u)
  | None => None
  end.

(** No two vertices of the component point to the same hit. *)
Definition no_alias (fg : Graph) : Prop :=
  forall v w u u', fg !! v = Some u -> fg !! w = Some u' -> cell_of v u = cell_of w u' -> v = w.

(** A graph up to the numbers stored in its group and cluster vertices. *)
Definition erase (u : Vertex) : Vertex :=
  match vprop u with
  | ProteinGroupVal _ => mkVertex (ProteinGroupVal 0%float) (adjacent u)
  | PeptideClusterVal _ => mkVertex (PeptideClusterVal 0%float) (adjacent u)
  | _ => u
  end.

Definition shape (fg : Graph) : list Vertex := erase <$> fg.

(** Membership of an index in the support of a PMF. *)
Definition in_support (i : Z) (pm : PMF) : bool :=
  (first_support pm <=? i) && (i <=? last_support pm).

(** [table\[i - first_support\]], zero outside the table. *)
Definition table_at (pm : PMF) (i : Z) : double :=
  if in_support i pm then nth (Z.to_nat (i - first_support pm)) (table pm) 0%float else 0%float.

(** The extraction of P(x=1) in the words of the design document. *)
Definition documented_posterior (pm : PMF) : double :=
  if in_support 0 pm then fsub 1%float (table_at pm 0)
  else if in_support 1 pm then table_at pm 1
  else 0%float.

(** The extraction as [GraphInferenceFunctor] carries it out: one minus the
    entry for 0 when 0 is in the support, and one otherwise. *)
Definition presence_posterior (pm : PMF) : double :=
  if in_support 0 pm then fsub 1%float (table_at pm 0) else 1%float.

(** The extraction as [ExtendedGraphInferenceFunctor] carries it out: the
    entry for 1 when 1 is in the support, and zero otherwise. *)
Definition entry_one_posterior (pm : PMF) : double :=
  if in_support 1 pm then table_at pm 1 else 0%float.

Definition is_to_graph (e : event) : bool :=
  match e with
  | EvToGraph => true
  | _ => false
  end.

(** How often [to_graph()] was entered. *)
Definition to_graph_calls (t : list event) : nat := length (List.filter is_to_graph t).

Definition is_evaluate (e : event) : bool :=
  match e with
  | EvEvaluate _ _ _ => true
  | _ => false
  end.

(** How often the grid-search evaluator was entered. *)
Definition evaluations (t : list event) : nat := length (List.filter is_evaluate t).

Definition warnings (t : list event) : list string :=
  omap (fun e => match e with EvLogWarn m => Some m | _ => None end) t.

(** The body both write-back loops share, for an extraction [ex]. *)
Definition write_with (ex : PMF -> option double) (f : PosteriorFactor) : M CCState unit :=
  nodeId <- deref (ordered_variables f !! 0%nat) ;;
  posterior <- deref (ex (pmf f)) ;;
  SetPosteriorVisitor nodeId posterior.

(** [tracks add m]: [m] writes no event, keeps the ownership flag, and when
    it ends normally it has appended exactly [add] to [posteriorVars]. *)
Definition tracks {A : Type} (add : list (list vertex_t)) (m : M Locals A) : Prop :=
  forall l r l' t, m l = (r, l', t) ->
    t = [] /\ graph_mp_ownership_acquired l' = graph_mp_ownership_acquired l
    /\ (forall a, r = Normal a -> posteriorVars l' = posteriorVars l ++ add).

(** Which vertices a list of posterior factors addresses. *)
Definition addresses (P : Z -> Prop) (sh : list Vertex) (fs : list PosteriorFactor) : Prop :=
  forall f v u, f ∈ fs -> ordered_variables f !! 0%nat = Some v -> sh !! v = Some u ->
    P (which (vprop u)).

(** The first stage of both [try] blocks: the loop over the vertices, run
    with fresh locals. *)
Definition GraphInference_build (E : Collaborators) (param : Param) (c : CCState)
  : result unit * Locals * list event :=
  for_each (vertices (cc_graph c))
           (GraphInference_vertex E param (make_factory param) (cc_graph c) (cc_data c))
           init_locals.

Definition ExtendedGraphInference_build (E : Collaborators) (param : Param) (c : CCState)
  : result unit * Locals * list event :=
  for_each (vertices (cc_graph c))
           (ExtendedGraphInference_vertex E (make_factory param) (cc_graph c) (cc_data c))
           init_locals.

(** What the engine is called with once the loop has filled the builder. *)
Definition inference_input (param : Param) (l : Locals) : InferenceInput :=
  mkInferenceInput (make_factory param) (bigb l) (make_scheduler param).

Definition posterior_factors (E : Collaborators) (param : Param) (l : Locals) : list PosteriorFactor :=
  map (fun vs => mkPosteriorFactor vs (marginal E (inference_input param l) vs)) (posteriorVars l).

Definition acquire (l : Locals) : Locals := mkLocals (bigb l) (posteriorVars l) true.

(** The write-back as the design document words it, for
    [GraphInferenceFunctor] on the path where inference succeeds. *)
Definition documented_write_back (E : Collaborators) (param : Param) (c : CCState) : Prop :=
  forall c', GraphInferenceFunctor E param c = (Normal tt, c', [EvToGraph]) ->
    exists input,
      in_factory input = make_factory param /\ in_scheduler input = make_scheduler param
      /\ forall v u, cc_graph c !! v = Some u -> requested param (vprop u) = true ->
           vertex_value c' v = Some (documented_posterior (marginal E input [v])).

(** The example after [GraphInferenceFunctor] and after
    [ExtendedGraphInferenceFunctor]. *)
Definition ex_final : CCState :=
  Eval vm_compute in snd (fst (GraphInferenceFunctor ex_E ex_param ex_state)).

Definition ex_final_extended : CCState :=
  Eval vm_compute in snd (fst (ExtendedGraphInferenceFunctor ex_E ex_param ex_state)).

Definition set_scheduling_type (p : Param) (s : scheduling) : Param :=
  mkParam (top_PSMs p) (update_PSM_probabilities p) (user_defined_priors p)
          (annotate_group_probabilities p)
          (prot_prior p) (pep_emission p) (pep_spurious_emission p) (pep_prior p)
          s (convergence_threshold p) (dampening_lambda p)
          (max_nr_iterations p) (p_norm_inference p) (aucweight p).

(** Inference on the component raises the runtime error [k]: while the
    factors are created and inserted, or in the engine once the graph is
    built; the graph builder itself does its part. *)
Definition raises_runtime_error (E : Collaborators) (param : Param) (c : CCState)
    (k : runtime_kind) : Prop :=
  (exists l, GraphInference_build E param c = (Throws (RuntimeError k), l, [])
             /\ to_graph_fault E (bigb l) = None)
  \/ (exists l, GraphInference_build E param c = (Normal tt, l, [])
             /\ to_graph_fault E (bigb l) = None
             /\ inference_fault E (inference_input param l) (posteriorVars l)
                = Some (RuntimeError k)).

(** The warning as the design document quotes it. *)
Definition documented_warning : string :=
  "LBP encountered a problem in a connected component; skipping inference there.".

(** The recovery as the design document words it. *)
Definition documented_recovery (E : Collaborators) (param : Param) (c : CCState) : Prop :=
  forall k, raises_runtime_error E param c k ->
    exists t, GraphInferenceFunctor E param c = (Normal tt, c, t)
              /\ documented_warning ∈ warnings t.

(** A PSM vertex without a neighbour of lower discriminant, as the design
    document words it: the component is skipped with a warning. *)
Definition documented_missing_input (E : Collaborators) (param : Param) (c : CCState) : Prop :=
  forall ui u p,
    cc_graph c !! ui = Some u -> vprop u = PeptideHitPtr p ->
    lower_neighbours (cc_graph c) 6 (adjacent u) = Some [] ->
    exists t, GraphInferenceFunctor E param c = (Normal tt, c, t) /\ warnings t <> [].

Definition ex_state_isolated_psm : CCState := mkCCState ex_cc_isolated_psm ex_data.

(** The example with every axis configured. *)
Definition ex_param_fixed : Param :=
  mkParam 1 true false true 0.5%float 0.7%float 0.01%float 0.5%float priority
          1e-5%float 1e-3%float (2 ^ 31)%N 1%float 0.2%float.

(** The accessions of the protein vertices among the neighbours [adj], in
    adjacency order. *)
Definition adjacent_protein_accessions (fg : Graph) (hs : list ProteinHit) (adj : list vertex_t)
  : list string :=
  omap (fun nb => match fg !! nb with
                  | Some v => match vprop v with
                              | ProteinHitPtr p => accession <$> hs !! p
                              | _ => None
                              end
                  | None => None
                  end) adj.

(** The group record of a protein-group vertex. *)
Definition group_record (fg : Graph) (hs : list ProteinHit) (u : Vertex) : option ProteinGroup :=
  match vprop u with
  | ProteinGroupVal x => Some (mkProteinGroup x (adjacent_protein_accessions fg hs (adjacent u)))
  | _ => None
  end.

(** One record for each protein-group vertex of the component, in vertex
    order. *)
Definition expected_groups (fg : Graph) (hs : list ProteinHit) : list ProteinGroup :=
  omap (group_record fg hs) fg.

Definition component_groups (hs : list ProteinHit) (fg : Graph) : list ProteinGroup :=
  if (2 <=? length fg)%nat then expected_groups fg hs else [].

(** Every neighbour is a vertex of the component, and a neighbouring
    protein vertex points to a hit. *)
Definition neighbour_valid (fg : Graph) (hs : list ProteinHit) (nb : vertex_t) : Prop :=
  match fg !! nb with
  | Some v => match vprop v with
              | ProteinHitPtr p => is_Some (hs !! p)
              | _ => True
              end
  | None => False
  end.

Definition adjacency_valid (hs : list ProteinHit) (fg : Graph) : Prop :=
  Forall (fun u => Forall (neighbour_valid fg hs) (adjacent u)) fg.

Definition ex_world : World := mkWorld [ex_cc] ex_data.

(** The state after the group records [gs] were appended. *)
Definition annotated (s : CCState) (gs : list ProteinGroup) : CCState :=
  mkCCState (cc_graph s)
            (set_indistinguishable (cc_data s) (indistinguishable_proteins (cc_data s) ++ gs)).

Definition annotated_world (w : World) (gs : list ProteinGroup) : World :=
  mkWorld (ccs w)
          (set_indistinguishable (data w) (indistinguishable_proteins (data w) ++ gs)).

(** The algorithm object once [prepare] has run. *)
Definition prepared (E : Collaborators) (a : Algorithm) : Algorithm :=
  let d := data (world a) in
  let d1 := mkIDData "Posterior Probability" "Epifany" true (hits d)
                     (indistinguishable_proteins d) (peptide_hits d) in
  let d2 := if user_defined_priors (param_ a) then set_hits d1 (map save_prior (hits d1)) else d1 in
  mkAlgorithm (param_ a) (mkWorld (buildGraph E (top_PSMs (param_ a)) d2) d2).

Definition with_model_parameters (p : Param) (alpha beta gamma : double) : Param :=
  set_pep_spurious_emission (set_pep_emission (set_prot_prior p gamma) alpha) beta.

(** A direct run, in the words of the design document: the same
    preparation, then inference with the given parameter values without any
    search, then the annotation of the groups. *)
Definition direct_run (E : Collaborators) (alpha beta gamma : double) : M Algorithm unit :=
  prepare E ;;;
  modify_param (fun p => with_model_parameters p alpha beta gamma) ;;;
  a <- get ;;
  on_world (applyFunctorOnCCs (GraphInferenceFunctor E (param_ a))) ;;;
  on_world (applyFunctorOnCCsST AnnotateIndistGroupsFunctor).

Definition switches_off (p : Param) : Param :=
  set_annotate_group_probabilities (set_update_PSM_probabilities p false) false.

Definition ex_algorithm : Algorithm := mkAlgorithm ex_param_fixed (mkWorld [] ex_data).

(** [preserves R m]: whatever [m] does, and however it ends, the state it
    leaves is related by [R] to the state it started in. *)
Definition preserves {S A : Type} (R : S -> S -> Prop) (m : M S A) : Prop :=
  forall s r s' t, m s = (r, s', t) -> R s s'.

(** What a functor call may not touch, depending on the two switches:
    with [update_PSM] off the peptide hits, with [annotate_group] off the
    graph of the component. *)
Definition cc_frame (update_PSM annotate_group : bool) (c c' : CCState) : Prop :=
  (update_PSM = false -> peptide_hits (cc_data c') = peptide_hits (cc_data c))
  /\ (annotate_group = false -> cc_graph c' = cc_graph c).

Definition world_frame (update_PSM annotate_group : bool) (w w' : World) : Prop :=
  (update_PSM = false -> peptide_hits (data w') = peptide_hits (data w))
  /\ (annotate_group = false -> ccs w' = ccs w).

(** The same for the algorithm object, whose two switches stay as they are. *)
Definition algorithm_frame (a a' : Algorithm) : Prop :=
  update_PSM_probabilities (param_ a') = update_PSM_probabilities (param_ a)
  /\ annotate_group_probabilities (param_ a') = annotate_group_probabilities (param_ a)
  /\ world_frame (update_PSM_probabilities (param_ a)) (annotate_group_probabilities (param_ a))
                 (world a) (world a').

(** The example with the emission axis left to the search, prepared, and
    what the search phase makes of it. *)
Definition ex_algorithm_search : Algorithm :=
  prepared ex_E (mkAlgorithm ex_param (mkWorld [] ex_data)).

Definition ex_search_run : result Indices * Algorithm * list event :=
  Eval vm_compute in search_phase ex_E (make_grid ex_param) ex_algorithm_search.

(** ** What inference leaves alone *)

(** The identity of the records: score metadata, accessions, stored priors,
    the evidence of the peptide hits, and the group records already there,
    which may only be followed by new ones. *)
Definition same_records (d d' : IDData) : Prop :=
  score_type d' = score_type d
  /\ search_engine d' = search_engine d
  /\ higher_score_better d' = higher_score_better d
  /\ accession <$> hits d' = accession <$> hits d
  /\ prior_meta <$> hits d' = prior_meta <$> hits d
  /\ peptide_evidences <$> peptide_hits d' = peptide_evidences <$> peptide_hits d
  /\ indistinguishable_proteins d `prefix_of` indistinguishable_proteins d'.

Definition same_component (c c' : CCState) : Prop :=
  shape (cc_graph c') = shape (cc_graph c) /\ same_records (cc_data c) (cc_data c').

Definition same_world (w w' : World) : Prop :=
  shape <$> ccs w' = shape <$> ccs w /\ same_records (data w) (data w').

(** The settings that are neither a model parameter of the grid nor one of
    the two side-effect switches. *)
Definition same_settings (p p' : Param) : Prop :=
  top_PSMs p' = top_PSMs p
  /\ user_defined_priors p' = user_defined_priors p
  /\ pep_prior p' = pep_prior p
  /\ scheduling_type p' = scheduling_type p
  /\ convergence_threshold p' = convergence_threshold p
  /\ dampening_lambda p' = dampening_lambda p
  /\ max_nr_iterations p' = max_nr_iterations p
  /\ p_norm_inference p' = p_norm_inference p
  /\ aucweight p' = aucweight p.

(** A relation on the parameters and one on the graph with its data, taken
    together on the algorithm object. *)
Definition lifted (Rp : Param -> Param -> Prop) (Rw : World -> World -> Prop)
    (a a' : Algorithm) : Prop :=
  Rp (param_ a) (param_ a') /\ Rw (world a) (world a').

(** The example with the constructor's defaults, run from the start, and the
    same with the priors taken from the scores. *)
Definition ex_algorithm_default : Algorithm := mkAlgorithm ex_param (mkWorld [] ex_data).

Definition ex_run : result unit * Algorithm * list event :=
  Eval vm_compute in inferPosteriorProbabilities ex_E ex_algorithm_default.

Definition ex_param_priors : Param :=
  mkParam 1 true true true (-1)%float (-1)%float (-1)%float 0.5%float priority
          1e-5%float 1e-3%float (2 ^ 31)%N 1%float 0.2%float.

Definition ex_algorithm_priors : Algorithm := mkAlgorithm ex_param_priors (mkWorld [] ex_data).

Definition ex_run_priors : result unit * Algorithm * list event :=
  Eval vm_compute in inferPosteriorProbabilities ex_E ex_algorithm_priors.

(** ** What a pass writes to the outputs *)

(** [emits P m]: every event [m] writes satisfies [P], however [m] ends. *)
Definition emits {S A : Type} (P : event -> Prop) (m : M S A) : Prop :=
  forall s r s' t, m s = (r, s', t) -> Forall P t.

(** The events of a functor call: [to_graph()], the warning, and the note
    on a component that is skipped. *)
Definition functor_event (e : event) : Prop :=
  match e with
  | EvToGraph | EvLogWarn _ | EvCout _ => True
  | _ => False
  end.

(** The line that reports the best parameters, printed once the search is
    over. *)
Definition is_best (e : event) : bool :=
  match e with
  | EvCoutBest _ _ _ => true
  | _ => false
  end.

(** The example when the engine throws something that is no runtime error. *)
Definition ex_run_failing : result unit * Algorithm * list event :=
  Eval vm_compute in
    inferPosteriorProbabilities (ex_E_failing OtherException) ex_algorithm_default.

(** ** What a functor call can reach *)

(** No vertex of the graph points to the protein hit [p], or to the peptide
    hit [p]. *)
Definition protein_unreferenced (fg : Graph) (p : nat) : Prop :=
  forall v u, fg !! v = Some u -> vprop u <> ProteinHitPtr p.

Definition peptide_unreferenced (fg : Graph) (p : nat) : Prop :=
  forall v u, fg !! v = Some u -> vprop u <> PeptideHitPtr p.

(** The hits no vertex points to are as they were, and there are as many
    hits as before. *)
Definition untouched_outside (c c' : CCState) : Prop :=
  shape (cc_graph c') = shape (cc_graph c)
  /\ length (hits (cc_data c')) = length (hits (cc_data c))
  /\ length (peptide_hits (cc_data c')) = length (peptide_hits (cc_data c))
  /\ (forall p, protein_unreferenced (cc_graph c) p ->
        hits (cc_data c') !! p = hits (cc_data c) !! p)
  /\ (forall p, peptide_unreferenced (cc_graph c) p ->
        peptide_hits (cc_data c') !! p = peptide_hits (cc_data c) !! p).

(** The example with a third protein hit, to which no vertex points. *)
Definition ex_data_wide : IDData :=
  mkIDData "q-value" "Comet" false
           [mkProteinHit "P0" 0.4%float None; mkProteinHit "P1" 0.6%float None;
            mkProteinHit "P2" 0.3%float None]
           []
           [mkPeptideHit 0.9%float 2].

Definition ex_state_wide : CCState := mkCCState ex_cc ex_data_wide.

Definition ex_final_wide : result unit * CCState * list event :=
  Eval vm_compute in GraphInferenceFunctor ex_E ex_param ex_state_wide.

(** ** The factors and the switches *)



(** ** What an inference pass leaves to the annotator *)

(** Inference changes neither the shape of a graph, nor the number of
    protein hits, nor the group records. *)
Definition inference_only (c c' : CCState) : Prop :=
  shape (cc_graph c') = shape (cc_graph c)
  /\ length (hits (cc_data c')) = length (hits (cc_data c))
  /\ indistinguishable_proteins (cc_data c') = indistinguishable_proteins (cc_data c).

Definition inference_only_world (w w' : World) : Prop :=
  shape <$> ccs w' = shape <$> ccs w
  /\ length (hits (data w')) = length (hits (data w))
  /\ indistinguishable_proteins (data w') = indistinguishable_proteins (data w).

(** * Properties *)

(** ** Running computations *)

Lemma bind_run {S A B : Type} (m : M S A) (k : A -> M S B) (s : S) r s' t :
  bind m k s = (r, s', t) ->
  (exists a s1 t1 t2, m s = (Normal a, s1, t1) /\ k a s1 = (r, s', t2) /\ t = t1 ++ t2)
  \/ (exists e, m s = (Throws e, s', t) /\ r = Throws e)
  \/ (m s = (Undefined, s', t) /\ r = Undefined).
Proof.
  unfold bind. destruct (m s) as [[[a|e|] s1] t1].
  - destruct (k a s1) as [[r2 s2] t2] eqn:Hk. intros [= <- <- <-].
    left. by exists a, s1, t1, t2.
  - intros [= <- <- <-]. right. left. by exists e.
  - intros [= <- <- <-]. right. by right.
Qed.

Lemma bind_unfold {S A B : Type} (m : M S A) (k : A -> M S B) (s : S) :
  bind m k s =
    match m s with
    | (Normal a, s', t) => let '(r, s'', t') := k a s' in (r, s'', t ++ t')
    | (Throws e, s', t) => (Throws e, s', t)
    | (Undefined, s', t) => (Undefined, s', t)
    end.
Proof. done. Qed.

Lemma bind_normal {S A B : Type} (m : M S A) (k : A -> M S B) (s : S) a s1 t1 :
  m s = (Normal a, s1, t1) ->
  bind m k s = let '(r, s2, t2) := k a s1 in (r, s2, t1 ++ t2).
Proof. intros H. unfold bind. by rewrite H. Qed.

Lemma bind_throws {S A B : Type} (m : M S A) (k : A -> M S B) (s : S) e s1 t1 :
  m s = (Throws e, s1, t1) -> bind m k s = (Throws e, s1, t1).
Proof. intros H. unfold bind. by rewrite H. Qed.

Lemma bind_modify {S A : Type} (f : S -> S) (k : unit -> M S A) (s : S) :
  bind (modify f) k s = k tt (f s).
Proof. unfold bind, modify. by destruct (k tt (f s)) as [[? ?] ?]. Qed.

Lemma bind_get {S A : Type} (k : S -> M S A) (s : S) : bind get k s = k s s.
Proof. unfold bind, get. by destruct (k s s) as [[? ?] ?]. Qed.

Create HintDb cpp discriminated.

(** ** The loop that builds the factors *)

Lemma tracks_ret {A : Type} (a : A) : tracks [] (ret a).
Proof. intros l r l' t [= <- <- <-]. by rewrite app_nil_r. Qed.

Lemma tracks_throw {A : Type} (e : exn) : tracks [] (@throw Locals A e).
Proof. intros l r l' t [= <- <- <-]. by rewrite app_nil_r. Qed.

Lemma tracks_undefined {A : Type} : tracks [] (@undefined Locals A).
Proof. intros l r l' t [= <- <- <-]. by rewrite app_nil_r. Qed.

Lemma tracks_deref {A : Type} (o : option A) : tracks [] (deref o).
Proof. destruct o; [apply tracks_ret | apply tracks_undefined]. Qed.

Lemma tracks_may_throw (o : option exn) : tracks [] (may_throw o).
Proof. destruct o; [apply tracks_throw | apply tracks_ret]. Qed.

Lemma tracks_bind {A B : Type} add1 add2 (m : M Locals A) (k : A -> M Locals B) :
  tracks add1 m -> (forall a, tracks add2 (k a)) -> tracks (add1 ++ add2) (bind m k).
Proof.
  intros Hm Hk l r l' t H.
  destruct (bind_run _ _ _ _ _ _ H) as [(a & s1 & t1 & t2 & H1 & H2 & ->)|[(e & H1 & ->)|[H1 ->]]].
  - destruct (Hm _ _ _ _ H1) as (-> & Ha1 & Hp1).
    destruct (Hk _ _ _ _ _ H2) as (-> & Ha2 & Hp2).
    split; [done|]. split; [congruence|]. intros b Hb.
    by rewrite (Hp2 _ Hb), (Hp1 _ eq_refl), app_assoc.
  - destruct (Hm _ _ _ _ H1) as (-> & Ha1 & _). done.
  - destruct (Hm _ _ _ _ H1) as (-> & Ha1 & _). done.
Qed.

Lemma tracks_bind_nil_l {A B : Type} add (m : M Locals A) (k : A -> M Locals B) :
  tracks [] m -> (forall a, tracks add (k a)) -> tracks add (bind m k).
Proof. intros Hm Hk. by apply (tracks_bind [] add). Qed.

Lemma tracks_bind_deref {A B : Type} add (o : option A) (k : A -> M Locals B) :
  (forall a, o = Some a -> tracks add (k a)) -> tracks add (bind (deref o) k).
Proof.
  intros Hk. destruct o as [a|]; simpl.
  - intros l r l' t H. unfold bind, ret in H. simpl in H.
    destruct (k a l) as [[r2 l2] t2] eqn:Hka. injection H as <- <- <-.
    by apply (Hk a eq_refl l).
  - by intros l r l' t [= <- <- <-].
Qed.

Lemma tracks_insert_dependency E mpf f : tracks [] (insert_dependency E mpf f).
Proof.
  apply tracks_bind_nil_l; [apply tracks_may_throw|].
  intros _ l r l' t [= <- <- <-]. by rewrite app_nil_r.
Qed.

Lemma tracks_push vs : tracks [vs] (push_posteriorVars vs).
Proof. by intros l r l' t [= <- <- <-]. Qed.

Lemma tracks_when_push (b : bool) vs :
  tracks (if b then [vs] else []) (when b (push_posteriorVars vs)).
Proof. destruct b; [apply tracks_push | apply tracks_ret]. Qed.

Lemma tracks_get_PeptideHit v : tracks [] (get_PeptideHit v).
Proof. destruct v; first [apply tracks_ret | apply tracks_throw]. Qed.

Lemma tracks_get_ProteinHit v : tracks [] (get_ProteinHit v).
Proof. destruct v; first [apply tracks_ret | apply tracks_throw]. Qed.

Lemma tracks_get_Prior E h : tracks [] (get_Prior E h).
Proof. unfold get_Prior. destruct (prior_meta h); [apply tracks_ret | apply tracks_throw]. Qed.

#[global] Hint Resolve tracks_ret tracks_throw tracks_undefined tracks_deref tracks_may_throw
  tracks_insert_dependency tracks_push tracks_when_push tracks_get_PeptideHit
  tracks_get_ProteinHit tracks_get_Prior : cpp.

Ltac tracks_steps :=
  repeat first
    [ solve [auto with cpp]
    | apply tracks_bind_nil_l; [solve [auto with cpp] | intros ?] ].

Lemma GraphInference_vertex_tracks E param mpf fg ids ui :
  tracks (if requested_at (requested param) fg ui then [[ui]] else [])
         (GraphInference_vertex E param mpf fg ids ui).
Proof.
  unfold GraphInference_vertex, requested_at.
  apply tracks_bind_deref. intros u ->.
  apply tracks_bind_deref. intros ins _.
  destruct (vprop u); simpl.
  - apply tracks_bind_nil_l; [|intros; apply tracks_push].
    destruct (user_defined_priors param); tracks_steps.
  - tracks_steps.
  - tracks_steps.
  - tracks_steps.
Qed.

Lemma ExtendedGraphInference_vertex_tracks E mpf fg ids ui :
  tracks (if requested_at requested_extended fg ui then [[ui]] else [])
         (ExtendedGraphInference_vertex E mpf fg ids ui).
Proof.
  unfold ExtendedGraphInference_vertex, requested_at.
  apply tracks_bind_deref. intros u ->.
  apply tracks_bind_deref. intros ins _.
  destruct (vprop u); simpl; tracks_steps.
Qed.

(** The loop appends the requested vertices, in vertex order. *)
Lemma for_each_tracks (req : vertex_t -> bool) (body : vertex_t -> M Locals unit) vs :
  (forall ui, tracks (if req ui then [[ui]] else []) (body ui)) ->
  tracks (map (fun v => [v]) (List.filter req vs)) (for_each vs body).
Proof.
  intros Hb. induction vs as [|v vs IH]; simpl.
  - apply tracks_ret.
  - destruct (req v) eqn:Hv.
    + change (map (fun v => [v]) (v :: List.filter req vs))
        with ([[v]] ++ map (fun v => [v]) (List.filter req vs)).
      apply tracks_bind; [|done]. specialize (Hb v). by rewrite Hv in Hb.
    + apply tracks_bind_nil_l; [|done]. specialize (Hb v). by rewrite Hv in Hb.
Qed.

(** ** Writing a posterior back *)

Lemma SetPosteriorVisitor_cases v x c :
  SetPosteriorVisitor v x c =
    match cc_graph c !! v with
    | None => (Undefined, c, [])
    | Some u =>
        match vprop u with
        | ProteinHitPtr p =>
            match hits (cc_data c) !! p with
            | Some h =>
                (Normal tt,
                 mkCCState (cc_graph c)
                   (set_hits (cc_data c) (<[p := setScore_prot h x]> (hits (cc_data c)))), [])
            | None => (Undefined, c, [])
            end
        | PeptideHitPtr p =>
            match peptide_hits (cc_data c) !! p with
            | Some h =>
                (Normal tt,
                 mkCCState (cc_graph c)
                   (set_peptide_hits (cc_data c)
                      (<[p := setScore_pep h x]> (peptide_hits (cc_data c)))), [])
            | None => (Undefined, c, [])
            end
        | ProteinGroupVal _ =>
            (Normal tt,
             mkCCState (<[v := mkVertex (ProteinGroupVal x) (adjacent u)]> (cc_graph c))
                       (cc_data c), [])
        | PeptideClusterVal _ => (Normal tt, c, [])
        end
    end.
Proof.
  unfold SetPosteriorVisitor, bind, get, deref. simpl.
  destruct (cc_graph c !! v) as [u|]; simpl; [|done].
  destruct (vprop u); simpl; try done.
  - by destruct (hits (cc_data c) !! p).
  - by destruct (peptide_hits (cc_data c) !! p).
Qed.

Lemma erase_cell_of v u : cell_of v (erase u) = cell_of v u.
Proof. by destruct u as [[] ?]. Qed.

Lemma erase_which u : which (vprop (erase u)) = which (vprop u).
Proof. by destruct u as [[] ?]. Qed.

Lemma shape_lookup fg v : shape fg !! v = erase <$> fg !! v.
Proof. unfold shape. apply list_lookup_fmap. Qed.

Lemma shape_insert_group fg v u x :
  fg !! v = Some u -> which (vprop u) = 1 ->
  shape (<[v := mkVertex (ProteinGroupVal x) (adjacent u)]> fg) = shape fg.
Proof.
  intros Hv Hw. unfold shape. rewrite list_fmap_insert.
  apply list_insert_id. rewrite list_lookup_fmap, Hv. simpl.
  by destruct u as [[] ?].
Qed.

(** The visitor never throws, writes no event, and keeps the graph's shape
    and the lists it does not address. *)
Lemma SetPosteriorVisitor_frame v x c r c' t :
  SetPosteriorVisitor v x c = (r, c', t) ->
  t = [] /\ (forall e, r <> Throws e)
  /\ shape (cc_graph c') = shape (cc_graph c)
  /\ indistinguishable_proteins (cc_data c') = indistinguishable_proteins (cc_data c)
  /\ (forall u, shape (cc_graph c) !! v = Some u -> which (vprop u) <> 6 ->
        peptide_hits (cc_data c') = peptide_hits (cc_data c))
  /\ (forall u, shape (cc_graph c) !! v = Some u -> which (vprop u) <> 1 ->
        cc_graph c' = cc_graph c).
Proof.
  rewrite SetPosteriorVisitor_cases, shape_lookup.
  destruct (cc_graph c !! v) as [u|] eqn:Hv; simpl.
  2: { intros [= <- <- <-]. by repeat split. }
  destruct (vprop u) eqn:Hu.
  - destruct (hits (cc_data c) !! p); intros [= <- <- <-]; by repeat split.
  - intros [= <- <- <-]. simpl. repeat split; try done.
    + apply shape_insert_group; [done | by rewrite Hu].
    + intros u' [= <-]. rewrite erase_which, Hu. done.
  - intros [= <- <- <-]. by repeat split.
  - destruct (peptide_hits (cc_data c) !! p); intros [= <- <- <-]; simpl; repeat split;
      try done.
    intros u' [= <-]. rewrite erase_which, Hu. done.
Qed.

(** The visitor writes the cell of its vertex and no other. *)
Lemma SetPosteriorVisitor_cells v x c c' t :
  SetPosteriorVisitor v x c = (Normal tt, c', t) ->
  exists u, cc_graph c !! v = Some u
    /\ (forall k, k <> cell_of v u -> read_cell c' k = read_cell c k)
    /\ (which (vprop u) <> 2 -> read_cell c' (cell_of v u) = Some x).
Proof.
  rewrite SetPosteriorVisitor_cases.
  destruct (cc_graph c !! v) as [u|] eqn:Hv; [|done]. unfold cell_of.
  destruct (vprop u) eqn:Hu.
  - destruct (hits (cc_data c) !! p) as [h|] eqn:Hp; [|done].
    intros [= <- <-]. exists u. split; [done|]. rewrite Hu. split.
    + intros [q|q|w] Hk; simpl; try done.
      rewrite list_lookup_insert_ne; [done | congruence].
    + intros _. simpl. rewrite list_lookup_insert_eq; [done|].
      by apply lookup_lt_Some in Hp.
  - intros [= <- <-]. exists u. split; [done|]. rewrite Hu. split.
    + intros [q|q|w] Hk; simpl; try done.
      rewrite list_lookup_insert_ne; [done | congruence].
    + intros _. simpl. rewrite list_lookup_insert_eq; [done|].
      by apply lookup_lt_Some in Hv.
  - intros [= <- <-]. exists u. split; [done|]. rewrite Hu. split; [done|].
    simpl. done.
  - destruct (peptide_hits (cc_data c) !! p) as [h|] eqn:Hp; [|done].
    intros [= <- <-]. exists u. split; [done|]. rewrite Hu. split.
    + intros [q|q|w] Hk; simpl; try done.
      rewrite list_lookup_insert_ne; [done | congruence].
    + intros _. simpl. rewrite list_lookup_insert_eq; [done|].
      by apply lookup_lt_Some in Hp.
Qed.

Lemma write_with_run ex f c :
  write_with ex f c =
    match ordered_variables f !! 0%nat, ex (pmf f) with
    | Some v, Some x => SetPosteriorVisitor v x c
    | _, _ => (Undefined, c, [])
    end.
Proof.
  unfold write_with, bind, deref.
  destruct (ordered_variables f !! 0%nat) as [v|]; simpl; [|done].
  destruct (ex (pmf f)) as [x|]; simpl; [|done].
  by destruct (SetPosteriorVisitor v x c) as [[[] ?] ?].
Qed.

Lemma addresses_cons P sh f fs :
  addresses P sh (f :: fs) ->
  (forall v u, ordered_variables f !! 0%nat = Some v -> sh !! v = Some u -> P (which (vprop u)))
  /\ addresses P sh fs.
Proof.
  intros H. split.
  - intros v u. apply H. by left.
  - intros g v u Hg. apply H. by right.
Qed.

Lemma write_loop_frame ex fs c r c' t :
  for_each fs (write_with ex) c = (r, c', t) ->
  t = [] /\ (forall e, r <> Throws e)
  /\ shape (cc_graph c') = shape (cc_graph c)
  /\ indistinguishable_proteins (cc_data c') = indistinguishable_proteins (cc_data c)
  /\ (addresses (fun w => w <> 6) (shape (cc_graph c)) fs ->
        peptide_hits (cc_data c') = peptide_hits (cc_data c))
  /\ (addresses (fun w => w <> 1) (shape (cc_graph c)) fs -> cc_graph c' = cc_graph c).
Proof.
  revert c r c' t. induction fs as [|f fs IH]; intros c r c' t; simpl.
  - intros [= <- <- <-]. by repeat split.
  - intros H.
    assert (Hstep : forall r1 c1 t1, write_with ex f c = (r1, c1, t1) ->
              t1 = [] /\ (forall e, r1 <> Throws e)
              /\ shape (cc_graph c1) = shape (cc_graph c)
              /\ indistinguishable_proteins (cc_data c1) = indistinguishable_proteins (cc_data c)
              /\ (addresses (fun w => w <> 6) (shape (cc_graph c)) (f :: fs) ->
                    peptide_hits (cc_data c1) = peptide_hits (cc_data c))
              /\ (addresses (fun w => w <> 1) (shape (cc_graph c)) (f :: fs) ->
                    cc_graph c1 = cc_graph c)).
    { intros r1 c1 t1. rewrite write_with_run.
      destruct (ordered_variables f !! 0%nat) as [v|] eqn:Hv;
        [destruct (ex (pmf f)) as [x|]|]; try (intros [= <- <- <-]; by repeat split).
      intros Hs. destruct (SetPosteriorVisitor_frame _ _ _ _ _ _ Hs) as (-> & Hr & Hsh & Hi & Hp & Hg).
      repeat split; try done.
      - intros Ha. apply addresses_cons in Ha as [Ha _].
        destruct (shape (cc_graph c) !! v) as [u|] eqn:Hu.
        + eapply Hp; [done|]. by eapply Ha.
        + rewrite SetPosteriorVisitor_cases in Hs. rewrite shape_lookup in Hu.
          destruct (cc_graph c !! v); [done|]. by simplify_eq.
      - intros Ha. apply addresses_cons in Ha as [Ha _].
        destruct (shape (cc_graph c) !! v) as [u|] eqn:Hu.
        + eapply Hg; [done|]. by eapply Ha.
        + rewrite SetPosteriorVisitor_cases in Hs. rewrite shape_lookup in Hu.
          destruct (cc_graph c !! v); [done|]. by simplify_eq. }
    destruct (bind_run _ _ _ _ _ _ H) as [(a & c1 & t1 & t2 & H1 & H2 & ->)|[(e & H1 & ->)|[H1 ->]]].
    + destruct (Hstep _ _ _ H1) as (-> & _ & Hsh1 & Hi1 & Hp1 & Hg1).
      destruct (IH _ _ _ _ H2) as (-> & Hr2 & Hsh2 & Hi2 & Hp2 & Hg2).
      rewrite Hsh1 in Hp2, Hg2.
      repeat split; try done; try congruence.
      * intros Ha. rewrite Hp2; [by apply Hp1|]. by apply addresses_cons in Ha as [_ Ha].
      * intros Ha. rewrite Hg2; [by apply Hg1|]. by apply addresses_cons in Ha as [_ Ha].
    + destruct (Hstep _ _ _ H1) as (_ & Hr & _). by destruct (Hr e).
    + destruct (Hstep _ _ _ H1) as (-> & _ & Hsh1 & Hi1 & Hp1 & Hg1). by repeat split.
Qed.

(** ** The functors, stage by stage *)

Lemma GraphInference_build_tracks E param c :
  forall r l t, GraphInference_build E param c = (r, l, t) ->
    t = [] /\ graph_mp_ownership_acquired l = false
    /\ (r = Normal tt ->
        posteriorVars l =
          map (fun v => [v])
              (List.filter (requested_at (requested param) (cc_graph c)) (vertices (cc_graph c)))).
Proof.
  intros r l t H.
  destruct (for_each_tracks (requested_at (requested param) (cc_graph c)) _ (vertices (cc_graph c))
              (GraphInference_vertex_tracks E param (make_factory param) (cc_graph c) (cc_data c))
              _ _ _ _ H) as (-> & Ha & Hp).
  repeat split; [done|]. intros ->. by rewrite (Hp tt eq_refl).
Qed.

Lemma ExtendedGraphInference_build_tracks E param c :
  forall r l t, ExtendedGraphInference_build E param c = (r, l, t) ->
    t = []
    /\ (r = Normal tt ->
        posteriorVars l =
          map (fun v => [v])
              (List.filter (requested_at requested_extended (cc_graph c)) (vertices (cc_graph c)))).
Proof.
  intros r l t H.
  destruct (for_each_tracks (requested_at requested_extended (cc_graph c)) _ (vertices (cc_graph c))
              (ExtendedGraphInference_vertex_tracks E (make_factory param) (cc_graph c) (cc_data c))
              _ _ _ _ H) as (-> & Ha & Hp).
  repeat split. intros ->. by rewrite (Hp tt eq_refl).
Qed.

(** The [try] block of [GraphInferenceFunctor], as a case analysis on what
    its collaborators do. *)
Lemma GraphInference_try_run E param c :
  GraphInference_try E param c (c, init_locals) =
    match GraphInference_build E param c with
    | (Normal _, l, _) =>
        match to_graph_fault E (bigb l) with
        | Some e => (Throws e, (c, l), [EvToGraph])
        | None =>
            match inference_fault E (inference_input param l) (posteriorVars l) with
            | Some e => (Throws e, (c, acquire l), [EvToGraph])
            | None =>
                let '(r, c', t) := for_each (posterior_factors E param l) GraphInference_write c in
                (r, (c', acquire l), EvToGraph :: t)
            end
        end
    | (Throws e, l, _) => (Throws e, (c, l), [])
    | (Undefined, l, _) => (Undefined, (c, l), [])
    end.
Proof.
  unfold GraphInference_try.
  destruct (GraphInference_build E param c) as [[r l] t] eqn:Hb.
  destruct (GraphInference_build_tracks _ _ _ _ _ _ Hb) as (-> & _ & _).
  unfold GraphInference_build in Hb.
  unfold bind at 1. unfold on_locals at 1. simpl. rewrite Hb.
  destruct r as [[]|e|]; [|done|done].
  unfold posterior_factors, acquire. unfold inference_input.
  cbv [to_graph bind on_cc on_locals emit get may_throw set_acquired modify
       estimate_posteriors throw ret fst snd].
  destruct (to_graph_fault E (bigb l)) as [e|]; simpl; [done|].
  destruct (inference_fault E _ (posteriorVars l)) as [e|]; simpl; [done|].
  match goal with |- context [for_each ?fs GraphInference_write c] =>
    by destruct (for_each fs GraphInference_write c) as [[[[]|e|] c'] t'] end.
Qed.

Lemma GraphInference_write_loop_frame fs c r c' t :
  for_each fs GraphInference_write c = (r, c', t) ->
  t = [] /\ (forall e, r <> Throws e)
  /\ shape (cc_graph c') = shape (cc_graph c)
  /\ indistinguishable_proteins (cc_data c') = indistinguishable_proteins (cc_data c)
  /\ (addresses (fun w => w <> 6) (shape (cc_graph c)) fs ->
        peptide_hits (cc_data c') = peptide_hits (cc_data c))
  /\ (addresses (fun w => w <> 1) (shape (cc_graph c)) fs -> cc_graph c' = cc_graph c).
Proof. apply (write_loop_frame GraphInference_posterior). Qed.

(** [GraphInferenceFunctor] on a component with at least two vertices, as a
    case analysis on what its collaborators do. *)
Lemma GraphInferenceFunctor_run E param c :
  (2 <= length (cc_graph c))%nat ->
  GraphInferenceFunctor E param c =
    match GraphInference_build E param c with
    | (Normal _, l, _) =>
        match to_graph_fault E (bigb l) with
        | Some e =>
            if is_runtime_error e then (Throws e, c, [EvToGraph; EvToGraph])
            else (Throws e, c, [EvToGraph])
        | None =>
            match inference_fault E (inference_input param l) (posteriorVars l) with
            | Some e =>
                if is_runtime_error e
                then (Normal tt, c, [EvToGraph; EvLogWarn GraphInference_warning])
                else (Throws e, c, [EvToGraph])
            | None =>
                let '(r, c', t) := for_each (posterior_factors E param l) GraphInference_write c in
                (r, c', EvToGraph :: t)
            end
        end
    | (Throws e, l, _) =>
        if is_runtime_error e then
          match to_graph_fault E (bigb l) with
          | Some e' => (Throws e', c, [EvToGraph])
          | None => (Normal tt, c, [EvToGraph; EvLogWarn GraphInference_warning])
          end
        else (Throws e, c, [])
    | (Undefined, l, _) => (Undefined, c, [])
    end.
Proof.
  intros Hlen. apply Nat.leb_le in Hlen.
  unfold GraphInferenceFunctor. rewrite bind_get, Hlen.
  unfold with_locals, try_catch_runtime.
  rewrite GraphInference_try_run.
  destruct (GraphInference_build E param c) as [[[[]|e|] l] t] eqn:Hb.
  - destruct (GraphInference_build_tracks _ _ _ _ _ _ Hb) as (_ & Hacq & _).
    destruct (to_graph_fault E (bigb l)) as [e|] eqn:Hg.
    + destruct (is_runtime_error e); [|done].
      cbv [GraphInference_catch to_graph bind on_cc on_locals emit get may_throw when
           throw ret fst snd]. rewrite Hacq. simpl. by rewrite Hg.
    + destruct (inference_fault E (inference_input param l) (posteriorVars l)) as [e|].
      * destruct (is_runtime_error e); [|done].
        cbv [GraphInference_catch bind on_locals get when acquire
             graph_mp_ownership_acquired negb ret emit fst snd]. done.
      * destruct (for_each (posterior_factors E param l) GraphInference_write c)
          as [[r c'] t'] eqn:Hw.
        destruct (GraphInference_write_loop_frame _ _ _ _ _ Hw) as (_ & Hr & _).
        destruct r as [[]|e|]; [done| |done]. by destruct (Hr e).
  - destruct (GraphInference_build_tracks _ _ _ _ _ _ Hb) as (_ & Hacq & _).
    destruct (is_runtime_error e); [|done].
    cbv [GraphInference_catch to_graph bind on_cc on_locals emit get may_throw when
         throw ret fst snd]. rewrite Hacq. simpl.
    by destruct (to_graph_fault E (bigb l)).
  - done.
Qed.

Lemma ExtendedGraphInference_write_loop_frame fs c r c' t :
  for_each fs ExtendedGraphInference_write c = (r, c', t) ->
  t = [] /\ (forall e, r <> Throws e)
  /\ shape (cc_graph c') = shape (cc_graph c)
  /\ indistinguishable_proteins (cc_data c') = indistinguishable_proteins (cc_data c)
  /\ (addresses (fun w => w <> 6) (shape (cc_graph c)) fs ->
        peptide_hits (cc_data c') = peptide_hits (cc_data c))
  /\ (addresses (fun w => w <> 1) (shape (cc_graph c)) fs -> cc_graph c' = cc_graph c).
Proof. apply (write_loop_frame ExtendedGraphInference_posterior). Qed.

Lemma ExtendedGraphInference_try_run E param c :
  ExtendedGraphInference_try E param c (c, init_locals) =
    match ExtendedGraphInference_build E param c with
    | (Normal _, l, _) =>
        match to_graph_fault E (bigb l) with
        | Some e => (Throws e, (c, l), [EvToGraph])
        | None =>
            match inference_fault E (inference_input param l) (posteriorVars l) with
            | Some e => (Throws e, (c, l), [EvToGraph])
            | None =>
                let '(r, c', t) :=
                  for_each (posterior_factors E param l) ExtendedGraphInference_write c in
                (r, (c', l), EvToGraph :: t)
            end
        end
    | (Throws e, l, _) => (Throws e, (c, l), [])
    | (Undefined, l, _) => (Undefined, (c, l), [])
    end.
Proof.
  unfold ExtendedGraphInference_try.
  destruct (ExtendedGraphInference_build E param c) as [[r l] t] eqn:Hb.
  destruct (ExtendedGraphInference_build_tracks _ _ _ _ _ _ Hb) as (-> & _).
  unfold ExtendedGraphInference_build in Hb.
  unfold bind at 1. unfold on_locals at 1. simpl. rewrite Hb.
  destruct r as [[]|e|]; [|done|done].
  unfold posterior_factors. unfold inference_input.
  cbv [to_graph bind on_cc on_locals emit get may_throw modify
       estimate_posteriors throw ret fst snd].
  destruct (to_graph_fault E (bigb l)) as [e|]; simpl; [done|].
  destruct (inference_fault E _ (posteriorVars l)) as [e|]; simpl; [done|].
  match goal with |- context [for_each ?fs ExtendedGraphInference_write c] =>
    by destruct (for_each fs ExtendedGraphInference_write c) as [[[[]|e|] c'] t'] end.
Qed.

(** [ExtendedGraphInferenceFunctor] on a component with at least two
    vertices: its handler enters [to_graph()] whatever the [try] block did. *)
Lemma ExtendedGraphInferenceFunctor_run E param c :
  (2 <= length (cc_graph c))%nat ->
  ExtendedGraphInferenceFunctor E param c =
    match ExtendedGraphInference_build E param c with
    | (Normal _, l, _) =>
        match to_graph_fault E (bigb l) with
        | Some e =>
            if is_runtime_error e then (Throws e, c, [EvToGraph; EvToGraph])
            else (Throws e, c, [EvToGraph])
        | None =>
            match inference_fault E (inference_input param l) (posteriorVars l) with
            | Some e =>
                if is_runtime_error e
                then (Normal tt, c,
                      [EvToGraph; EvToGraph; EvLogWarn ExtendedGraphInference_warning])
                else (Throws e, c, [EvToGraph])
            | None =>
                let '(r, c', t) :=
                  for_each (posterior_factors E param l) ExtendedGraphInference_write c in
                (r, c', EvToGraph :: t)
            end
        end
    | (Throws e, l, _) =>
        if is_runtime_error e then
          match to_graph_fault E (bigb l) with
          | Some e' => (Throws e', c, [EvToGraph])
          | None => (Normal tt, c, [EvToGraph; EvLogWarn ExtendedGraphInference_warning])
          end
        else (Throws e, c, [])
    | (Undefined, l, _) => (Undefined, c, [])
    end.
Proof.
  intros Hlen. apply Nat.leb_le in Hlen.
  unfold ExtendedGraphInferenceFunctor. rewrite bind_get, Hlen.
  unfold with_locals, try_catch_runtime.
  rewrite ExtendedGraphInference_try_run.
  destruct (ExtendedGraphInference_build E param c) as [[[[]|e|] l] t] eqn:Hb.
  - destruct (to_graph_fault E (bigb l)) as [e|] eqn:Hg.
    + destruct (is_runtime_error e); [|done].
      cbv [ExtendedGraphInference_catch to_graph bind on_cc on_locals emit get may_throw
           throw ret fst snd]. by rewrite Hg.
    + destruct (inference_fault E (inference_input param l) (posteriorVars l)) as [e|].
      * destruct (is_runtime_error e); [|done].
        cbv [ExtendedGraphInference_catch to_graph bind on_cc on_locals emit get may_throw
             throw ret fst snd]. by rewrite Hg.
      * destruct (for_each (posterior_factors E param l) ExtendedGraphInference_write c)
          as [[r c'] t'] eqn:Hw.
        destruct (ExtendedGraphInference_write_loop_frame _ _ _ _ _ Hw) as (_ & Hr & _).
        destruct r as [[]|e|]; [done| |done]. by destruct (Hr e).
  - destruct (is_runtime_error e); [|done].
    cbv [ExtendedGraphInference_catch to_graph bind on_cc on_locals emit get may_throw
         throw ret fst snd].
    by destruct (to_graph_fault E (bigb l)).
  - done.
Qed.

(** ** The extraction of P(x=1) *)

Lemma GraphInference_posterior_presence pm :
  0 <= first_support pm -> GraphInference_posterior pm = Some (presence_posterior pm).
Proof.
  intros Hf. unfold GraphInference_posterior, presence_posterior, table_at, in_support.
  destruct ((first_support pm <=? 0) && (0 <=? last_support pm)) eqn:Hs; [|done].
  apply andb_true_iff in Hs as [H1 H2]. apply Z.leb_le in H1, H2.
  unfold last_support in H2.
  assert (first_support pm = 0) as -> by lia.
  destruct (table pm) as [|t0 tl]; simpl in *; [lia | done].
Qed.

Lemma ExtendedGraphInference_posterior_entry pm :
  ExtendedGraphInference_posterior pm = Some (entry_one_posterior pm).
Proof.
  unfold ExtendedGraphInference_posterior, entry_one_posterior, table_at, in_support.
  destruct ((first_support pm <=? 1) && (1 <=? last_support pm)) eqn:Hs; [|done].
  apply andb_true_iff in Hs as [H1 H2]. apply Z.leb_le in H1, H2.
  unfold last_support in H2.
  rewrite nth_lookup.
  destruct (table pm !! Z.to_nat (1 - first_support pm)) as [x|] eqn:Hx; [done|].
  apply lookup_ge_None in Hx. lia.
Qed.

(** ** The loop that writes the posteriors back *)

Lemma write_loop_cells ex (pm : list vertex_t -> PMF) sh vs :
  forall c c' t,
    shape (cc_graph c) = sh ->
    for_each (map (fun vs0 => mkPosteriorFactor vs0 (pm vs0)) (map (fun v => [v]) vs))
             (write_with ex) c = (Normal tt, c', t) ->
    (forall k, (forall w u, w ∈ vs -> sh !! w = Some u -> cell_of w u <> k) ->
       read_cell c' k = read_cell c k)
    /\ (NoDup vs ->
        (forall v w u u', sh !! v = Some u -> sh !! w = Some u' ->
           cell_of v u = cell_of w u' -> v = w) ->
        forall v u, v ∈ vs -> sh !! v = Some u -> which (vprop u) <> 2 ->
          read_cell c' (cell_of v u) = ex (pm [v])).
Proof.
  induction vs as [|v0 vs IH]; intros c c' t Hsh; simpl.
  - intros [= <- <-]. split; [done|]. intros _ _ v u Hv. by apply elem_of_nil in Hv.
  - intros H.
    destruct (bind_run _ _ _ _ _ _ H) as [(a & c1 & t1 & t2 & H1 & H2 & ->)|[(e & _ & ?)|[_ ?]]];
      [|done|done].
    rewrite write_with_run in H1. simpl in H1. destruct a.
    destruct (ex (pm [v0])) as [x|] eqn:Hex; [|done].
    destruct (SetPosteriorVisitor_frame _ _ _ _ _ _ H1) as (_ & _ & Hsh1 & _).
    destruct (SetPosteriorVisitor_cells _ _ _ _ _ H1) as (u0 & Hu0 & Hframe & Hwritten).
    assert (Hsh0 : sh !! v0 = Some (erase u0)).
    { by rewrite <- Hsh, shape_lookup, Hu0. }
    destruct (IH c1 c' t2) as [IH1 IH2]; [congruence | done |].
    split.
    + intros k Hk. rewrite IH1.
      * apply Hframe. intros ->. eapply (Hk v0); [by left | done |].
        by rewrite erase_cell_of.
      * intros w u Hw. apply Hk. by right.
    + intros Hnd Hinj v u Hv Hu Hkind.
      apply NoDup_cons in Hnd as [Hnotin Hnd].
      apply elem_of_cons in Hv as [->|Hv].
      * assert (u = erase u0) as -> by congruence.
        rewrite erase_cell_of. rewrite erase_which in Hkind.
        rewrite IH1; [rewrite Hex; by apply Hwritten|].
        intros w u Hw Hu' Heq. rewrite <- (erase_cell_of v0 u0) in Heq.
        apply Hnotin. by rewrite <- (Hinj _ _ _ _ Hu' Hsh0 Heq).
      * by apply IH2.
Qed.

Lemma no_alias_shape fg :
  no_alias fg ->
  forall v w u u', shape fg !! v = Some u -> shape fg !! w = Some u' ->
    cell_of v u = cell_of w u' -> v = w.
Proof.
  intros Hna v w u u'. rewrite !shape_lookup.
  destruct (fg !! v) as [a|] eqn:Ha; [|done]. destruct (fg !! w) as [b|] eqn:Hb; [|done].
  simpl. intros [= <-] [= <-]. rewrite !erase_cell_of. by apply Hna.
Qed.

Lemma vertex_value_shape c c' v u :
  shape (cc_graph c') = shape (cc_graph c) ->
  cc_graph c !! v = Some u ->
  vertex_value c' v = read_cell c' (cell_of v (erase u)).
Proof.
  intros Hsh Hu. unfold vertex_value.
  assert (H : shape (cc_graph c') !! v = Some (erase u)).
  { by rewrite Hsh, shape_lookup, Hu. }
  rewrite shape_lookup in H. destruct (cc_graph c' !! v) as [u'|]; [|done].
  injection H as H. by rewrite <- H, erase_cell_of.
Qed.

Lemma NoDup_filter_vertices (P : vertex_t -> bool) (fg : Graph) : NoDup (List.filter P (vertices fg)).
Proof.
  apply NoDup_ListNoDup, List.NoDup_filter, NoDup_ListNoDup, NoDup_seq.
Qed.

Lemma elem_of_filter_vertices (P : vertex_t -> bool) (fg : Graph) v u :
  fg !! v = Some u -> P v = true -> v ∈ List.filter P (vertices fg).
Proof.
  intros Hv HP. apply list_elem_of_In, List.filter_In. split; [|done].
  apply list_elem_of_In, elem_of_seq. apply lookup_lt_Some in Hv. lia.
Qed.

Lemma written_back_values E param ex (req : IDPointer -> bool) c c' l t :
  no_alias (cc_graph c) ->
  (forall vp, req vp = true -> which vp <> 2) ->
  posteriorVars l =
    map (fun v => [v]) (List.filter (requested_at req (cc_graph c)) (vertices (cc_graph c))) ->
  for_each (posterior_factors E param l) (write_with ex) c = (Normal tt, c', t) ->
  forall v u, cc_graph c !! v = Some u -> req (vprop u) = true ->
    vertex_value c' v = ex (marginal E (inference_input param l) [v]).
Proof.
  intros Hna Hreq Hpv Hrun v u Hv Hr.
  destruct (write_loop_frame _ _ _ _ _ _ Hrun) as (_ & _ & Hsh & _).
  unfold posterior_factors in Hrun. rewrite Hpv in Hrun.
  destruct (write_loop_cells ex (marginal E (inference_input param l)) (shape (cc_graph c)) _
              c c' t eq_refl Hrun) as [_ Hcells].
  rewrite (vertex_value_shape c c' v u Hsh Hv).
  apply Hcells.
  - apply NoDup_filter_vertices.
  - by apply no_alias_shape.
  - eapply elem_of_filter_vertices; [done|]. unfold requested_at. by rewrite Hv.
  - by rewrite shape_lookup, Hv.
  - rewrite erase_which. by apply Hreq.
Qed.

Lemma requested_not_cluster param vp : requested param vp = true -> which vp <> 2.
Proof. by destruct vp. Qed.

Lemma requested_extended_not_cluster vp : requested_extended vp = true -> which vp <> 2.
Proof. by destruct vp. Qed.

Lemma short_component_GraphInference E param c :
  ~ (2 <= length (cc_graph c))%nat ->
  GraphInferenceFunctor E param c = (Normal tt, c, [EvCout skipped_cc_message]).
Proof.
  intros Hlen. apply Nat.leb_nle in Hlen.
  unfold GraphInferenceFunctor. by rewrite bind_get, Hlen.
Qed.

Lemma short_component_ExtendedGraphInference E param c :
  ~ (2 <= length (cc_graph c))%nat ->
  ExtendedGraphInferenceFunctor E param c = (Normal tt, c, [EvCout skipped_cc_message]).
Proof.
  intros Hlen. apply Nat.leb_nle in Hlen.
  unfold ExtendedGraphInferenceFunctor. by rewrite bind_get, Hlen.
Qed.

(** A normal end of [GraphInferenceFunctor] whose only event is the one
    call of [to_graph()] is the path on which inference succeeded. *)
Lemma GraphInferenceFunctor_success E param c c' :
  GraphInferenceFunctor E param c = (Normal tt, c', [EvToGraph]) ->
  exists l,
    GraphInference_build E param c = (Normal tt, l, [])
    /\ to_graph_fault E (bigb l) = None
    /\ inference_fault E (inference_input param l) (posteriorVars l) = None
    /\ for_each (posterior_factors E param l) GraphInference_write c = (Normal tt, c', []).
Proof.
  destruct (decide (2 <= length (cc_graph c))%nat) as [Hlen|Hlen].
  2: { by rewrite short_component_GraphInference. }
  rewrite GraphInferenceFunctor_run by done.
  destruct (GraphInference_build E param c) as [[[[]|e|] l] t] eqn:Hb.
  - destruct (GraphInference_build_tracks _ _ _ _ _ _ Hb) as (-> & _).
    destruct (to_graph_fault E (bigb l)) as [e|] eqn:Hg; [by destruct (is_runtime_error e)|].
    destruct (inference_fault E (inference_input param l) (posteriorVars l)) as [e|] eqn:Hi;
      [by destruct (is_runtime_error e)|].
    destruct (for_each (posterior_factors E param l) GraphInference_write c)
      as [[r c1] t1] eqn:Hw.
    intros [= -> -> ->]. by exists l.
  - destruct (is_runtime_error e); [|done]. by destruct (to_graph_fault E (bigb l)).
  - done.
Qed.

Lemma ExtendedGraphInferenceFunctor_success E param c c' :
  ExtendedGraphInferenceFunctor E param c = (Normal tt, c', [EvToGraph]) ->
  exists l,
    ExtendedGraphInference_build E param c = (Normal tt, l, [])
    /\ to_graph_fault E (bigb l) = None
    /\ inference_fault E (inference_input param l) (posteriorVars l) = None
    /\ for_each (posterior_factors E param l) ExtendedGraphInference_write c = (Normal tt, c', []).
Proof.
  destruct (decide (2 <= length (cc_graph c))%nat) as [Hlen|Hlen].
  2: { by rewrite short_component_ExtendedGraphInference. }
  rewrite ExtendedGraphInferenceFunctor_run by done.
  destruct (ExtendedGraphInference_build E param c) as [[[[]|e|] l] t] eqn:Hb.
  - destruct (ExtendedGraphInference_build_tracks _ _ _ _ _ _ Hb) as (-> & _).
    destruct (to_graph_fault E (bigb l)) as [e|] eqn:Hg; [by destruct (is_runtime_error e)|].
    destruct (inference_fault E (inference_input param l) (posteriorVars l)) as [e|] eqn:Hi;
      [by destruct (is_runtime_error e)|].
    destruct (for_each (posterior_factors E param l) ExtendedGraphInference_write c)
      as [[r c1] t1] eqn:Hw.
    intros [= -> -> ->]. by exists l.
  - destruct (is_runtime_error e); [|done]. by destruct (to_graph_fault E (bigb l)).
  - done.
Qed.

(** C1 (as amended). On the path where inference succeeds, for every vertex
    whose posterior is requested the number behind the vertex afterwards is
    the extraction of its marginal: for [GraphInferenceFunctor], and a
    marginal whose support starts at 0 or above, one minus the table entry
    for 0 when 0 is in the support and one otherwise; for
    [ExtendedGraphInferenceFunctor] the table entry for 1 when 1 is in the
    support and zero otherwise. *)
Theorem C1_posterior_written_back E param c :
  no_alias (cc_graph c) ->
  (forall c', GraphInferenceFunctor E param c = (Normal tt, c', [EvToGraph]) ->
     exists input,
       in_factory input = make_factory param /\ in_scheduler input = make_scheduler param
       /\ forall v u, cc_graph c !! v = Some u -> requested param (vprop u) = true ->
            0 <= first_support (marginal E input [v]) ->
            vertex_value c' v = Some (presence_posterior (marginal E input [v])))
  /\ (forall c', ExtendedGraphInferenceFunctor E param c = (Normal tt, c', [EvToGraph]) ->
     exists input,
       in_factory input = make_factory param /\ in_scheduler input = make_scheduler param
       /\ forall v u, cc_graph c !! v = Some u -> requested_extended (vprop u) = true ->
            vertex_value c' v = Some (entry_one_posterior (marginal E input [v]))).
Proof.
  intros Hna. split; intros c' Hrun.
  - destruct (GraphInferenceFunctor_success _ _ _ _ Hrun) as (l & Hb & _ & _ & Hw).
    destruct (GraphInference_build_tracks _ _ _ _ _ _ Hb) as (_ & _ & Hpv).
    exists (inference_input param l). repeat split.
    intros v u Hv Hr Hf.
    rewrite <- (GraphInference_posterior_presence _ Hf).
    eapply (written_back_values E param GraphInference_posterior (requested param));
      eauto using requested_not_cluster.
  - destruct (ExtendedGraphInferenceFunctor_success _ _ _ _ Hrun) as (l & Hb & _ & _ & Hw).
    destruct (ExtendedGraphInference_build_tracks _ _ _ _ _ _ Hb) as (_ & Hpv).
    exists (inference_input param l). repeat split.
    intros v u Hv Hr.
    rewrite <- ExtendedGraphInference_posterior_entry.
    eapply (written_back_values E param ExtendedGraphInference_posterior requested_extended);
      eauto using requested_extended_not_cluster.
Qed.

Lemma ex_cc_no_alias : no_alias ex_cc.
Proof.
  intros v w u u' Hv Hw Heq.
  destruct v as [|[|[|[|v]]]]; simpl in Hv; try done;
    destruct w as [|[|[|[|w]]]]; simpl in Hw; try done; by simplify_eq.
Defined.

Lemma C1_witness :
  no_alias (cc_graph ex_state)
  /\ (exists input,
       in_factory input = make_factory ex_param /\ in_scheduler input = make_scheduler ex_param
       /\ forall v u, cc_graph ex_state !! v = Some u -> requested ex_param (vprop u) = true ->
            0 <= first_support (marginal ex_E input [v]) ->
            vertex_value ex_final v = Some (presence_posterior (marginal ex_E input [v])))
  /\ (exists input,
       in_factory input = make_factory ex_param /\ in_scheduler input = make_scheduler ex_param
       /\ forall v u, cc_graph ex_state !! v = Some u -> requested_extended (vprop u) = true ->
            vertex_value ex_final_extended v
            = Some (entry_one_posterior (marginal ex_E input [v]))).
Proof.
  split; [exact ex_cc_no_alias|].
  destruct (C1_posterior_written_back ex_E ex_param ex_state ex_cc_no_alias) as [H1 H2].
  split.
  - apply (H1 ex_final). vm_compute. reflexivity.
  - apply (H2 ex_final_extended). vm_compute. reflexivity.
Defined.

(** The numbers of the example: the marginal of the group vertex 2 is
    supported on {2}, its value afterwards is 1, the documented extraction
    of that marginal is 0. *)
Example ex_group_vertex_numbers :
  GraphInferenceFunctor ex_E ex_param ex_state = (Normal tt, ex_final, [EvToGraph])
  /\ marginal ex_E (inference_input ex_param init_locals) [2%nat] = mkPMF 2 [1%float]
  /\ vertex_value ex_state 2 = Some 0%float
  /\ vertex_value ex_final 2 = Some 1%float
  /\ presence_posterior (mkPMF 2 [1%float]) = 1%float
  /\ documented_posterior (mkPMF 2 [1%float]) = 0%float.
Proof. repeat split; vm_compute; reflexivity. Qed.

(** C1 (as documented) fails: the group vertex 2 of the example has a
    marginal supported on {2} only; [GraphInferenceFunctor] writes 1 into
    it, where the documented extraction gives 0. *)
Lemma C1_counterexample : ~ documented_write_back ex_E ex_param ex_state.
Proof.
  intros H.
  destruct (H ex_final) as (input & _ & _ & Hv); [vm_compute; reflexivity|].
  specialize (Hv 2%nat _ eq_refl eq_refl).
  apply (f_equal (fun o => match o with Some x => flt 0%float x | None => false end)) in Hv.
  vm_compute in Hv. discriminate.
Qed.

(** ** The scheduler *)

(** C2 (the code departs from it). Whatever [scheduling_type] is set to,
    both functors construct a [PriorityScheduler] and behave as they do for
    any other setting. *)
Theorem C2_scheduling_type_is_ignored E param s c :
  scheduler_class (make_scheduler (set_scheduling_type param s)) = PriorityScheduler
  /\ GraphInferenceFunctor E (set_scheduling_type param s) c = GraphInferenceFunctor E param c
  /\ ExtendedGraphInferenceFunctor E (set_scheduling_type param s) c
     = ExtendedGraphInferenceFunctor E param c.
Proof. repeat split. Qed.

(** With [fifo] configured the engine is still given a priority scheduler. *)
Lemma fifo_runs_priority :
  scheduling_type (set_scheduling_type ex_param fifo) = fifo
  /\ scheduler_class (in_scheduler (inference_input (set_scheduling_type ex_param fifo) init_locals))
     = PriorityScheduler.
Proof. by split. Qed.

(** ** Calls of [to_graph()] *)

(** On its normal and caught paths [GraphInferenceFunctor] enters
    [to_graph()] once, provided [to_graph()] itself does not throw. *)
Lemma GraphInferenceFunctor_to_graph_once E param c c' t :
  (2 <= length (cc_graph c))%nat ->
  (forall fs, to_graph_fault E fs = None) ->
  GraphInferenceFunctor E param c = (Normal tt, c', t) ->
  to_graph_calls t = 1%nat.
Proof.
  intros Hlen Hg. rewrite GraphInferenceFunctor_run by done.
  destruct (GraphInference_build E param c) as [[[[]|e|] l] t0] eqn:Hb; rewrite ?Hg.
  - destruct (inference_fault E (inference_input param l) (posteriorVars l)) as [e|].
    + destruct (is_runtime_error e); [|done]. by intros [= <- <-].
    + destruct (for_each (posterior_factors E param l) GraphInference_write c)
        as [[r c1] t1] eqn:Hw.
      destruct (GraphInference_write_loop_frame _ _ _ _ _ Hw) as (-> & _).
      by intros [= -> <- <-].
  - destruct (is_runtime_error e); [|done]. by intros [= <- <-].
  - done.
Qed.

(** C3 (the code departs from it). When inference throws a runtime error
    after the graph was built, [ExtendedGraphInferenceFunctor] has entered
    [to_graph()] twice by the time it returns. *)
Theorem C3_extended_enters_to_graph_twice :
  exists t,
    ExtendedGraphInferenceFunctor (ex_E_failing (RuntimeError NumericError)) ex_param ex_state
    = (Normal tt, ex_state, t)
    /\ to_graph_calls t = 2%nat.
Proof.
  exists [EvToGraph; EvToGraph; EvLogWarn ExtendedGraphInference_warning].
  split; [vm_compute; reflexivity | reflexivity].
Qed.

(** ** Failures inside a component *)

Lemma run_on_cc_unchanged F c w i r t :
  ccs w !! i = Some (cc_graph c) -> data w = cc_data c ->
  (2 <= length (cc_graph c))%nat ->
  F c = (r, c, t) ->
  run_on_cc F i w = (r, w, t).
Proof.
  intros Hi Hd Hlen HF. apply Nat.leb_le in Hlen.
  unfold run_on_cc. rewrite Hi, Hlen.
  destruct c as [g d]. simpl in *. subst d. rewrite HF. simpl.
  rewrite list_insert_id by done. by destruct w.
Qed.

Lemma GraphInferenceFunctor_recovers E param c k :
  (2 <= length (cc_graph c))%nat ->
  raises_runtime_error E param c k ->
  GraphInferenceFunctor E param c
  = (Normal tt, c, [EvToGraph; EvLogWarn GraphInference_warning]).
Proof.
  intros Hlen Hraise. rewrite GraphInferenceFunctor_run by done.
  destruct Hraise as [(l & -> & Hg)|(l & -> & Hg & Hi)]; simpl.
  - by rewrite Hg.
  - by rewrite Hg, Hi.
Qed.

(** C4 (as amended). When inference on a component raises a runtime error
    (NumericError and GraphShapeError are such), [GraphInferenceFunctor]
    catches it, logs the warning the code carries, leaves the component and
    the identification data as they were, and returns; the driver goes on
    with the remaining components from the unchanged state. *)
Theorem C4_runtime_error_skips_component E param c k :
  (2 <= length (cc_graph c))%nat ->
  raises_runtime_error E param c k ->
  exists t,
    GraphInferenceFunctor E param c = (Normal tt, c, t)
    /\ warnings t = [GraphInference_warning]
    /\ forall w i rest,
         ccs w !! i = Some (cc_graph c) -> data w = cc_data c ->
         for_each (i :: rest) (run_on_cc (GraphInferenceFunctor E param)) w
         = let '(r, w', t') := for_each rest (run_on_cc (GraphInferenceFunctor E param)) w in
           (r, w', t ++ t').
Proof.
  intros Hlen Hraise.
  pose proof (GraphInferenceFunctor_recovers E param c k Hlen Hraise) as Hrun.
  eexists. split; [exact Hrun|]. split; [done|].
  intros w i rest Hi Hd. simpl.
  by rewrite (bind_normal _ _ _ _ _ _ (run_on_cc_unchanged _ _ _ _ _ _ Hi Hd Hlen Hrun)).
Qed.

Lemma ex_raises_NumericError :
  raises_runtime_error (ex_E_failing (RuntimeError NumericError)) ex_param ex_state NumericError.
Proof. right. eexists. split; [vm_compute; reflexivity|]. by split. Defined.

Lemma C4_witness :
  (2 <= length (cc_graph ex_state))%nat
  /\ raises_runtime_error (ex_E_failing (RuntimeError NumericError)) ex_param ex_state NumericError
  /\ exists t,
       GraphInferenceFunctor (ex_E_failing (RuntimeError NumericError)) ex_param ex_state
       = (Normal tt, ex_state, t)
       /\ warnings t = [GraphInference_warning]
       /\ forall w i rest,
            ccs w !! i = Some (cc_graph ex_state) -> data w = cc_data ex_state ->
            for_each (i :: rest)
              (run_on_cc (GraphInferenceFunctor (ex_E_failing (RuntimeError NumericError)) ex_param)) w
            = let '(r, w', t') :=
                for_each rest
                  (run_on_cc (GraphInferenceFunctor (ex_E_failing (RuntimeError NumericError))
                                                    ex_param)) w in
              (r, w', t ++ t').
Proof.
  assert (Hlen : (2 <= length (cc_graph ex_state))%nat) by (simpl; lia).
  split; [exact Hlen|]. split; [exact ex_raises_NumericError|].
  exact (C4_runtime_error_skips_component _ _ _ _ Hlen ex_raises_NumericError).
Defined.

(** C4 (as documented) fails on the text of the warning: the code logs its
    own sentence, not the quoted one. *)
Lemma C4_counterexample :
  ~ documented_recovery (ex_E_failing (RuntimeError NumericError)) ex_param ex_state.
Proof.
  intros H. destruct (H NumericError ex_raises_NumericError) as (t & Hrun & Hw).
  assert (Ht : t = [EvToGraph; EvLogWarn GraphInference_warning]).
  { vm_compute in Hrun. by injection Hrun as <-. }
  subst t. simpl in Hw. apply list_elem_of_singleton in Hw. discriminate Hw.
Qed.

(** ** The first input of a PSM vertex *)

Lemma lower_neighbours_first fg w adj :
  (forall nb, nb ∈ adj -> is_Some (fg !! nb)) ->
  (exists nb v, nb ∈ adj /\ fg !! nb = Some v /\ which (vprop v) < w) ->
  exists parent rest v,
    lower_neighbours fg w adj = Some (parent :: rest)
    /\ parent ∈ adj /\ fg !! parent = Some v /\ which (vprop v) < w.
Proof.
  induction adj as [|nb adj IH]; intros Hvalid (nb0 & v0 & Hin & Hv0 & Hlt).
  - by apply elem_of_nil in Hin.
  - simpl.
    destruct (Hvalid nb) as [v Hv]; [by left|]. rewrite Hv.
    assert (Hrest : exists r, lower_neighbours fg w adj = Some r).
    { clear -Hvalid. induction adj as [|a adj IH']; simpl; [by eexists|].
      destruct (Hvalid a) as [va Hva]; [right; by left|]. rewrite Hva.
      destruct IH' as [r ->]; [|by eexists].
      intros nb' Hnb'. apply Hvalid. apply elem_of_cons in Hnb' as [->|Hnb'].
      - by left.
      - right. by right. }
    destruct Hrest as [r Hr]. rewrite Hr.
    destruct (which (vprop v) <? w) eqn:Hw.
    + exists nb, r, v. repeat split; [by left | done | by apply Z.ltb_lt].
    + apply elem_of_cons in Hin as [->|Hin].
      * rewrite Hv in Hv0. injection Hv0 as ->. apply Z.ltb_ge in Hw. lia.
      * destruct IH as (parent & rest & v' & Heq & Hp & Hv' & Hlt').
        { intros nb' Hnb'. apply Hvalid. by right. }
        { by exists nb0, v0. }
        rewrite Hr in Heq. injection Heq as ->.
        exists parent, rest, v'. repeat split; [by right | done | done].
Qed.

Lemma other_kind_is_lower (v : IDPointer) : which v <> 6 -> which v < 6.
Proof. destruct v; simpl; lia. Qed.

(** C5 (as amended). Neither functor tests the gathered inputs of a PSM
    vertex before it reads the first one. When the PSM vertex has a
    neighbour of another kind, the read is in range: the first neighbour of
    lower discriminant, in adjacency order, becomes the parent of the
    sum-evidence factor. *)
Theorem C5_first_input_of_a_psm E param mpf fg ids ui u p h l :
  fg !! ui = Some u -> vprop u = PeptideHitPtr p -> peptide_hits ids !! p = Some h ->
  (forall nb, nb ∈ adjacent u -> is_Some (fg !! nb)) ->
  (exists nb v, nb ∈ adjacent u /\ fg !! nb = Some v /\ which (vprop v) <> 6) ->
  exists parent rest,
    lower_neighbours fg 6 (adjacent u) = Some (parent :: rest)
    /\ parent ∈ adjacent u
    /\ (factor_fault E mpf (SumEvidenceFactor (peptide_evidences h) parent ui) = None ->
        factor_fault E mpf (PeptideEvidenceFactor ui (pep_score h)) = None ->
        GraphInference_vertex E param mpf fg ids ui l
        = (Normal tt,
           mkLocals (bigb l ++ [SumEvidenceFactor (peptide_evidences h) parent ui;
                                PeptideEvidenceFactor ui (pep_score h)])
                    (posteriorVars l ++ (if update_PSM_probabilities param then [[ui]] else []))
                    (graph_mp_ownership_acquired l), [])
        /\ ExtendedGraphInference_vertex E mpf fg ids ui l
           = (Normal tt,
              mkLocals (bigb l ++ [SumEvidenceFactor (peptide_evidences h) parent ui;
                                   PeptideEvidenceFactor ui (pep_score h)])
                       (posteriorVars l) (graph_mp_ownership_acquired l), [])).
Proof.
  intros Hu Hp Hh Hvalid (nb & v & Hin & Hv & Hkind).
  destruct (lower_neighbours_first fg 6 (adjacent u) Hvalid) as (parent & rest & v' & Hl & Hpin & _).
  { exists nb, v. repeat split; [done | done | by apply other_kind_is_lower]. }
  exists parent, rest. split; [done|]. split; [done|]. intros Hf1 Hf2.
  unfold GraphInference_vertex, ExtendedGraphInference_vertex.
  rewrite Hu.
  cbv [bind deref ret get_PeptideHit insert_dependency may_throw modify when push_posteriorVars].
  rewrite Hp. simpl. rewrite Hl, Hh. simpl. rewrite Hf1, Hf2. simpl.
  rewrite <- !app_assoc. simpl.
  split; [|done]. destruct (update_PSM_probabilities param); simpl; by rewrite ?app_nil_r.
Qed.

Lemma C5_witness :
  exists parent rest,
    lower_neighbours ex_cc 6 [2%nat] = Some (parent :: rest)
    /\ parent ∈ [2%nat]
    /\ (factor_fault ex_E (make_factory ex_param) (SumEvidenceFactor 2 parent 3) = None ->
        factor_fault ex_E (make_factory ex_param) (PeptideEvidenceFactor 3 0.9%float) = None ->
        GraphInference_vertex ex_E ex_param (make_factory ex_param) ex_cc ex_data 3 init_locals
        = (Normal tt,
           mkLocals ([] ++ [SumEvidenceFactor 2 parent 3; PeptideEvidenceFactor 3 0.9%float])
                    ([] ++ [[3%nat]]) false, [])
        /\ ExtendedGraphInference_vertex ex_E (make_factory ex_param) ex_cc ex_data 3 init_locals
           = (Normal tt,
              mkLocals ([] ++ [SumEvidenceFactor 2 parent 3; PeptideEvidenceFactor 3 0.9%float])
                       [] false, [])).
Proof.
  apply (C5_first_input_of_a_psm ex_E ex_param (make_factory ex_param) ex_cc ex_data 3
           (mkVertex (PeptideHitPtr 0) [2%nat]) 0 (mkPeptideHit 0.9%float 2) init_locals).
  - reflexivity.
  - reflexivity.
  - reflexivity.
  - intros nb Hnb. apply list_elem_of_singleton in Hnb. subst nb. simpl. by eexists.
  - exists 2%nat, (mkVertex (ProteinGroupVal 0%float) [0%nat; 1%nat; 3%nat]).
    split; [by left|]. split; [reflexivity | simpl; lia].
Defined.

(** C5 (as documented) fails: for a component whose PSM vertex has no
    neighbour, no error is raised and no warning is logged; the functor
    reads the first element of an empty vector. *)
Lemma C5_counterexample : ~ documented_missing_input ex_E ex_param ex_state_isolated_psm.
Proof.
  intros H.
  destruct (H 1%nat (mkVertex (PeptideHitPtr 0) []) 0%nat eq_refl eq_refl eq_refl)
    as (t & Hrun & _).
  vm_compute in Hrun. discriminate Hrun.
Qed.

(** What the functor does on that component. *)
Lemma isolated_psm_is_undefined :
  GraphInferenceFunctor ex_E ex_param ex_state_isolated_psm
  = (Undefined, ex_state_isolated_psm, [])
  /\ ExtendedGraphInferenceFunctor ex_E ex_param ex_state_isolated_psm
     = (Undefined, ex_state_isolated_psm, []).
Proof. split; vm_compute; reflexivity. Qed.

(** ** Exceptions that are no runtime errors *)

Lemma GraphInference_try_throws E param c e s t :
  GraphInference_try E param c (c, init_locals) = (Throws e, s, t) ->
  fst s = c /\ warnings t = []
  /\ ((exists l, GraphInference_build E param c = (Throws e, l, []) /\ t = [])
      \/ (exists l, GraphInference_build E param c = (Normal tt, l, [])
                    /\ t = [EvToGraph]
                    /\ (to_graph_fault E (bigb l) = Some e
                        \/ inference_fault E (inference_input param l) (posteriorVars l) = Some e))).
Proof.
  rewrite GraphInference_try_run.
  destruct (GraphInference_build E param c) as [[[[]|e0|] l] t0] eqn:Hb;
    destruct (GraphInference_build_tracks _ _ _ _ _ _ Hb) as (-> & _).
  - destruct (to_graph_fault E (bigb l)) as [e1|] eqn:Hg.
    { intros [= -> <- <-]. repeat split; try done. right. exists l. auto. }
    destruct (inference_fault E (inference_input param l) (posteriorVars l)) as [e1|] eqn:Hi.
    { intros [= -> <- <-]. repeat split; try done. right. exists l. auto. }
    destruct (for_each (posterior_factors E param l) GraphInference_write c)
      as [[r c1] t1] eqn:Hw.
    destruct (GraphInference_write_loop_frame _ _ _ _ _ Hw) as (_ & Hr & _).
    intros [= -> <- <-]. by destruct (Hr e).
  - intros [= -> <- <-]. repeat split; try done. left. by exists l.
  - done.
Qed.

Lemma ExtendedGraphInference_try_throws E param c e s t :
  ExtendedGraphInference_try E param c (c, init_locals) = (Throws e, s, t) ->
  fst s = c /\ warnings t = []
  /\ ((exists l, ExtendedGraphInference_build E param c = (Throws e, l, []) /\ t = [])
      \/ (exists l, ExtendedGraphInference_build E param c = (Normal tt, l, [])
                    /\ t = [EvToGraph]
                    /\ (to_graph_fault E (bigb l) = Some e
                        \/ inference_fault E (inference_input param l) (posteriorVars l) = Some e))).
Proof.
  rewrite ExtendedGraphInference_try_run.
  destruct (ExtendedGraphInference_build E param c) as [[[[]|e0|] l] t0] eqn:Hb;
    destruct (ExtendedGraphInference_build_tracks _ _ _ _ _ _ Hb) as (-> & _).
  - destruct (to_graph_fault E (bigb l)) as [e1|] eqn:Hg.
    { intros [= -> <- <-]. repeat split; try done. right. exists l. auto. }
    destruct (inference_fault E (inference_input param l) (posteriorVars l)) as [e1|] eqn:Hi.
    { intros [= -> <- <-]. repeat split; try done. right. exists l. auto. }
    destruct (for_each (posterior_factors E param l) ExtendedGraphInference_write c)
      as [[r c1] t1] eqn:Hw.
    destruct (ExtendedGraphInference_write_loop_frame _ _ _ _ _ Hw) as (_ & Hr & _).
    intros [= -> <- <-]. by destruct (Hr e).
  - intros [= -> <- <-]. repeat split; try done. left. by exists l.
  - done.
Qed.

(** An exception that leaves the functor ends the driver's loop. *)
Lemma run_on_cc_throws F c w i rest e t :
  ccs w !! i = Some (cc_graph c) -> data w = cc_data c ->
  (2 <= length (cc_graph c))%nat ->
  F c = (Throws e, c, t) ->
  for_each (i :: rest) (run_on_cc F) w = (Throws e, w, t).
Proof.
  intros Hi Hd Hlen HF. simpl.
  by rewrite (bind_throws _ _ _ _ _ _ (run_on_cc_unchanged _ _ _ _ _ _ Hi Hd Hlen HF)).
Qed.

(** C10. An exception that is no [std::runtime_error], thrown anywhere in
    the [try] block (factor construction, graph building, inference), is
    not caught: it leaves the functor as it was thrown, without a warning,
    and ends the driver's loop over the components. *)
Theorem C10_other_exceptions_propagate E param c e :
  is_runtime_error e = false ->
  (2 <= length (cc_graph c))%nat ->
  (forall s t, GraphInference_try E param c (c, init_locals) = (Throws e, s, t) ->
     GraphInferenceFunctor E param c = (Throws e, c, t)
     /\ warnings t = []
     /\ forall w i rest, ccs w !! i = Some (cc_graph c) -> data w = cc_data c ->
          for_each (i :: rest) (run_on_cc (GraphInferenceFunctor E param)) w = (Throws e, w, t))
  /\ (forall s t, ExtendedGraphInference_try E param c (c, init_locals) = (Throws e, s, t) ->
     ExtendedGraphInferenceFunctor E param c = (Throws e, c, t)
     /\ warnings t = []
     /\ forall w i rest, ccs w !! i = Some (cc_graph c) -> data w = cc_data c ->
          for_each (i :: rest) (run_on_cc (ExtendedGraphInferenceFunctor E param)) w
          = (Throws e, w, t)).
Proof.
  intros He Hlen. split; intros s t Htry.
  - destruct (GraphInference_try_throws _ _ _ _ _ _ Htry) as (Hs & Hw & _).
    assert (Hrun : GraphInferenceFunctor E param c = (Throws e, c, t)).
    { apply Nat.leb_le in Hlen. unfold GraphInferenceFunctor. rewrite bind_get, Hlen.
      unfold with_locals, try_catch_runtime. rewrite Htry, He. by rewrite Hs. }
    split; [done|]. split; [done|]. intros w i rest Hi Hd.
    by apply (run_on_cc_throws _ c).
  - destruct (ExtendedGraphInference_try_throws _ _ _ _ _ _ Htry) as (Hs & Hw & _).
    assert (Hrun : ExtendedGraphInferenceFunctor E param c = (Throws e, c, t)).
    { apply Nat.leb_le in Hlen. unfold ExtendedGraphInferenceFunctor. rewrite bind_get, Hlen.
      unfold with_locals, try_catch_runtime. rewrite Htry, He. by rewrite Hs. }
    split; [done|]. split; [done|]. intros w i rest Hi Hd.
    by apply (run_on_cc_throws _ c).
Qed.

Lemma C10_witness :
  is_runtime_error OtherException = false
  /\ (2 <= length (cc_graph ex_state))%nat
  /\ GraphInferenceFunctor (ex_E_failing OtherException) ex_param ex_state
     = (Throws OtherException, ex_state, [EvToGraph])
  /\ ExtendedGraphInferenceFunctor (ex_E_failing OtherException) ex_param ex_state
     = (Throws OtherException, ex_state, [EvToGraph]).
Proof.
  assert (Hlen : (2 <= length (cc_graph ex_state))%nat) by (simpl; lia).
  split; [reflexivity|]. split; [exact Hlen|].
  destruct (C10_other_exceptions_propagate (ex_E_failing OtherException) ex_param ex_state
              OtherException eq_refl Hlen) as [H1 H2].
  split.
  - refine (proj1 (H1 (ex_state, acquire (snd (fst (GraphInference_build
              (ex_E_failing OtherException) ex_param ex_state)))) [EvToGraph] _)).
    vm_compute. reflexivity.
  - refine (proj1 (H2 (ex_state, snd (fst (ExtendedGraphInference_build
              (ex_E_failing OtherException) ex_param ex_state))) [EvToGraph] _)).
    vm_compute. reflexivity.
Defined.

(** ** The axes of the grid *)

Lemma SFcompare_antisym a b : SFcompare b a = option_map CompOpp (SFcompare a b).
Proof.
  destruct a as [sa|sa| |sa ma ea], b as [sb|sb| |sb mb eb]; simpl; try done;
    try (by destruct sa); try (by destruct sb); try (by destruct sa, sb).
  f_equal. destruct sa, sb; try done.
  - rewrite (Z.compare_antisym ea eb).
    destruct (ea ?= eb)%Z; simpl; try done.
    f_equal. change Eq with (CompOpp Eq) at 1. symmetry. apply Pos.compare_cont_antisym.
  - rewrite (Z.compare_antisym ea eb).
    destruct (ea ?= eb)%Z; simpl; try done.
    change Eq with (CompOpp Eq) at 1. symmetry. apply Pos.compare_cont_antisym.
Qed.

(** [a <= b] excludes [b < a], also for signed zeros, infinities and NaN. *)
Lemma fle_not_flt a b : fle a b = true -> flt b a = false.
Proof.
  unfold fle, flt. rewrite leb_spec, ltb_spec. unfold SFleb, SFltb.
  rewrite (SFcompare_antisym (Prim2SF a) (Prim2SF b)).
  by destruct (SFcompare (Prim2SF a) (Prim2SF b)) as [[]|].
Qed.

Lemma search_axis_negative x default : flt x 0%float = true -> search_axis x default = default.
Proof. intros H. unfold search_axis. by rewrite H, orb_true_r. Qed.

Lemma search_axis_unit_interval x default :
  fle 0%float x = true -> fle x 1%float = true -> search_axis x default = [x].
Proof.
  intros H0 H1. unfold search_axis.
  by rewrite (fle_not_flt _ _ H0), (fle_not_flt _ _ H1).
Qed.

(** C8. For each of the three axes a configured value below zero gives the
    default sweep of that axis, and a configured value in [0,1] gives the
    list that holds exactly that value. *)
Theorem C8_axis_candidates param :
  (flt (pep_emission param) 0%float = true ->
     alpha_search param = [0.1%float; 0.3%float; 0.5%float; 0.7%float; 0.9%float])
  /\ (fle 0%float (pep_emission param) = true -> fle (pep_emission param) 1%float = true ->
     alpha_search param = [pep_emission param])
  /\ (flt (pep_spurious_emission param) 0%float = true -> beta_search param = [0.001%float])
  /\ (fle 0%float (pep_spurious_emission param) = true ->
      fle (pep_spurious_emission param) 1%float = true ->
     beta_search param = [pep_spurious_emission param])
  /\ (flt (prot_prior param) 0%float = true -> gamma_search param = [0.5%float])
  /\ (fle 0%float (prot_prior param) = true -> fle (prot_prior param) 1%float = true ->
     gamma_search param = [prot_prior param]).
Proof.
  unfold alpha_search, beta_search, gamma_search.
  repeat split; first [apply search_axis_negative | apply search_axis_unit_interval].
Qed.

Lemma C8_witness :
  alpha_search ex_param = [0.1%float; 0.3%float; 0.5%float; 0.7%float; 0.9%float]
  /\ beta_search ex_param = [0.001%float]
  /\ gamma_search ex_param = [0.5%float]
  /\ alpha_search ex_param_fixed = [0.7%float]
  /\ beta_search ex_param_fixed = [0.01%float]
  /\ gamma_search ex_param_fixed = [0.5%float].
Proof.
  destruct (C8_axis_candidates ex_param) as (Ha & _ & Hb & _ & Hg & _).
  destruct (C8_axis_candidates ex_param_fixed) as (_ & Ha' & _ & Hb' & _ & Hg').
  exact (conj (Ha eq_refl) (conj (Hb eq_refl) (conj (Hg eq_refl)
          (conj (Ha' eq_refl eq_refl) (conj (Hb' eq_refl eq_refl) (Hg' eq_refl eq_refl)))))).
Defined.

(** ** The indistinguishable groups *)

Lemma group_accessions_run fg ids adj : forall acc s,
  Forall (neighbour_valid fg (hits ids)) adj ->
  group_accessions fg ids adj acc s
  = (Normal (acc ++ adjacent_protein_accessions fg (hits ids) adj), s, []).
Proof.
  induction adj as [|nb adj IH]; intros acc s Hv; simpl.
  - by rewrite app_nil_r.
  - apply Forall_cons in Hv as [Hnb Hv]. unfold neighbour_valid in Hnb.
    destruct (fg !! nb) as [v|]; [|done]. simpl.
    unfold bind at 1. simpl.
    destruct (vprop v) eqn:Hvp; simpl.
    + destruct Hnb as [h Hh]. rewrite Hh. cbv [bind get_ProteinHit ret deref]. rewrite Hh.
      rewrite (IH _ _ Hv). simpl. by rewrite <- app_assoc.
    + by rewrite (IH _ _ Hv).
    + by rewrite (IH _ _ Hv).
    + by rewrite (IH _ _ Hv).
Qed.

Lemma annotated_nil s : annotated s [] = s.
Proof. destruct s as [g []]. unfold annotated, set_indistinguishable. simpl. by rewrite app_nil_r. Qed.

Lemma annotated_app s gs1 gs2 : annotated (annotated s gs1) gs2 = annotated s (gs1 ++ gs2).
Proof. unfold annotated, set_indistinguishable. simpl. by rewrite app_assoc. Qed.

Lemma AnnotateIndistGroups_vertex_run s ui u :
  cc_graph s !! ui = Some u ->
  Forall (neighbour_valid (cc_graph s) (hits (cc_data s))) (adjacent u) ->
  AnnotateIndistGroups_vertex ui s
  = (Normal tt,
     annotated s (match group_record (cc_graph s) (hits (cc_data s)) u with
                  | Some g => [g]
                  | None => []
                  end), []).
Proof.
  intros Hu Hv. unfold AnnotateIndistGroups_vertex. rewrite bind_get, Hu. simpl.
  unfold bind at 1. simpl. unfold group_record.
  destruct (vprop u); simpl; rewrite ?annotated_nil; try done.
  cbv [bind get_ProteinGroup ret]. rewrite (group_accessions_run _ _ _ _ _ Hv). done.
Qed.

Lemma AnnotateIndistGroups_loop fg hs : forall m k s,
  (k + m = length fg)%nat ->
  cc_graph s = fg -> hits (cc_data s) = hs ->
  adjacency_valid hs fg ->
  for_each (seq k m) AnnotateIndistGroups_vertex s
  = (Normal tt, annotated s (omap (group_record fg hs) (drop k fg)), []).
Proof.
  induction m as [|m IH]; intros k s Hk Hg Hh Hvalid; simpl.
  - rewrite drop_ge by lia. by rewrite annotated_nil.
  - destruct (lookup_lt_is_Some_2 fg k) as [u Hu]; [lia|].
    assert (Hadj : Forall (neighbour_valid fg hs) (adjacent u)).
    { unfold adjacency_valid in Hvalid. rewrite Forall_forall in Hvalid.
      apply Hvalid. by eapply list_elem_of_lookup_2. }
    rewrite (bind_normal _ _ _ _ _ _
               (AnnotateIndistGroups_vertex_run s k u ltac:(by rewrite Hg)
                  ltac:(by rewrite Hg, Hh))).
    rewrite IH; [|lia|done|done|done]. simpl.
    rewrite annotated_app, Hg, Hh, (drop_S _ _ _ Hu). simpl.
    by destruct (group_record fg hs u).
Qed.

Lemma AnnotateIndistGroupsFunctor_run c :
  adjacency_valid (hits (cc_data c)) (cc_graph c) ->
  AnnotateIndistGroupsFunctor c
  = (Normal tt, annotated c (component_groups (hits (cc_data c)) (cc_graph c)), []).
Proof.
  intros Hvalid. unfold AnnotateIndistGroupsFunctor, component_groups. rewrite bind_get.
  destruct (2 <=? length (cc_graph c))%nat; simpl; [|by rewrite annotated_nil].
  unfold vertices. by rewrite (AnnotateIndistGroups_loop (cc_graph c) (hits (cc_data c))).
Qed.

Lemma annotated_world_nil w : annotated_world w [] = w.
Proof.
  destruct w as [g []]. unfold annotated_world, set_indistinguishable. simpl.
  by rewrite app_nil_r.
Qed.

Lemma annotated_world_app w gs1 gs2 :
  annotated_world (annotated_world w gs1) gs2 = annotated_world w (gs1 ++ gs2).
Proof. unfold annotated_world, set_indistinguishable. simpl. by rewrite app_assoc. Qed.

Lemma run_on_cc_Annotate w k g :
  ccs w !! k = Some g ->
  adjacency_valid (hits (data w)) g ->
  run_on_cc AnnotateIndistGroupsFunctor k w
  = (Normal tt, annotated_world w (component_groups (hits (data w)) g), []).
Proof.
  intros Hk Hvalid. unfold run_on_cc. rewrite Hk.
  unfold component_groups.
  destruct (2 <=? length g)%nat eqn:Hlen; [|by rewrite annotated_world_nil].
  rewrite AnnotateIndistGroupsFunctor_run by done. simpl.
  unfold component_groups. rewrite Hlen. unfold annotated_world.
  by rewrite list_insert_id.
Qed.

Lemma Annotate_driver_loop : forall m k w,
  (k + m = length (ccs w))%nat ->
  Forall (adjacency_valid (hits (data w))) (ccs w) ->
  for_each (seq k m) (run_on_cc AnnotateIndistGroupsFunctor) w
  = (Normal tt,
     annotated_world w (flat_map (component_groups (hits (data w))) (drop k (ccs w))), []).
Proof.
  induction m as [|m IH]; intros k w Hk Hvalid; simpl.
  - rewrite drop_ge by lia. by rewrite annotated_world_nil.
  - destruct (lookup_lt_is_Some_2 (ccs w) k) as [g Hg]; [lia|].
    assert (Hgv : adjacency_valid (hits (data w)) g).
    { rewrite Forall_forall in Hvalid. apply Hvalid. by eapply list_elem_of_lookup_2. }
    rewrite (bind_normal _ _ _ _ _ _ (run_on_cc_Annotate w k g Hg Hgv)).
    rewrite IH; [|simpl; lia|done]. simpl.
    by rewrite annotated_world_app, (drop_S _ _ _ Hg).
Qed.

(** C9. On a component with at least two vertices the annotator appends one
    record for each protein-group vertex, in vertex order: its probability
    is the number stored in the vertex and its accessions are those of the
    adjacent protein vertices, in adjacency order. Run over all components
    by the single-threaded driver, the records are appended component by
    component in the components' order. *)
Theorem C9_indistinguishable_groups :
  (forall c,
     (2 <= length (cc_graph c))%nat ->
     adjacency_valid (hits (cc_data c)) (cc_graph c) ->
     AnnotateIndistGroupsFunctor c
     = (Normal tt, annotated c (expected_groups (cc_graph c) (hits (cc_data c))), []))
  /\ (forall w,
     Forall (adjacency_valid (hits (data w))) (ccs w) ->
     applyFunctorOnCCsST AnnotateIndistGroupsFunctor w
     = (Normal tt,
        annotated_world w (flat_map (component_groups (hits (data w))) (ccs w)), [])).
Proof.
  split.
  - intros c Hlen Hvalid. rewrite AnnotateIndistGroupsFunctor_run by done.
    unfold component_groups. apply Nat.leb_le in Hlen. by rewrite Hlen.
  - intros w Hvalid. unfold applyFunctorOnCCsST. rewrite bind_get.
    by rewrite Annotate_driver_loop.
Qed.

Lemma ex_cc_adjacency_valid : adjacency_valid (hits ex_data) ex_cc.
Proof.
  unfold adjacency_valid, ex_cc.
  repeat first [apply List.Forall_nil | apply List.Forall_cons];
    unfold neighbour_valid; simpl; try exact I; eexists; reflexivity.
Defined.

Lemma C9_witness :
  AnnotateIndistGroupsFunctor ex_state
  = (Normal tt, annotated ex_state [mkProteinGroup 0%float ["P0"; "P1"]], [])
  /\ applyFunctorOnCCsST AnnotateIndistGroupsFunctor ex_world
     = (Normal tt, annotated_world ex_world [mkProteinGroup 0%float ["P0"; "P1"]], []).
Proof.
  destruct C9_indistinguishable_groups as [H1 H2]. split.
  - apply (H1 ex_state); [simpl; lia | exact ex_cc_adjacency_valid].
  - apply (H2 ex_world). apply List.Forall_cons; [exact ex_cc_adjacency_valid | apply List.Forall_nil].
Defined.

(** ** The orchestrator *)

Lemma prepare_run E a : prepare E a = (Normal tt, prepared E a, []).
Proof.
  unfold prepare, prepared, modify_data, modify, when, bind, get, ret. simpl.
  by destruct (user_defined_priors (param_ a)).
Qed.

Lemma param_prepared E a : param_ (prepared E a) = param_ a.
Proof. done. Qed.

Lemma search_phase_single E gs a :
  getNrCombos gs = 1%nat ->
  search_phase E gs a
  = (Normal (0, 0, 0)%nat, mkAlgorithm (switches_off (param_ a)) (world a), [EvCout skip_message]).
Proof.
  intros H1. unfold search_phase. rewrite H1.
  by cbv [bind modify_param modify emit ret Nat.ltb Nat.leb].
Qed.

Lemma final_pass_run E gs best u g a bAlpha bBeta bGamma :
  grid_alpha gs !! fst (fst best) = Some bAlpha ->
  grid_beta gs !! snd (fst best) = Some bBeta ->
  grid_gamma gs !! snd best = Some bGamma ->
  final_pass E gs best u g a
  = let p := set_annotate_group_probabilities
               (set_update_PSM_probabilities
                  (with_model_parameters (param_ a) bAlpha bBeta bGamma) u) g in
    let '(r, w, t) := applyFunctorOnCCs (GraphInferenceFunctor E p) (world a) in
    (r, mkAlgorithm p w, [EvCoutBest bAlpha bBeta bGamma; EvCout running_message] ++ t).
Proof.
  intros Ha Hb Hg. unfold final_pass. rewrite Ha, Hb, Hg.
  destruct a as [p w]. unfold with_model_parameters.
  cbv [bind deref ret emit modify_param modify get on_world]. simpl.
  match goal with |- context [applyFunctorOnCCs ?F w] =>
    by destruct (applyFunctorOnCCs F w) as [[[[]|e|] w'] t'] end.
Qed.

Lemma restore_switches (p : Param) alpha beta gamma :
  set_annotate_group_probabilities
    (set_update_PSM_probabilities
       (with_model_parameters (switches_off p) alpha beta gamma)
       (update_PSM_probabilities p))
    (annotate_group_probabilities p)
  = with_model_parameters p alpha beta gamma.
Proof. by destruct p. Qed.

(** C6. When each of the three axes holds a single value, the search phase
    calls no evaluation (it only turns the two switches off and reports
    that the search is skipped), and the orchestration ends in the same
    outcome and the same state as a direct run with those three values. *)
Theorem C6_single_combination_is_a_direct_run E a alpha0 beta0 gamma0 :
  make_grid (param_ a) = mkGridSearch [alpha0] [beta0] [gamma0] ->
  (forall a1,
     search_phase E (make_grid (param_ a)) a1
     = (Normal (0, 0, 0)%nat, mkAlgorithm (switches_off (param_ a1)) (world a1),
        [EvCout skip_message]))
  /\ fst (inferPosteriorProbabilities E a) = fst (direct_run E alpha0 beta0 gamma0 a).
Proof.
  intros Hgrid. split.
  - intros a1. apply search_phase_single. by rewrite Hgrid.
  - unfold inferPosteriorProbabilities, direct_run.
    rewrite !(bind_normal _ _ _ _ _ _ (prepare_run E a)).
    rewrite bind_get. rewrite <- (param_prepared E a) in Hgrid.
    generalize dependent (prepared E a). clear a. intros [p w] Hgrid. simpl in Hgrid.
    assert (H1 : getNrCombos (make_grid p) = 1%nat) by (by rewrite Hgrid).
    simpl param_.
    rewrite (bind_normal _ _ _ _ _ _ (search_phase_single E _ (mkAlgorithm p w) H1)).
    rewrite Hgrid.
    rewrite (bind_unfold (final_pass E _ _ _ _)).
    rewrite (final_pass_run E _ _ _ _ _ alpha0 beta0 gamma0) by done.
    simpl param_. simpl world. rewrite restore_switches.
    cbv [bind modify_param modify get on_world]. simpl.
    destruct (applyFunctorOnCCs
                (GraphInferenceFunctor E (with_model_parameters p alpha0 beta0 gamma0)) w)
      as [[[[]|e|] w'] t']; simpl; try done.
    by destruct (applyFunctorOnCCsST AnnotateIndistGroupsFunctor w') as [[[[]|e|] w''] t''].
Qed.

Lemma C6_witness :
  make_grid (param_ ex_algorithm) = mkGridSearch [0.7%float] [0.01%float] [0.5%float]
  /\ (forall a1,
        search_phase ex_E (make_grid (param_ ex_algorithm)) a1
        = (Normal (0, 0, 0)%nat, mkAlgorithm (switches_off (param_ a1)) (world a1),
           [EvCout skip_message]))
  /\ fst (inferPosteriorProbabilities ex_E ex_algorithm)
     = fst (direct_run ex_E 0.7%float 0.01%float 0.5%float ex_algorithm).
Proof.
  exact (conj eq_refl
           (C6_single_combination_is_a_direct_run ex_E ex_algorithm
              0.7%float 0.01%float 0.5%float eq_refl)).
Defined.

(** ** What the search may not touch *)

Section Preserves.
Context {S : Type} (R : S -> S -> Prop) `{!Reflexive R, !Transitive R}.

Lemma preserves_ret {A : Type} (a : A) : preserves R (ret a).
Proof. by intros s r s' t [= <- <- <-]. Qed.

Lemma preserves_throw {A : Type} (e : exn) : preserves R (@throw S A e).
Proof. by intros s r s' t [= <- <- <-]. Qed.

Lemma preserves_undefined {A : Type} : preserves R (@undefined S A).
Proof. by intros s r s' t [= <- <- <-]. Qed.

Lemma preserves_get : preserves R (@get S).
Proof. by intros s r s' t [= <- <- <-]. Qed.

Lemma preserves_emit (e : event) : preserves R (@emit S e).
Proof. by intros s r s' t [= <- <- <-]. Qed.

Lemma preserves_deref {A : Type} (o : option A) : preserves R (deref o).
Proof. destruct o; [apply preserves_ret | apply preserves_undefined]. Qed.

Lemma preserves_modify (f : S -> S) : (forall s, R s (f s)) -> preserves R (modify f).
Proof. intros Hf s r s' t [= <- <- <-]. apply Hf. Qed.

Lemma preserves_bind {A B : Type} (m : M S A) (k : A -> M S B) :
  preserves R m -> (forall a, preserves R (k a)) -> preserves R (bind m k).
Proof.
  intros Hm Hk s r s' t H.
  destruct (bind_run _ _ _ _ _ _ H) as [(a & s1 & t1 & t2 & H1 & H2 & ->)|[(e & H1 & _)|[H1 _]]].
  - transitivity s1; [by eapply Hm | by eapply Hk].
  - by eapply Hm.
  - by eapply Hm.
Qed.

Lemma preserves_when (b : bool) (m : M S unit) : preserves R m -> preserves R (when b m).
Proof. destruct b; [done | intros _; apply preserves_ret]. Qed.

Lemma preserves_for_each {A : Type} (l : list A) (body : A -> M S unit) :
  (forall x, preserves R (body x)) -> preserves R (for_each l body).
Proof.
  intros Hb. induction l as [|x l IH]; simpl.
  - apply preserves_ret.
  - apply preserves_bind; [apply Hb | done].
Qed.

End Preserves.

#[global] Instance cc_frame_refl u g : Reflexive (cc_frame u g).
Proof. by intros c. Qed.

#[global] Instance cc_frame_trans u g : Transitive (cc_frame u g).
Proof.
  intros c1 c2 c3 [H1 H2] [H3 H4]. split; intros H.
  - by rewrite (H3 H), (H1 H).
  - by rewrite (H4 H), (H2 H).
Qed.

#[global] Instance world_frame_refl u g : Reflexive (world_frame u g).
Proof. by intros w. Qed.

#[global] Instance world_frame_trans u g : Transitive (world_frame u g).
Proof.
  intros w1 w2 w3 [H1 H2] [H3 H4]. split; intros H.
  - by rewrite (H3 H), (H1 H).
  - by rewrite (H4 H), (H2 H).
Qed.

#[global] Instance algorithm_frame_refl : Reflexive algorithm_frame.
Proof. by intros a. Qed.

#[global] Instance algorithm_frame_trans : Transitive algorithm_frame.
Proof.
  intros a1 a2 a3 (Hu1 & Hg1 & Hw1) (Hu2 & Hg2 & Hw2).
  rewrite Hu1, Hg1 in Hw2.
  split; [congruence|]. split; [congruence|]. by transitivity (world a2).
Qed.

Lemma posterior_factors_address E param l (fg : Graph) (req : IDPointer -> bool) (P : Z -> Prop) :
  posteriorVars l = map (fun v => [v]) (List.filter (requested_at req fg) (vertices fg)) ->
  (forall vp, req vp = true -> P (which vp)) ->
  addresses P (shape fg) (posterior_factors E param l).
Proof.
  intros Hpv HP f v u Hf Hv Hu.
  unfold posterior_factors in Hf. rewrite Hpv in Hf.
  apply list_elem_of_In, List.in_map_iff in Hf as (vs0 & <- & Hvs0).
  apply List.in_map_iff in Hvs0 as (v0 & <- & Hv0).
  simpl in Hv. injection Hv as ->.
  apply List.filter_In in Hv0 as [_ Hreq]. unfold requested_at in Hreq.
  rewrite shape_lookup in Hu.
  destruct (fg !! v) as [u0|]; [|done]. simpl in Hu. injection Hu as <-.
  rewrite erase_which. by apply HP.
Qed.

Lemma GraphInferenceFunctor_preserves E param :
  preserves (cc_frame (update_PSM_probabilities param) (annotate_group_probabilities param))
            (GraphInferenceFunctor E param).
Proof.
  intros c r c' t.
  destruct (decide (2 <= length (cc_graph c))%nat) as [Hlen|Hlen].
  2: { rewrite short_component_GraphInference by done. by intros [= <- <- <-]. }
  rewrite GraphInferenceFunctor_run by done.
  destruct (GraphInference_build E param c) as [[[[]|e|] l] t0] eqn:Hb.
  - destruct (to_graph_fault E (bigb l)) as [e|].
    { destruct (is_runtime_error e); by intros [= <- <- <-]. }
    destruct (inference_fault E (inference_input param l) (posteriorVars l)) as [e|].
    { destruct (is_runtime_error e); by intros [= <- <- <-]. }
    destruct (for_each (posterior_factors E param l) GraphInference_write c)
      as [[r1 c1] t1] eqn:Hw.
    intros [= <- <- <-].
    destruct (GraphInference_build_tracks _ _ _ _ _ _ Hb) as (_ & _ & Hpv).
    specialize (Hpv eq_refl).
    destruct (GraphInference_write_loop_frame _ _ _ _ _ Hw) as (_ & _ & _ & _ & Hp & Hg).
    split; intros Hoff.
    + apply Hp. eapply posterior_factors_address; [done|].
      intros [] Hreq; simpl in *; congruence.
    + apply Hg. eapply posterior_factors_address; [done|].
      intros [] Hreq; simpl in *; congruence.
  - destruct (is_runtime_error e); [|by intros [= <- <- <-]].
    destruct (to_graph_fault E (bigb l)); by intros [= <- <- <-].
  - by intros [= <- <- <-].
Qed.

Lemma run_on_cc_preserves F u g i :
  preserves (cc_frame u g) F -> preserves (world_frame u g) (run_on_cc F i).
Proof.
  intros HF w r w' t. unfold run_on_cc.
  destruct (ccs w !! i) as [g0|] eqn:Hi; [|by intros [= <- <- <-]].
  destruct (2 <=? length g0)%nat; [|by intros [= <- <- <-]].
  destruct (F (mkCCState g0 (data w))) as [[r1 c1] t1] eqn:HFc.
  intros [= <- <- <-]. destruct (HF _ _ _ _ HFc) as [Hp Hg]. simpl in *.
  split; intros Hoff; simpl.
  - by apply Hp.
  - rewrite (Hg Hoff). by apply list_insert_id.
Qed.

Lemma applyFunctorOnCCs_preserves F u g :
  preserves (cc_frame u g) F -> preserves (world_frame u g) (applyFunctorOnCCs F).
Proof.
  intros HF. unfold applyFunctorOnCCs.
  apply preserves_bind; try apply _; [apply preserves_get; apply _|].
  intros w. apply preserves_for_each; try apply _.
  intros i. by apply run_on_cc_preserves.
Qed.

Lemma applyFunctorOnCCsST_preserves F u g :
  preserves (cc_frame u g) F -> preserves (world_frame u g) (applyFunctorOnCCsST F).
Proof. apply applyFunctorOnCCs_preserves. Qed.

Lemma group_accessions_preserves R `{!Reflexive R, !Transitive R} fg ids adj :
  forall acc, preserves R (group_accessions fg ids adj acc).
Proof.
  induction adj as [|nb adj IH]; intros acc; simpl.
  - apply preserves_ret; apply _.
  - apply preserves_bind; try apply _; [apply preserves_deref; apply _|]. intros v.
    destruct (which (vprop v) =? 0); [|apply IH].
    apply preserves_bind; try apply _.
    { destruct (vprop v); first [apply preserves_ret | apply preserves_throw]; apply _. }
    intros p. apply preserves_bind; try apply _; [apply preserves_deref; apply _|].
    intros h. apply IH.
Qed.

Lemma AnnotateIndistGroupsFunctor_preserves u g :
  preserves (cc_frame u g) AnnotateIndistGroupsFunctor.
Proof.
  unfold AnnotateIndistGroupsFunctor.
  apply preserves_bind; try apply _; [apply preserves_get; apply _|].
  intros c. apply preserves_when, preserves_for_each; try apply _.
  intros ui. unfold AnnotateIndistGroups_vertex.
  apply preserves_bind; try apply _; [apply preserves_get; apply _|]. intros s.
  apply preserves_bind; try apply _; [apply preserves_deref; apply _|]. intros v.
  apply preserves_when; try apply _.
  apply preserves_bind; try apply _.
  { destruct (vprop v); first [apply preserves_ret | apply preserves_throw]; apply _. }
  intros prob. apply preserves_bind; try apply _.
  { apply group_accessions_preserves; apply _. }
  intros accs. apply preserves_modify. by intros s0.
Qed.

Lemma on_world_preserves {A : Type} (m : M World A) a :
  preserves (world_frame (update_PSM_probabilities (param_ a))
                         (annotate_group_probabilities (param_ a))) m ->
  forall r a' t, on_world m a = (r, a', t) -> algorithm_frame a a'.
Proof.
  intros Hm r a' t. unfold on_world.
  destruct (m (world a)) as [[r1 w1] t1] eqn:Hrun. intros [= <- <- <-].
  split; [done|]. split; [done|]. by eapply Hm.
Qed.

Lemma inference_pass_preserves E a :
  forall r a' t,
    on_world (applyFunctorOnCCs (GraphInferenceFunctor E (param_ a))) a = (r, a', t) ->
    algorithm_frame a a'.
Proof.
  apply on_world_preserves, applyFunctorOnCCs_preserves, GraphInferenceFunctor_preserves.
Qed.

Lemma GridSearchEvaluator_preserves E alpha beta gamma :
  preserves algorithm_frame (GridSearchEvaluator E alpha beta gamma).
Proof.
  unfold GridSearchEvaluator.
  apply preserves_bind; try apply _; [apply preserves_emit; apply _|]. intros _.
  apply preserves_bind; try apply _; [by apply preserves_modify|]. intros _.
  apply preserves_bind; try apply _; [by apply preserves_modify|]. intros _.
  apply preserves_bind; try apply _; [by apply preserves_modify|]. intros _.
  intros a r a' t H. rewrite bind_get in H.
  destruct (bind_run _ _ _ _ _ _ H) as [(x & a1 & t1 & t2 & H1 & H2 & ->)|[(e & H1 & _)|[H1 _]]].
  - rewrite bind_get in H2. injection H2 as <- <- <-. by eapply inference_pass_preserves.
  - by eapply inference_pass_preserves.
  - by eapply inference_pass_preserves.
Qed.

Lemma gridSearch_preserves E todo :
  forall bestValue bestIndices,
    preserves algorithm_frame (gridSearch (GridSearchEvaluator E) todo bestValue bestIndices).
Proof.
  induction todo as [|[idx [[a b] c]] todo IH]; intros bestValue bestIndices; simpl.
  - apply preserves_ret; apply _.
  - apply preserves_bind; try apply _; [apply GridSearchEvaluator_preserves|].
    intros currVal. destruct (flt bestValue currVal); apply IH.
Qed.

(** The search phase, from the state in which both switches are off. *)
Lemma search_phase_frame E gs a r a' t :
  search_phase E gs a = (r, a', t) ->
  algorithm_frame (mkAlgorithm (switches_off (param_ a)) (world a)) a'.
Proof.
  unfold search_phase, modify_param. rewrite !bind_modify. cbn [param_ world].
  fold (switches_off (param_ a)).
  destruct (1 <? getNrCombos gs)%nat.
  - destruct (bind (emit (EvCoutTesting (getNrCombos gs)))
                (fun _ => evaluate gs (GridSearchEvaluator E) (-1)%float (0, 0, 0)%nat)
                (mkAlgorithm (switches_off (param_ a)) (world a))) as [[r1 a1] t1] eqn:Hrun.
    intros [= <- <- <-].
    revert Hrun. apply preserves_bind; try apply _; [apply preserves_emit; apply _|].
    intros _. apply gridSearch_preserves.
  - cbv [bind emit ret]. by intros [= <- <- <-].
Qed.

Lemma final_pass_frame E gs best u g a r a' t :
  final_pass E gs best u g a = (r, a', t) ->
  world_frame u g (world a) (world a').
Proof.
  destruct (grid_gamma gs !! snd best) as [bGamma|] eqn:Hg.
  2: { unfold final_pass. rewrite Hg. by intros [= <- <- <-]. }
  destruct (grid_beta gs !! snd (fst best)) as [bBeta|] eqn:Hb.
  2: { unfold final_pass. rewrite Hg, Hb. by intros [= <- <- <-]. }
  destruct (grid_alpha gs !! fst (fst best)) as [bAlpha|] eqn:Ha.
  2: { unfold final_pass. rewrite Hg, Hb, Ha. by intros [= <- <- <-]. }
  rewrite (final_pass_run E gs best u g a bAlpha bBeta bGamma) by done. cbv zeta.
  match goal with |- context [applyFunctorOnCCs (GraphInferenceFunctor E ?p) _] =>
    pose proof (applyFunctorOnCCs_preserves _ _ _ (GraphInferenceFunctor_preserves E p)) as HF;
    destruct (applyFunctorOnCCs (GraphInferenceFunctor E p) (world a)) as [[r1 w1] t1] eqn:Hrun
  end.
  intros [= <- <- <-]. simpl. by apply HF in Hrun.
Qed.

Lemma inferPosteriorProbabilities_unfold E a :
  inferPosteriorProbabilities E a
  = (prepare E ;;;
     bestParams <- search_phase E (make_grid (param_ a)) ;;
     final_pass E (make_grid (param_ a)) bestParams
                (update_PSM_probabilities (param_ a))
                (annotate_group_probabilities (param_ a)) ;;;
     on_world (applyFunctorOnCCsST AnnotateIndistGroupsFunctor)) a.
Proof.
  unfold inferPosteriorProbabilities.
  rewrite !(bind_normal _ _ _ _ _ _ (prepare_run E a)).
  by rewrite bind_get, param_prepared.
Qed.

Lemma prepared_peptide_hits E a :
  peptide_hits (data (world (prepared E a))) = peptide_hits (data (world a)).
Proof. unfold prepared. by destruct (user_defined_priors (param_ a)). Qed.

Lemma search_phase_quiet E gs a r a' t :
  search_phase E gs a = (r, a', t) ->
  update_PSM_probabilities (param_ a') = false
  /\ annotate_group_probabilities (param_ a') = false
  /\ peptide_hits (data (world a')) = peptide_hits (data (world a))
  /\ ccs (world a') = ccs (world a).
Proof.
  intros H. destruct (search_phase_frame _ _ _ _ _ _ H) as (Hu & Hg & Hp & Hc).
  simpl in *. repeat split; auto.
Qed.

Lemma annotation_pass_frame a r a' t :
  on_world (applyFunctorOnCCsST AnnotateIndistGroupsFunctor) a = (r, a', t) ->
  world_frame false false (world a) (world a').
Proof.
  unfold on_world.
  destruct (applyFunctorOnCCsST AnnotateIndistGroupsFunctor (world a)) as [[r1 w1] t1] eqn:Hrun.
  intros [= <- <- <-]. simpl.
  by apply (applyFunctorOnCCsST_preserves _ _ _ (AnnotateIndistGroupsFunctor_preserves false false))
    in Hrun.
Qed.

Lemma orchestration_frame E a r a' t :
  inferPosteriorProbabilities E a = (r, a', t) ->
  (update_PSM_probabilities (param_ a) = false ->
     peptide_hits (data (world a')) = peptide_hits (data (world a)))
  /\ (annotate_group_probabilities (param_ a) = false ->
     ccs (world a') = ccs (world (prepared E a))).
Proof.
  rewrite inferPosteriorProbabilities_unfold.
  rewrite (bind_normal _ _ _ _ _ _ (prepare_run E a)).
  destruct (bind _ _ (prepared E a)) as [[r0 a0] t0] eqn:H. intros [= <- <- <-].
  rewrite <- (prepared_peptide_hits E a).
  destruct (bind_run _ _ _ _ _ _ H) as [(best & a2 & t1 & t2 & H1 & H2 & ->)|[(e & H1 & _)|[H1 _]]].
  2,3: destruct (search_phase_quiet _ _ _ _ _ _ H1) as (_ & _ & Hp & Hc); by split.
  destruct (search_phase_quiet _ _ _ _ _ _ H1) as (_ & _ & Hp & Hc).
  rewrite <- Hp, <- Hc.
  destruct (bind_run _ _ _ _ _ _ H2) as [(x & a3 & t3 & t4 & H3 & H4 & ->)|[(e & H3 & _)|[H3 _]]].
  2,3: by apply final_pass_frame in H3.
  apply final_pass_frame in H3 as [Hp3 Hc3].
  apply annotation_pass_frame in H4 as [Hp4 Hc4].
  split; intros Hoff.
  - by rewrite (Hp4 eq_refl), (Hp3 Hoff).
  - by rewrite (Hc4 eq_refl), (Hc3 Hoff).
Qed.

(** C7. While the grid is searched both switches are off, and no evaluation
    touches a peptide hit or the graph of a component. The final pass runs
    the functor with the two switches set to the values it is handed and
    with the best parameters, and the orchestrator hands it the caller's
    values. So a PSM score or a group value is written in the final pass at
    most, and only if the caller asked for it. *)
Theorem C7_side_effects_only_in_the_final_pass E :
  (forall gs a r a' t, search_phase E gs a = (r, a', t) ->
     update_PSM_probabilities (param_ a') = false
     /\ annotate_group_probabilities (param_ a') = false
     /\ peptide_hits (data (world a')) = peptide_hits (data (world a))
     /\ ccs (world a') = ccs (world a))
  /\ (forall gs best u g a bAlpha bBeta bGamma,
        grid_alpha gs !! fst (fst best) = Some bAlpha ->
        grid_beta gs !! snd (fst best) = Some bBeta ->
        grid_gamma gs !! snd best = Some bGamma ->
        exists p,
          update_PSM_probabilities p = u /\ annotate_group_probabilities p = g
          /\ pep_emission p = bAlpha /\ pep_spurious_emission p = bBeta /\ prot_prior p = bGamma
          /\ final_pass E gs best u g a
             = let '(r, w, t) := applyFunctorOnCCs (GraphInferenceFunctor E p) (world a) in
               (r, mkAlgorithm p w,
                [EvCoutBest bAlpha bBeta bGamma; EvCout running_message] ++ t))
  /\ (forall a,
        inferPosteriorProbabilities E a
        = (prepare E ;;;
           bestParams <- search_phase E (make_grid (param_ a)) ;;
           final_pass E (make_grid (param_ a)) bestParams
                      (update_PSM_probabilities (param_ a))
                      (annotate_group_probabilities (param_ a)) ;;;
           on_world (applyFunctorOnCCsST AnnotateIndistGroupsFunctor)) a)
  /\ (forall a r a' t, inferPosteriorProbabilities E a = (r, a', t) ->
        (update_PSM_probabilities (param_ a) = false ->
           peptide_hits (data (world a')) = peptide_hits (data (world a)))
        /\ (annotate_group_probabilities (param_ a) = false ->
           ccs (world a') = ccs (world (prepared E a)))).
Proof.
  split; [apply search_phase_quiet|].
  split; [|split; [apply inferPosteriorProbabilities_unfold | apply orchestration_frame]].
  intros gs best u g a bAlpha bBeta bGamma Ha Hb Hg.
  eexists. repeat split; [..|by apply final_pass_run]; done.
Qed.

Lemma C7_witness :
  search_phase ex_E (make_grid ex_param) ex_algorithm_search = ex_search_run
  /\ evaluations (snd ex_search_run) = 5%nat
  /\ update_PSM_probabilities (param_ (snd (fst ex_search_run))) = false
  /\ annotate_group_probabilities (param_ (snd (fst ex_search_run))) = false
  /\ peptide_hits (data (world (snd (fst ex_search_run))))
     = peptide_hits (data (world ex_algorithm_search))
  /\ ccs (world (snd (fst ex_search_run))) = ccs (world ex_algorithm_search).
Proof.
  assert (Hrun : search_phase ex_E (make_grid ex_param) ex_algorithm_search = ex_search_run)
    by (vm_compute; reflexivity).
  split; [exact Hrun|]. split; [vm_compute; reflexivity|].
  exact (proj1 (C7_side_effects_only_in_the_final_pass ex_E)
           (make_grid ex_param) ex_algorithm_search
           (fst (fst ex_search_run)) (snd (fst ex_search_run)) (snd ex_search_run) Hrun).
Defined.

(** * Further properties of the functors *)

(** ** What leaves a functor *)

(** X1. A runtime error never leaves either functor, unless the graph
    builder's [to_graph()] itself throws one: whatever runtime error factor
    construction or inference throws is absorbed by the handler. *)
Theorem runtime_errors_never_escape E param c c' t k :
  (forall fs k', to_graph_fault E fs <> Some (RuntimeError k')) ->
  GraphInferenceFunctor E param c <> (Throws (RuntimeError k), c', t)
  /\ ExtendedGraphInferenceFunctor E param c <> (Throws (RuntimeError k), c', t).
Proof.
  intros Hg.
  destruct (decide (2 <= length (cc_graph c))%nat) as [Hlen|Hlen].
  2: { by rewrite short_component_GraphInference, short_component_ExtendedGraphInference. }
  split.
  - rewrite GraphInferenceFunctor_run by done.
    destruct (GraphInference_build E param c) as [[[[]|e|] l] t0].
    + destruct (to_graph_fault E (bigb l)) as [[k'|]|] eqn:Hf; simpl; try done.
      { by destruct (Hg _ _ Hf). }
      destruct (inference_fault E (inference_input param l) (posteriorVars l)) as [[k'|]|];
        simpl; try done.
      destruct (for_each (posterior_factors E param l) GraphInference_write c)
        as [[r1 c1] t1] eqn:Hw.
      destruct (GraphInference_write_loop_frame _ _ _ _ _ Hw) as (_ & Hr & _).
      intros [= -> _ _]. by destruct (Hr (RuntimeError k)).
    + destruct e as [k'|]; simpl; [|done].
      destruct (to_graph_fault E (bigb l)) as [[k''|]|] eqn:Hf; try done.
      by destruct (Hg _ _ Hf).
    + done.
  - rewrite ExtendedGraphInferenceFunctor_run by done.
    destruct (ExtendedGraphInference_build E param c) as [[[[]|e|] l] t0].
    + destruct (to_graph_fault E (bigb l)) as [[k'|]|] eqn:Hf; simpl; try done.
      { by destruct (Hg _ _ Hf). }
      destruct (inference_fault E (inference_input param l) (posteriorVars l)) as [[k'|]|];
        simpl; try done.
      destruct (for_each (posterior_factors E param l) ExtendedGraphInference_write c)
        as [[r1 c1] t1] eqn:Hw.
      destruct (ExtendedGraphInference_write_loop_frame _ _ _ _ _ Hw) as (_ & Hr & _).
      intros [= -> _ _]. by destruct (Hr (RuntimeError k)).
    + destruct e as [k'|]; simpl; [|done].
      destruct (to_graph_fault E (bigb l)) as [[k''|]|] eqn:Hf; try done.
      by destruct (Hg _ _ Hf).
    + done.
Qed.

Lemma runtime_errors_never_escape_witness :
  (forall fs k', to_graph_fault (ex_E_failing (RuntimeError NumericError)) fs
                 <> Some (RuntimeError k'))
  /\ inference_fault (ex_E_failing (RuntimeError NumericError))
       (inference_input ex_param init_locals) [] = Some (RuntimeError NumericError)
  /\ GraphInferenceFunctor (ex_E_failing (RuntimeError NumericError)) ex_param ex_state
     <> (Throws (RuntimeError NumericError), ex_state, [EvToGraph])
  /\ ExtendedGraphInferenceFunctor (ex_E_failing (RuntimeError NumericError)) ex_param ex_state
     <> (Throws (RuntimeError NumericError), ex_state, [EvToGraph]).
Proof.
  assert (Hg : forall fs k', to_graph_fault (ex_E_failing (RuntimeError NumericError)) fs
                             <> Some (RuntimeError k')) by (intros fs k'; discriminate).
  split; [exact Hg|]. split; [reflexivity|].
  exact (runtime_errors_never_escape (ex_E_failing (RuntimeError NumericError)) ex_param
           ex_state ex_state [EvToGraph] NumericError Hg).
Defined.

(** X2. Whenever a functor logs its warning it has returned normally and has
    written nothing: the component and the identification data are exactly
    as they were before the call. *)
Theorem warning_means_untouched E param c r c' t :
  (GraphInferenceFunctor E param c = (r, c', t) -> warnings t <> [] ->
     r = Normal tt /\ c' = c /\ warnings t = [GraphInference_warning])
  /\ (ExtendedGraphInferenceFunctor E param c = (r, c', t) -> warnings t <> [] ->
     r = Normal tt /\ c' = c /\ warnings t = [ExtendedGraphInference_warning]).
Proof.
  destruct (decide (2 <= length (cc_graph c))%nat) as [Hlen|Hlen].
  2: { rewrite short_component_GraphInference, short_component_ExtendedGraphInference by done.
       split; by intros [= <- <- <-]. }
  split.
  - rewrite GraphInferenceFunctor_run by done.
    destruct (GraphInference_build E param c) as [[[[]|e|] l] t0].
    + destruct (to_graph_fault E (bigb l)) as [e|].
      { destruct (is_runtime_error e); by intros [= <- <- <-]. }
      destruct (inference_fault E (inference_input param l) (posteriorVars l)) as [e|].
      { destruct (is_runtime_error e); by intros [= <- <- <-]. }
      destruct (for_each (posterior_factors E param l) GraphInference_write c)
        as [[r1 c1] t1] eqn:Hw.
      destruct (GraphInference_write_loop_frame _ _ _ _ _ Hw) as (-> & _).
      by intros [= <- <- <-].
    + destruct (is_runtime_error e); [|by intros [= <- <- <-]].
      destruct (to_graph_fault E (bigb l)); by intros [= <- <- <-].
    + by intros [= <- <- <-].
  - rewrite ExtendedGraphInferenceFunctor_run by done.
    destruct (ExtendedGraphInference_build E param c) as [[[[]|e|] l] t0].
    + destruct (to_graph_fault E (bigb l)) as [e|].
      { destruct (is_runtime_error e); by intros [= <- <- <-]. }
      destruct (inference_fault E (inference_input param l) (posteriorVars l)) as [e|].
      { destruct (is_runtime_error e); by intros [= <- <- <-]. }
      destruct (for_each (posterior_factors E param l) ExtendedGraphInference_write c)
        as [[r1 c1] t1] eqn:Hw.
      destruct (ExtendedGraphInference_write_loop_frame _ _ _ _ _ Hw) as (-> & _).
      by intros [= <- <- <-].
    + destruct (is_runtime_error e); [|by intros [= <- <- <-]].
      destruct (to_graph_fault E (bigb l)); by intros [= <- <- <-].
    + by intros [= <- <- <-].
Qed.

Lemma warning_means_untouched_witness :
  exists t,
    GraphInferenceFunctor (ex_E_failing (RuntimeError NumericError)) ex_param ex_state
    = (Normal tt, ex_state, t)
    /\ warnings t <> []
    /\ warnings t = [GraphInference_warning].
Proof.
  exists [EvToGraph; EvLogWarn GraphInference_warning].
  assert (Hrun : GraphInferenceFunctor (ex_E_failing (RuntimeError NumericError)) ex_param ex_state
                 = (Normal tt, ex_state, [EvToGraph; EvLogWarn GraphInference_warning]))
    by (vm_compute; reflexivity).
  assert (Hw : warnings [EvToGraph; EvLogWarn GraphInference_warning] <> []) by discriminate.
  split; [exact Hrun|]. split; [exact Hw|].
  exact (proj2 (proj2 (proj1 (warning_means_untouched _ _ _ _ _ _) Hrun Hw))).
Defined.

(** ** Relations every pass keeps

    A relation [Rc] on a component that the posterior visitor and the
    appending of a group record keep is kept by the three functors; lifted
    to the graph ([Rw]) and to the parameters ([Rp]) it is kept by the
    driver, by the evaluator, by the search and by the orchestrator from
    the point where the graph has been built. *)

Section Lifting.
Context (Rc : CCState -> CCState -> Prop) (Rw : World -> World -> Prop)
        (Rp : Param -> Param -> Prop).
Context `{!Reflexive Rc, !Transitive Rc, !Reflexive Rw, !Transitive Rw,
          !Reflexive Rp, !Transitive Rp}.
Hypothesis lift : forall w i g c',
  ccs w !! i = Some g -> Rc (mkCCState g (data w)) c' ->
  Rw w (mkWorld (<[i := cc_graph c']> (ccs w)) (cc_data c')).
Hypothesis visitor : forall v x, preserves Rc (SetPosteriorVisitor v x).
Hypothesis groups : forall pg, preserves Rc (push_back_group pg).
Hypothesis setters : forall p x,
  Rp p (set_prot_prior p x) /\ Rp p (set_pep_emission p x)
  /\ Rp p (set_pep_spurious_emission p x).
Hypothesis switches : forall p b,
  Rp p (set_update_PSM_probabilities p b) /\ Rp p (set_annotate_group_probabilities p b).

#[local] Instance lifted_refl : Reflexive (lifted Rp Rw).
Proof. by intros a. Qed.

#[local] Instance lifted_trans : Transitive (lifted Rp Rw).
Proof. intros a1 a2 a3 [H1 H2] [H3 H4]. split; by etransitivity. Qed.

Lemma write_with_lifted ex f : preserves Rc (write_with ex f).
Proof.
  intros c r c' t. rewrite write_with_run.
  destruct (ordered_variables f !! 0%nat) as [v|]; [|by intros [= <- <- <-]].
  destruct (ex (pmf f)) as [x|]; [|by intros [= <- <- <-]].
  apply visitor.
Qed.

Lemma GraphInferenceFunctor_lifted E param : preserves Rc (GraphInferenceFunctor E param).
Proof.
  intros c r c' t.
  destruct (decide (2 <= length (cc_graph c))%nat) as [Hlen|Hlen].
  2: { rewrite short_component_GraphInference by done. by intros [= <- <- <-]. }
  rewrite GraphInferenceFunctor_run by done.
  destruct (GraphInference_build E param c) as [[[[]|e|] l] t0].
  - destruct (to_graph_fault E (bigb l)) as [e|].
    { destruct (is_runtime_error e); by intros [= <- <- <-]. }
    destruct (inference_fault E (inference_input param l) (posteriorVars l)) as [e|].
    { destruct (is_runtime_error e); by intros [= <- <- <-]. }
    destruct (for_each (posterior_factors E param l) GraphInference_write c)
      as [[r1 c1] t1] eqn:Hw.
    intros [= <- <- <-]. revert Hw.
    apply (preserves_for_each Rc _ (write_with GraphInference_posterior)).
    intros f. apply write_with_lifted.
  - destruct (is_runtime_error e); [|by intros [= <- <- <-]].
    destruct (to_graph_fault E (bigb l)); by intros [= <- <- <-].
  - by intros [= <- <- <-].
Qed.

Lemma ExtendedGraphInferenceFunctor_lifted E param :
  preserves Rc (ExtendedGraphInferenceFunctor E param).
Proof.
  intros c r c' t.
  destruct (decide (2 <= length (cc_graph c))%nat) as [Hlen|Hlen].
  2: { rewrite short_component_ExtendedGraphInference by done. by intros [= <- <- <-]. }
  rewrite ExtendedGraphInferenceFunctor_run by done.
  destruct (ExtendedGraphInference_build E param c) as [[[[]|e|] l] t0].
  - destruct (to_graph_fault E (bigb l)) as [e|].
    { destruct (is_runtime_error e); by intros [= <- <- <-]. }
    destruct (inference_fault E (inference_input param l) (posteriorVars l)) as [e|].
    { destruct (is_runtime_error e); by intros [= <- <- <-]. }
    destruct (for_each (posterior_factors E param l) ExtendedGraphInference_write c)
      as [[r1 c1] t1] eqn:Hw.
    intros [= <- <- <-]. revert Hw.
    apply (preserves_for_each Rc _ (write_with ExtendedGraphInference_posterior)).
    intros f. apply write_with_lifted.
  - destruct (is_runtime_error e); [|by intros [= <- <- <-]].
    destruct (to_graph_fault E (bigb l)); by intros [= <- <- <-].
  - by intros [= <- <- <-].
Qed.

Lemma AnnotateIndistGroupsFunctor_lifted : preserves Rc AnnotateIndistGroupsFunctor.
Proof.
  unfold AnnotateIndistGroupsFunctor.
  apply preserves_bind; try apply _; [apply preserves_get; apply _|].
  intros c. apply preserves_when, preserves_for_each; try apply _.
  intros ui. unfold AnnotateIndistGroups_vertex.
  apply preserves_bind; try apply _; [apply preserves_get; apply _|]. intros s.
  apply preserves_bind; try apply _; [apply preserves_deref; apply _|]. intros v.
  apply preserves_when; try apply _.
  apply preserves_bind; try apply _.
  { destruct (vprop v); first [apply preserves_ret | apply preserves_throw]; apply _. }
  intros prob. apply preserves_bind; try apply _.
  { apply group_accessions_preserves; apply _. }
  intros accs. apply groups.
Qed.

Lemma run_on_cc_lifted F i : preserves Rc F -> preserves Rw (run_on_cc F i).
Proof.
  intros HF w r w' t. unfold run_on_cc.
  destruct (ccs w !! i) as [g0|] eqn:Hi; [|by intros [= <- <- <-]].
  destruct (2 <=? length g0)%nat; [|by intros [= <- <- <-]].
  destruct (F (mkCCState g0 (data w))) as [[r1 c1] t1] eqn:HFc.
  intros [= <- <- <-]. apply lift with g0; [done|]. by eapply HF.
Qed.

Lemma applyFunctorOnCCs_lifted F : preserves Rc F -> preserves Rw (applyFunctorOnCCs F).
Proof.
  intros HF. unfold applyFunctorOnCCs.
  apply preserves_bind; try apply _; [apply preserves_get; apply _|].
  intros w. apply preserves_for_each; try apply _.
  intros i. by apply run_on_cc_lifted.
Qed.

Lemma on_world_lifted {A : Type} (m : M World A) :
  preserves Rw m -> preserves (lifted Rp Rw) (on_world m).
Proof.
  intros Hm a r a' t. unfold on_world.
  destruct (m (world a)) as [[r1 w1] t1] eqn:Hrun. intros [= <- <- <-].
  split; [done|]. by eapply Hm.
Qed.

Lemma modify_param_lifted f :
  (forall p, Rp p (f p)) -> preserves (lifted Rp Rw) (modify_param f).
Proof. intros Hf. apply preserves_modify. intros a. split; [apply Hf | done]. Qed.

Lemma inference_pass_lifted E :
  preserves (lifted Rp Rw)
    (a <- get ;; on_world (applyFunctorOnCCs (GraphInferenceFunctor E (param_ a)))).
Proof.
  apply preserves_bind; try apply _; [apply preserves_get; apply _|]. intros a.
  apply on_world_lifted, applyFunctorOnCCs_lifted, GraphInferenceFunctor_lifted.
Qed.

Lemma GridSearchEvaluator_lifted E alpha beta gamma :
  preserves (lifted Rp Rw) (GridSearchEvaluator E alpha beta gamma).
Proof.
  unfold GridSearchEvaluator.
  apply preserves_bind; try apply _; [apply preserves_emit; apply _|]. intros _.
  apply preserves_bind; try apply _; [apply modify_param_lifted; intros p; apply setters|].
  intros _.
  apply preserves_bind; try apply _; [apply modify_param_lifted; intros p; apply setters|].
  intros _.
  apply preserves_bind; try apply _; [apply modify_param_lifted; intros p; apply setters|].
  intros _.
  apply preserves_bind; try apply _; [apply preserves_get; apply _|]. intros a.
  apply preserves_bind; try apply _.
  { apply on_world_lifted, applyFunctorOnCCs_lifted, GraphInferenceFunctor_lifted. }
  intros _. apply preserves_bind; try apply _; [apply preserves_get; apply _|].
  intros a'. apply preserves_ret; apply _.
Qed.

Lemma gridSearch_lifted E todo :
  forall bestValue bestIndices,
    preserves (lifted Rp Rw) (gridSearch (GridSearchEvaluator E) todo bestValue bestIndices).
Proof.
  induction todo as [|[idx [[a b] c]] todo IH]; intros bestValue bestIndices; simpl.
  - apply preserves_ret; apply _.
  - apply preserves_bind; try apply _; [apply GridSearchEvaluator_lifted|].
    intros currVal. destruct (flt bestValue currVal); apply IH.
Qed.

Lemma search_phase_lifted E gs : preserves (lifted Rp Rw) (search_phase E gs).
Proof.
  unfold search_phase.
  apply preserves_bind; try apply _; [apply modify_param_lifted; intros p; apply switches|].
  intros _.
  apply preserves_bind; try apply _; [apply modify_param_lifted; intros p; apply switches|].
  intros _. destruct (1 <? getNrCombos gs)%nat.
  - apply preserves_bind; try apply _; [apply preserves_emit; apply _|].
    intros _. apply gridSearch_lifted.
  - apply preserves_bind; try apply _; [apply preserves_emit; apply _|].
    intros _. apply preserves_ret; apply _.
Qed.

Lemma final_pass_lifted E gs best u g : preserves (lifted Rp Rw) (final_pass E gs best u g).
Proof.
  unfold final_pass.
  do 3 (apply preserves_bind; try apply _; [apply preserves_deref; apply _|]; intros ?).
  do 2 (apply preserves_bind; try apply _; [apply preserves_emit; apply _|]; intros _).
  do 3 (apply preserves_bind; try apply _;
        [apply modify_param_lifted; intros p; apply setters|]; intros _).
  do 2 (apply preserves_bind; try apply _;
        [apply modify_param_lifted; intros p; apply switches|]; intros _).
  apply inference_pass_lifted.
Qed.

Lemma annotation_pass_lifted :
  preserves (lifted Rp Rw) (on_world (applyFunctorOnCCsST AnnotateIndistGroupsFunctor)).
Proof.
  apply on_world_lifted, (applyFunctorOnCCs_lifted AnnotateIndistGroupsFunctor),
    AnnotateIndistGroupsFunctor_lifted.
Qed.

(** From the prepared object on, whatever the outcome. *)
Lemma inferPosteriorProbabilities_lifted E a r a' t :
  inferPosteriorProbabilities E a = (r, a', t) -> lifted Rp Rw (prepared E a) a'.
Proof.
  rewrite inferPosteriorProbabilities_unfold.
  rewrite (bind_normal _ _ _ _ _ _ (prepare_run E a)).
  destruct (bind _ _ (prepared E a)) as [[r0 a0] t0] eqn:H. intros [= <- <- <-].
  revert H. apply preserves_bind; try apply _; [apply search_phase_lifted|].
  intros best. apply preserves_bind; try apply _; [apply final_pass_lifted|].
  intros _. apply annotation_pass_lifted.
Qed.

End Lifting.

#[global] Instance same_records_refl : Reflexive same_records.
Proof. by intros d. Qed.

#[global] Instance same_records_trans : Transitive same_records.
Proof.
  intros d1 d2 d3 (A1 & A2 & A3 & A4 & A5 & A6 & A7) (B1 & B2 & B3 & B4 & B5 & B6 & B7).
  repeat split; try congruence. by etransitivity.
Qed.

#[global] Instance same_component_refl : Reflexive same_component.
Proof. by intros c. Qed.

#[global] Instance same_component_trans : Transitive same_component.
Proof. intros c1 c2 c3 [A1 A2] [B1 B2]. split; [congruence | by etransitivity]. Qed.

#[global] Instance same_world_refl : Reflexive same_world.
Proof. by intros w. Qed.

#[global] Instance same_world_trans : Transitive same_world.
Proof. intros w1 w2 w3 [A1 A2] [B1 B2]. split; [congruence | by etransitivity]. Qed.

#[global] Instance same_settings_refl : Reflexive same_settings.
Proof. by intros p. Qed.

#[global] Instance same_settings_trans : Transitive same_settings.
Proof.
  intros p1 p2 p3 (A1 & A2 & A3 & A4 & A5 & A6 & A7 & A8 & A9)
    (B1 & B2 & B3 & B4 & B5 & B6 & B7 & B8 & B9).
  repeat split; congruence.
Qed.

Lemma same_component_lift w i g c' :
  ccs w !! i = Some g -> same_component (mkCCState g (data w)) c' ->
  same_world w (mkWorld (<[i := cc_graph c']> (ccs w)) (cc_data c')).
Proof.
  intros Hi [Hs Hd]. split; [|done]. simpl in *.
  rewrite list_fmap_insert, Hs. apply list_insert_id.
  by rewrite list_lookup_fmap, Hi.
Qed.

Lemma SetPosteriorVisitor_same_component v x :
  preserves same_component (SetPosteriorVisitor v x).
Proof.
  intros c r c' t H.
  split; [by apply (SetPosteriorVisitor_frame _ _ _ _ _ _ H)|].
  revert H. rewrite SetPosteriorVisitor_cases.
  destruct (cc_graph c !! v) as [u|]; [|by intros [= <- <- <-]].
  destruct (vprop u) as [p|y|y|p].
  - destruct (hits (cc_data c) !! p) as [h|] eqn:Hh; [|by intros [= <- <- <-]].
    intros [= <- <- <-]. repeat split; simpl; try done.
    + rewrite list_fmap_insert. apply list_insert_id. by rewrite list_lookup_fmap, Hh.
    + rewrite list_fmap_insert. apply list_insert_id. by rewrite list_lookup_fmap, Hh.
  - by intros [= <- <- <-].
  - by intros [= <- <- <-].
  - destruct (peptide_hits (cc_data c) !! p) as [h|] eqn:Hh; [|by intros [= <- <- <-]].
    intros [= <- <- <-]. repeat split; simpl; try done.
    rewrite list_fmap_insert. apply list_insert_id. by rewrite list_lookup_fmap, Hh.
Qed.

Lemma push_back_group_same_component pg : preserves same_component (push_back_group pg).
Proof.
  intros c r c' t [= <- <- <-]. split; [done|]. simpl.
  repeat split; try done. by apply prefix_app_r.
Qed.

Lemma same_settings_setters p x :
  same_settings p (set_prot_prior p x) /\ same_settings p (set_pep_emission p x)
  /\ same_settings p (set_pep_spurious_emission p x).
Proof. by repeat split. Qed.

Lemma same_settings_switches p b :
  same_settings p (set_update_PSM_probabilities p b)
  /\ same_settings p (set_annotate_group_probabilities p b).
Proof. by repeat split. Qed.

(** What holds of the whole orchestrator, from the prepared object on. *)
Lemma inferPosteriorProbabilities_same E a r a' t :
  inferPosteriorProbabilities E a = (r, a', t) ->
  lifted same_settings same_world (prepared E a) a'.
Proof.
  apply (inferPosteriorProbabilities_lifted same_component same_world same_settings
           same_component_lift SetPosteriorVisitor_same_component
           push_back_group_same_component same_settings_setters same_settings_switches).
Qed.

(** ** The orchestrator and the records *)

Lemma fmap_save_prior {B : Type} (f : ProteinHit -> B) (hs : list ProteinHit) :
  (forall h, f (save_prior h) = f h) -> f <$> map save_prior hs = f <$> hs.
Proof.
  intros Hf. induction hs as [|h hs IH]; [done|].
  cbn [map]. by rewrite !fmap_cons, Hf, IH.
Qed.

Lemma prepared_data E a :
  let d := data (world a) in
  let d' := data (world (prepared E a)) in
  score_type d' = "Posterior Probability" /\ search_engine d' = "Epifany"
  /\ higher_score_better d' = true
  /\ accession <$> hits d' = accession <$> hits d
  /\ prot_score <$> hits d' = prot_score <$> hits d
  /\ prior_meta <$> hits d'
     = (if user_defined_priors (param_ a)
        then (fun h => Some (prot_score h)) <$> hits d else prior_meta <$> hits d)
  /\ peptide_hits d' = peptide_hits d
  /\ indistinguishable_proteins d' = indistinguishable_proteins d.
Proof.
  unfold prepared. destruct (user_defined_priors (param_ a)); simpl; [|done].
  repeat split; try by apply fmap_save_prior.
  induction (hits (data (world a))) as [|h hs IH]; [done|].
  cbn [map]. by rewrite !fmap_cons, IH.
Qed.

Lemma pairing {A B C : Type} (x : A * B * C) : x = (fst (fst x), snd (fst x), snd x).
Proof. by destruct x as [[? ?] ?]. Qed.

(** X3. However the orchestrator ends, the records keep their identity: the
    score type is "Posterior Probability", the search engine "Epifany" and
    higher scores are better; there are the same protein hits with the same
    accessions and the same peptide hits with the same evidence, in the same
    order; and every group record that was there before is still there, in
    front of the new ones. *)
Theorem inference_keeps_the_records E a r a' t :
  inferPosteriorProbabilities E a = (r, a', t) ->
  score_type (data (world a')) = "Posterior Probability"
  /\ search_engine (data (world a')) = "Epifany"
  /\ higher_score_better (data (world a')) = true
  /\ accession <$> hits (data (world a')) = accession <$> hits (data (world a))
  /\ peptide_evidences <$> peptide_hits (data (world a'))
     = peptide_evidences <$> peptide_hits (data (world a))
  /\ indistinguishable_proteins (data (world a))
       `prefix_of` indistinguishable_proteins (data (world a')).
Proof.
  intros H.
  destruct (inferPosteriorProbabilities_same _ _ _ _ _ H)
    as (_ & _ & B1 & B2 & B3 & B4 & _ & B6 & B7).
  destruct (prepared_data E a) as (P1 & P2 & P3 & P4 & _ & _ & P7 & P8).
  cbv zeta in *. rewrite P8 in B7. rewrite P7 in B6.
  repeat split; congruence.
Qed.

Lemma inference_keeps_the_records_witness :
  score_type (data (world (snd (fst ex_run)))) = "Posterior Probability"
  /\ search_engine (data (world (snd (fst ex_run)))) = "Epifany"
  /\ higher_score_better (data (world (snd (fst ex_run)))) = true
  /\ accession <$> hits (data (world (snd (fst ex_run)))) = ["P0"; "P1"]
  /\ peptide_evidences <$> peptide_hits (data (world (snd (fst ex_run)))) = [2%nat]
  /\ [] `prefix_of` indistinguishable_proteins (data (world (snd (fst ex_run)))).
Proof.
  exact (inference_keeps_the_records ex_E ex_algorithm_default
           (fst (fst ex_run)) (snd (fst ex_run)) (snd ex_run) (pairing ex_run)).
Defined.

(** X4. With [user_defined_priors] on, every protein hit ends up with its
    score from before the inference stored as its "Prior"; with it off, the
    stored priors are the ones the caller passed in. In both cases, however
    the orchestrator ends. *)
Theorem priors_are_the_scores_before_inference E a r a' t :
  inferPosteriorProbabilities E a = (r, a', t) ->
  prior_meta <$> hits (data (world a'))
  = if user_defined_priors (param_ a)
    then (fun h => Some (prot_score h)) <$> hits (data (world a))
    else prior_meta <$> hits (data (world a)).
Proof.
  intros H.
  destruct (inferPosteriorProbabilities_same _ _ _ _ _ H) as (_ & _ & _ & _ & _ & _ & B5 & _).
  destruct (prepared_data E a) as (_ & _ & _ & _ & _ & P6 & _).
  cbv zeta in *. by rewrite B5.
Qed.

Lemma priors_are_the_scores_before_inference_witness :
  prior_meta <$> hits (data (world (snd (fst ex_run_priors))))
  = [Some 0.4%float; Some 0.6%float]
  /\ prior_meta <$> hits (data (world (snd (fst ex_run)))) = [None; None].
Proof.
  exact (conj
    (priors_are_the_scores_before_inference ex_E ex_algorithm_priors
       (fst (fst ex_run_priors)) (snd (fst ex_run_priors)) (snd ex_run_priors)
       (pairing ex_run_priors))
    (priors_are_the_scores_before_inference ex_E ex_algorithm_default
       (fst (fst ex_run)) (snd (fst ex_run)) (snd ex_run) (pairing ex_run))).
Defined.

(** X5. The connected components keep the shape the graph builder gave
    them, however the orchestrator ends: no pass adds or removes a vertex or
    an edge or turns a vertex into one of another kind or pointing to
    another hit. Only the values of the group vertices can differ. *)
Theorem components_keep_their_shape E a r a' t :
  inferPosteriorProbabilities E a = (r, a', t) ->
  shape <$> ccs (world a')
  = shape <$> buildGraph E (top_PSMs (param_ a)) (data (world (prepared E a))).
Proof.
  intros H.
  destruct (inferPosteriorProbabilities_same _ _ _ _ _ H) as (_ & B & _).
  rewrite B. unfold prepared. by destruct (user_defined_priors (param_ a)).
Qed.

Lemma components_keep_their_shape_witness :
  shape <$> ccs (world (snd (fst ex_run))) = [shape ex_cc].
Proof.
  exact (components_keep_their_shape ex_E ex_algorithm_default
           (fst (fst ex_run)) (snd (fst ex_run)) (snd ex_run) (pairing ex_run)).
Defined.

(** ** The orchestrator and the parameters *)

(** X6. However the orchestrator ends, also by an exception, the only
    settings of the algorithm object that can differ afterwards are the
    three model parameters and the two side-effect switches. *)
Theorem other_settings_are_never_changed E a r a' t :
  inferPosteriorProbabilities E a = (r, a', t) -> same_settings (param_ a) (param_ a').
Proof. intros H. by destruct (inferPosteriorProbabilities_same _ _ _ _ _ H) as [Hp _]. Qed.

Lemma other_settings_are_never_changed_witness :
  same_settings ex_param (param_ (snd (fst ex_run))).
Proof.
  exact (other_settings_are_never_changed ex_E ex_algorithm_default
           (fst (fst ex_run)) (snd (fst ex_run)) (snd ex_run) (pairing ex_run)).
Defined.

Lemma on_world_param {A : Type} (m : M World A) a r a' t :
  on_world m a = (r, a', t) -> param_ a' = param_ a.
Proof.
  unfold on_world. destruct (m (world a)) as [[r1 w1] t1]. by intros [= <- <- <-].
Qed.

Lemma final_pass_normal E gs best u g a a' t :
  final_pass E gs best u g a = (Normal tt, a', t) ->
  exists bAlpha bBeta bGamma,
    grid_alpha gs !! fst (fst best) = Some bAlpha
    /\ grid_beta gs !! snd (fst best) = Some bBeta
    /\ grid_gamma gs !! snd best = Some bGamma
    /\ param_ a' = set_annotate_group_probabilities
                     (set_update_PSM_probabilities
                        (with_model_parameters (param_ a) bAlpha bBeta bGamma) u) g.
Proof.
  destruct (grid_gamma gs !! snd best) as [bGamma|] eqn:Hg.
  2: { unfold final_pass. by rewrite Hg. }
  destruct (grid_beta gs !! snd (fst best)) as [bBeta|] eqn:Hb.
  2: { unfold final_pass. by rewrite Hg, Hb. }
  destruct (grid_alpha gs !! fst (fst best)) as [bAlpha|] eqn:Ha.
  2: { unfold final_pass. by rewrite Hg, Hb, Ha. }
  rewrite (final_pass_run E gs best u g a bAlpha bBeta bGamma) by done. cbv zeta.
  match goal with |- context [applyFunctorOnCCs ?F ?w] =>
    destruct (applyFunctorOnCCs F w) as [[r1 w1] t1] end.
  intros [= -> <- <-]. by exists bAlpha, bBeta, bGamma.
Qed.

Lemma model_parameters_only (p p2 : Param) alpha beta gamma :
  same_settings p p2 ->
  set_annotate_group_probabilities
    (set_update_PSM_probabilities (with_model_parameters p2 alpha beta gamma)
       (update_PSM_probabilities p))
    (annotate_group_probabilities p)
  = with_model_parameters p alpha beta gamma.
Proof.
  destruct p, p2. intros (A1 & A2 & A3 & A4 & A5 & A6 & A7 & A8 & A9). simpl in *.
  unfold with_model_parameters, set_annotate_group_probabilities,
    set_update_PSM_probabilities, set_pep_spurious_emission, set_pep_emission,
    set_prot_prior. simpl. by subst.
Qed.

Lemma search_axis_resolved (x y : double) (d : list double) :
  Forall (fun z => flt 1%float z || flt z 0%float = false) d ->
  y ∈ search_axis x d -> flt 1%float y || flt y 0%float = false.
Proof.
  intros Hd. unfold search_axis.
  destruct (flt 1%float x || flt x 0%float) eqn:Hx.
  - intros Hy. by apply (proj1 (Forall_forall _ _) Hd).
  - intros Hy. apply list_elem_of_singleton in Hy. by subst.
Qed.

Lemma defaults_in_range :
  Forall (fun z => flt 1%float z || flt z 0%float = false) alpha_default
  /\ Forall (fun z => flt 1%float z || flt z 0%float = false) beta_default
  /\ Forall (fun z => flt 1%float z || flt z 0%float = false) gamma_default.
Proof. repeat split; repeat constructor. Qed.

Lemma getNrCombos_resolved p alpha beta gamma :
  alpha ∈ alpha_search p -> beta ∈ beta_search p -> gamma ∈ gamma_search p ->
  make_grid (with_model_parameters p alpha beta gamma) = mkGridSearch [alpha] [beta] [gamma].
Proof.
  destruct defaults_in_range as (Da & Db & Dg).
  intros Ha Hb Hg.
  apply (search_axis_resolved _ _ _ Da) in Ha.
  apply (search_axis_resolved _ _ _ Db) in Hb.
  apply (search_axis_resolved _ _ _ Dg) in Hg.
  unfold make_grid, alpha_search, beta_search, gamma_search, search_axis.
  destruct p. simpl. by rewrite Ha, Hb, Hg.
Qed.

Lemma search_phase_same E gs :
  preserves (lifted same_settings same_world) (search_phase E gs).
Proof.
  apply (search_phase_lifted same_component same_world same_settings
           same_component_lift SetPosteriorVisitor_same_component
           same_settings_setters same_settings_switches).
Qed.

(** On a normal return: where the parameters of the object come from. *)
Lemma inferPosteriorProbabilities_normal E a a' t :
  inferPosteriorProbabilities E a = (Normal tt, a', t) ->
  exists alpha beta gamma,
    alpha ∈ alpha_search (param_ a) /\ beta ∈ beta_search (param_ a)
    /\ gamma ∈ gamma_search (param_ a)
    /\ param_ a' = with_model_parameters (param_ a) alpha beta gamma.
Proof.
  rewrite inferPosteriorProbabilities_unfold.
  rewrite (bind_normal _ _ _ _ _ _ (prepare_run E a)).
  destruct (bind _ _ (prepared E a)) as [[r0 a0] t0] eqn:H. intros [= -> <- <-].
  destruct (bind_run _ _ _ _ _ _ H) as [(best & a2 & t1 & t2 & H1 & H2 & ->)|[(e & _ & ?)|[_ ?]]];
    [|done..].
  destruct (bind_run _ _ _ _ _ _ H2) as [([] & a3 & t3 & t4 & H3 & H4 & ->)|[(e & _ & ?)|[_ ?]]];
    [|done..].
  apply final_pass_normal in H3 as (alpha & beta & gamma & Ha & Hb & Hg & Hp).
  apply on_world_param in H4.
  destruct (search_phase_same _ _ _ _ _ _ H1) as [Hs _].
  rewrite param_prepared in Hs.
  exists alpha, beta, gamma.
  split; [by eapply list_elem_of_lookup_2|].
  split; [by eapply list_elem_of_lookup_2|].
  split; [by eapply list_elem_of_lookup_2|].
  rewrite H4, Hp. by apply model_parameters_only.
Qed.

(** X7. After a normal return the object holds the caller's settings and
    switches again, and for each model parameter one candidate of its axis:
    the configured value, or one of the defaults if that was above 1 or
    below 0.
    Its grid therefore has a single combination, and a second call on the
    object skips the grid search. *)
Theorem parameters_are_resolved E a a' t :
  inferPosteriorProbabilities E a = (Normal tt, a', t) ->
  (exists alpha beta gamma,
     alpha ∈ alpha_search (param_ a) /\ beta ∈ beta_search (param_ a)
     /\ gamma ∈ gamma_search (param_ a)
     /\ param_ a' = with_model_parameters (param_ a) alpha beta gamma)
  /\ getNrCombos (make_grid (param_ a')) = 1%nat
  /\ forall a1, search_phase E (make_grid (param_ a')) a1
       = (Normal (0, 0, 0)%nat, mkAlgorithm (switches_off (param_ a1)) (world a1),
          [EvCout skip_message]).
Proof.
  intros H.
  destruct (inferPosteriorProbabilities_normal _ _ _ _ H)
    as (alpha & beta & gamma & Ha & Hb & Hg & Hp).
  split; [by exists alpha, beta, gamma|].
  assert (H1 : getNrCombos (make_grid (param_ a')) = 1%nat).
  { rewrite Hp, getNrCombos_resolved by done. reflexivity. }
  split; [done|]. intros a1. by apply search_phase_single.
Qed.

Lemma parameters_are_resolved_witness :
  fst (fst ex_run) = Normal tt
  /\ getNrCombos (make_grid ex_param) = 5%nat
  /\ getNrCombos (make_grid (param_ (snd (fst ex_run)))) = 1%nat.
Proof.
  split; [reflexivity|]. split; [reflexivity|].
  exact (proj1 (proj2 (parameters_are_resolved ex_E ex_algorithm_default
                         (snd (fst ex_run)) (snd ex_run) (pairing ex_run)))).
Defined.

(** ** The events of a pass *)

Section Emits.
Context {S : Type} (P : event -> Prop).

Lemma emits_ret {A : Type} (a : A) : emits P (@ret S A a).
Proof. by intros s r s' t [= <- <- <-]. Qed.

Lemma emits_throw {A : Type} (e : exn) : emits P (@throw S A e).
Proof. by intros s r s' t [= <- <- <-]. Qed.

Lemma emits_undefined {A : Type} : emits P (@undefined S A).
Proof. by intros s r s' t [= <- <- <-]. Qed.

Lemma emits_get : emits P (@get S).
Proof. by intros s r s' t [= <- <- <-]. Qed.

Lemma emits_modify (f : S -> S) : emits P (modify f).
Proof. by intros s r s' t [= <- <- <-]. Qed.

Lemma emits_emit (e : event) : P e -> emits P (@emit S e).
Proof. intros He s r s' t [= <- <- <-]. by constructor. Qed.

Lemma emits_deref {A : Type} (o : option A) : emits P (@deref S A o).
Proof. destruct o; [apply emits_ret | apply emits_undefined]. Qed.

Lemma emits_bind {A B : Type} (m : M S A) (k : A -> M S B) :
  emits P m -> (forall a, emits P (k a)) -> emits P (bind m k).
Proof.
  intros Hm Hk s r s' t H.
  destruct (bind_run _ _ _ _ _ _ H) as [(a & s1 & t1 & t2 & H1 & H2 & ->)|[(e & H1 & _)|[H1 _]]].
  - apply Forall_app. split; [by eapply Hm | by eapply Hk].
  - by eapply Hm.
  - by eapply Hm.
Qed.

Lemma emits_when (b : bool) (m : M S unit) : emits P m -> emits P (when b m).
Proof. destruct b; [done | intros _; apply emits_ret]. Qed.

Lemma emits_for_each {A : Type} (l : list A) (body : A -> M S unit) :
  (forall x, emits P (body x)) -> emits P (for_each l body).
Proof.
  intros Hb. induction l as [|x l IH]; simpl.
  - apply emits_ret.
  - apply emits_bind; [apply Hb | done].
Qed.

End Emits.

Lemma GraphInferenceFunctor_emits E param :
  emits functor_event (GraphInferenceFunctor E param).
Proof.
  intros c r c' t.
  destruct (decide (2 <= length (cc_graph c))%nat) as [Hlen|Hlen].
  2: { rewrite short_component_GraphInference by done.
       intros [= <- <- <-]. by repeat constructor. }
  rewrite GraphInferenceFunctor_run by done.
  destruct (GraphInference_build E param c) as [[[[]|e|] l] t0].
  - destruct (to_graph_fault E (bigb l)) as [e|].
    { destruct (is_runtime_error e); intros [= <- <- <-]; by repeat constructor. }
    destruct (inference_fault E (inference_input param l) (posteriorVars l)) as [e|].
    { destruct (is_runtime_error e); intros [= <- <- <-]; by repeat constructor. }
    destruct (for_each (posterior_factors E param l) GraphInference_write c)
      as [[r1 c1] t1] eqn:Hw.
    destruct (GraphInference_write_loop_frame _ _ _ _ _ Hw) as (-> & _).
    intros [= <- <- <-]. by repeat constructor.
  - destruct (is_runtime_error e); [|intros [= <- <- <-]; by repeat constructor].
    destruct (to_graph_fault E (bigb l)); intros [= <- <- <-]; by repeat constructor.
  - intros [= <- <- <-]. by repeat constructor.
Qed.

Lemma run_on_cc_emits P F i : emits P F -> emits P (run_on_cc F i).
Proof.
  intros HF w r w' t. unfold run_on_cc.
  destruct (ccs w !! i) as [g0|]; [|by intros [= <- <- <-]].
  destruct (2 <=? length g0)%nat; [|by intros [= <- <- <-]].
  destruct (F (mkCCState g0 (data w))) as [[r1 c1] t1] eqn:HFc.
  intros [= <- <- <-]. by eapply HF.
Qed.

Lemma applyFunctorOnCCs_emits P F : emits P F -> emits P (applyFunctorOnCCs F).
Proof.
  intros HF. unfold applyFunctorOnCCs.
  apply emits_bind; [apply emits_get|].
  intros w. apply emits_for_each. intros i. by apply run_on_cc_emits.
Qed.

Lemma on_world_emits {A : Type} P (m : M World A) : emits P m -> emits P (on_world m).
Proof.
  intros Hm a r a' t. unfold on_world.
  destruct (m (world a)) as [[r1 w1] t1] eqn:Hrun. intros [= <- <- <-]. by eapply Hm.
Qed.

Lemma evaluations_app t1 t2 : evaluations (t1 ++ t2) = (evaluations t1 + evaluations t2)%nat.
Proof. unfold evaluations. by rewrite List.filter_app, length_app. Qed.

Lemma functor_events_no_evaluation t :
  Forall functor_event t -> evaluations t = 0%nat /\ existsb is_best t = false.
Proof.
  induction 1 as [|e t He _ [IH1 IH2]]; [done|].
  destruct e; try done; simpl; by rewrite ?IH2.
Qed.

(** One call of the evaluator: it is entered once, then the functor runs
    over the components. *)
Lemma GridSearchEvaluator_trace E alpha beta gamma a r a' t :
  GridSearchEvaluator E alpha beta gamma a = (r, a', t) ->
  exists t', t = EvEvaluate alpha beta gamma :: t' /\ Forall functor_event t'.
Proof.
  unfold GridSearchEvaluator. rewrite bind_unfold.
  change (emit (EvEvaluate alpha beta gamma) a)
    with (Normal tt, a, [EvEvaluate alpha beta gamma]).
  cbv iota beta.
  match goal with |- context [bind ?m ?k a] =>
    destruct (bind m k a) as [[r1 a1] t1] eqn:H end.
  intros [= <- <- <-]. exists t1. split; [done|].
  revert H.
  do 3 (apply emits_bind; [apply emits_modify|]; intros _).
  apply emits_bind; [apply emits_get|]. intros a0.
  apply emits_bind.
  { apply on_world_emits, applyFunctorOnCCs_emits, GraphInferenceFunctor_emits. }
  intros _. apply emits_bind; [apply emits_get|]. intros a2. apply emits_ret.
Qed.

(** The loop of the controller: one evaluation for each tuple it gets to. *)
Lemma gridSearch_trace E todo :
  forall bestValue bestIndices a r a' t,
    gridSearch (GridSearchEvaluator E) todo bestValue bestIndices a = (r, a', t) ->
    existsb is_best t = false
    /\ (evaluations t <= length todo)%nat
    /\ (forall x, r = Normal x -> evaluations t = length todo).
Proof.
  induction todo as [|[idx [[al be] ga]] todo IH]; intros bestValue bestIndices a r a' t; simpl.
  - by intros [= <- <- <-].
  - intros H.
    destruct (bind_run _ _ _ _ _ _ H) as [(v & a1 & t1 & t2 & H1 & H2 & ->)|[(e & H1 & ->)|[H1 ->]]].
    + apply GridSearchEvaluator_trace in H1 as (t' & -> & Hf).
      apply functor_events_no_evaluation in Hf as [Hf1 Hf2].
      assert (H3 : existsb is_best t2 = false
                   /\ (evaluations t2 <= length todo)%nat
                   /\ (forall x, r = Normal x -> evaluations t2 = length todo)).
      { destruct (flt bestValue v); by eapply IH. }
      destruct H3 as (B1 & B2 & B3).
      rewrite existsb_app, evaluations_app. cbn [existsb is_best orb].
      change (evaluations (EvEvaluate al be ga :: t')) with (S (evaluations t')).
      rewrite Hf1, Hf2, B1. split; [done|]. split; [lia|].
      intros x Hx. by rewrite (B3 x Hx).
    + apply GridSearchEvaluator_trace in H1 as (t' & -> & Hf).
      apply functor_events_no_evaluation in Hf as [Hf1 Hf2].
      change (evaluations (EvEvaluate al be ga :: t')) with (S (evaluations t')).
      cbn [existsb is_best orb]. rewrite Hf1, Hf2. split; [done|]. split; [lia|done].
    + apply GridSearchEvaluator_trace in H1 as (t' & -> & Hf).
      apply functor_events_no_evaluation in Hf as [Hf1 Hf2].
      change (evaluations (EvEvaluate al be ga :: t')) with (S (evaluations t')).
      cbn [existsb is_best orb]. rewrite Hf1, Hf2. split; [done|]. split; [lia|done].
Qed.

Lemma length_flat_map_const {A B : Type} (f : A -> list B) (l : list A) (k : nat) :
  (forall x, length (f x) = k) -> length (flat_map f l) = (length l * k)%nat.
Proof.
  intros Hf. induction l as [|x l IH]; [done|].
  simpl. by rewrite length_app, Hf, IH.
Qed.

Lemma length_tuples gs : length (tuples gs) = getNrCombos gs.
Proof.
  unfold tuples, getNrCombos, indexed.
  rewrite (length_flat_map_const _ _ (length (grid_beta gs) * length (grid_gamma gs))).
  - rewrite length_imap. lia.
  - intros x. rewrite (length_flat_map_const _ _ (length (grid_gamma gs))).
    + by rewrite length_imap.
    + intros y. by rewrite length_map, length_imap.
Qed.

Lemma search_phase_trace E gs a r a' t :
  search_phase E gs a = (r, a', t) ->
  existsb is_best t = false
  /\ (if (1 <? getNrCombos gs)%nat
      then exists t', t = EvCoutTesting (getNrCombos gs) :: t'
                      /\ (evaluations t <= getNrCombos gs)%nat
                      /\ (forall x, r = Normal x -> evaluations t = getNrCombos gs)
      else t = [EvCout skip_message]).
Proof.
  unfold search_phase, modify_param. rewrite !bind_modify.
  destruct (1 <? getNrCombos gs)%nat.
  - rewrite bind_unfold.
    match goal with |- context [emit ?e ?s] =>
      change (emit e s) with (Normal tt, s, [e]) end.
    cbv iota beta. unfold evaluate.
    match goal with |- context [gridSearch ?ev ?todo ?v ?i ?s] =>
      destruct (gridSearch ev todo v i s) as [[r1 a1] t1] eqn:H end.
    intros [= <- <- <-].
    apply gridSearch_trace in H as (B1 & B2 & B3). rewrite length_tuples in *.
    split; [done|]. exists t1. split; [done|]. split; [done|]. apply B3.
  - cbv [bind emit ret]. by intros [= <- <- <-].
Qed.

(** X8. The axes for the spurious emission and for the prior always hold
    one candidate, the axis for the emission five or one. The grid has five
    combinations when [pep_emission] is above 1 or below 0 and one
    otherwise, whatever the two other parameters are. In the first case the
    search announces five combinations and enters the evaluator at most five
    times, exactly five times when it ends normally; in the second it enters
    it never and prints that the search is skipped. *)
Theorem grid_has_one_or_five_combinations E param a r a' t :
  search_phase E (make_grid param) a = (r, a', t) ->
  length (beta_search param) = 1%nat /\ length (gamma_search param) = 1%nat
  /\ if flt 1%float (pep_emission param) || flt (pep_emission param) 0%float
     then getNrCombos (make_grid param) = 5%nat
          /\ (exists t', t = EvCoutTesting 5 :: t')
          /\ (evaluations t <= 5)%nat
          /\ (forall x, r = Normal x -> evaluations t = 5%nat)
     else getNrCombos (make_grid param) = 1%nat
          /\ t = [EvCout skip_message].
Proof.
  intros H. apply search_phase_trace in H as [_ H].
  assert (Hb : length (beta_search param) = 1%nat).
  { unfold beta_search, search_axis. by destruct (_ || _). }
  assert (Hg : length (gamma_search param) = 1%nat).
  { unfold gamma_search, search_axis. by destruct (_ || _). }
  split; [done|]. split; [done|].
  assert (Hn : getNrCombos (make_grid param)
               = if flt 1%float (pep_emission param) || flt (pep_emission param) 0%float
                 then 5%nat else 1%nat).
  { unfold getNrCombos, make_grid. cbn [grid_alpha grid_beta grid_gamma].
    rewrite Hb, Hg. unfold alpha_search, search_axis. by destruct (_ || _). }
  rewrite Hn in H.
  destruct (flt 1%float (pep_emission param) || flt (pep_emission param) 0%float).
  - destruct H as (t' & -> & H1 & H2). split; [done|].
    split; [by exists t'|]. by split.
  - by split.
Qed.

Lemma grid_has_one_or_five_combinations_witness :
  evaluations (snd ex_search_run) = 5%nat.
Proof.
  exact (proj2 (proj2 (proj2 (proj2 (proj2
           (grid_has_one_or_five_combinations ex_E ex_param ex_algorithm_search
              (fst (fst ex_search_run)) (snd (fst ex_search_run)) (snd ex_search_run)
              (pairing ex_search_run))))))
           (0, 0, 0)%nat eq_refl).
Defined.

Lemma final_pass_cases E gs best u g a r a' t :
  final_pass E gs best u g a = (r, a', t) ->
  r = Undefined
  \/ exists bAlpha bBeta bGamma t',
       t = EvCoutBest bAlpha bBeta bGamma :: EvCout running_message :: t'
       /\ param_ a' = set_annotate_group_probabilities
                        (set_update_PSM_probabilities
                           (with_model_parameters (param_ a) bAlpha bBeta bGamma) u) g.
Proof.
  destruct (grid_gamma gs !! snd best) as [bGamma|] eqn:Hg.
  2: { unfold final_pass. rewrite Hg. intros [= <- <- <-]. by left. }
  destruct (grid_beta gs !! snd (fst best)) as [bBeta|] eqn:Hb.
  2: { unfold final_pass. rewrite Hg, Hb. intros [= <- <- <-]. by left. }
  destruct (grid_alpha gs !! fst (fst best)) as [bAlpha|] eqn:Ha.
  2: { unfold final_pass. rewrite Hg, Hb, Ha. intros [= <- <- <-]. by left. }
  rewrite (final_pass_run E gs best u g a bAlpha bBeta bGamma) by done. cbv zeta.
  match goal with |- context [applyFunctorOnCCs ?F ?w] =>
    destruct (applyFunctorOnCCs F w) as [[r1 w1] t1] end.
  intros [= <- <- <-]. right. by exists bAlpha, bBeta, bGamma, t1.
Qed.

Lemma switches_after_restore (p : Param) alpha beta gamma u g :
  let p' := set_annotate_group_probabilities
              (set_update_PSM_probabilities (with_model_parameters p alpha beta gamma) u) g in
  update_PSM_probabilities p' = u /\ annotate_group_probabilities p' = g.
Proof. done. Qed.

(** X9. When an exception leaves the orchestrator before the best
    parameters were reported, that is from within the grid search, the
    object is left with both side-effect switches off: the caller's values
    are not put back. When it leaves later, from the final pass or from the
    annotation of the groups, the switches have the caller's values. *)
Theorem exception_in_the_search_leaves_the_switches_off E a e a' t :
  inferPosteriorProbabilities E a = (Throws e, a', t) ->
  if existsb is_best t
  then update_PSM_probabilities (param_ a') = update_PSM_probabilities (param_ a)
       /\ annotate_group_probabilities (param_ a') = annotate_group_probabilities (param_ a)
  else update_PSM_probabilities (param_ a') = false
       /\ annotate_group_probabilities (param_ a') = false.
Proof.
  rewrite inferPosteriorProbabilities_unfold.
  rewrite (bind_normal _ _ _ _ _ _ (prepare_run E a)).
  destruct (bind _ _ (prepared E a)) as [[r0 a0] t0] eqn:H. intros [= -> <- <-].
  cbn [app].
  destruct (bind_run _ _ _ _ _ _ H) as [(best & a2 & t1 & t2 & H1 & H2 & ->)|[(e' & H1 & _)|[_ ?]]];
    [| |done].
  - rewrite existsb_app.
    destruct (bind_run _ _ _ _ _ _ H2) as [([] & a3 & t3 & t4 & H3 & H4 & ->)|[(e' & H3 & _)|[_ ?]]];
      [| |done].
    + apply final_pass_cases in H3 as [?|(x & y & z & t' & -> & Hp)]; [done|].
      apply on_world_param in H4. rewrite H4, Hp.
      cbn [app existsb is_best orb]. rewrite orb_true_r. apply switches_after_restore.
    + apply final_pass_cases in H3 as [?|(x & y & z & t' & -> & Hp)]; [done|].
      rewrite Hp. cbn [existsb is_best orb]. rewrite orb_true_r.
      apply switches_after_restore.
  - destruct (search_phase_trace _ _ _ _ _ _ H1) as [-> _].
    destruct (search_phase_quiet _ _ _ _ _ _ H1) as (Hu & Hg & _). by split.
Qed.

Lemma exception_in_the_search_leaves_the_switches_off_witness :
  update_PSM_probabilities (param_ ex_algorithm_default) = true
  /\ annotate_group_probabilities (param_ ex_algorithm_default) = true
  /\ fst (fst ex_run_failing) = Throws OtherException
  /\ update_PSM_probabilities (param_ (snd (fst ex_run_failing))) = false
  /\ annotate_group_probabilities (param_ (snd (fst ex_run_failing))) = false.
Proof.
  split; [reflexivity|]. split; [reflexivity|]. split; [reflexivity|].
  exact (exception_in_the_search_leaves_the_switches_off (ex_E_failing OtherException)
           ex_algorithm_default OtherException (snd (fst ex_run_failing)) (snd ex_run_failing)
           (pairing ex_run_failing)).
Defined.

(** ** Writes stay within the component *)

Lemma erase_vprop_protein u p : vprop (erase u) = ProteinHitPtr p <-> vprop u = ProteinHitPtr p.
Proof. by destruct u as [[] ?]. Qed.

Lemma erase_vprop_peptide u p : vprop (erase u) = PeptideHitPtr p <-> vprop u = PeptideHitPtr p.
Proof. by destruct u as [[] ?]. Qed.

Lemma protein_unreferenced_shape fg fg' p :
  shape fg' = shape fg -> protein_unreferenced fg p -> protein_unreferenced fg' p.
Proof.
  intros Hs Hp v u' Hv Hu'.
  assert (Hl : shape fg !! v = Some (erase u')) by (by rewrite <- Hs, shape_lookup, Hv).
  rewrite shape_lookup in Hl. destruct (fg !! v) as [u|] eqn:Hu; [|done].
  simpl in Hl. injection Hl as Hl. apply (Hp v u Hu).
  apply erase_vprop_protein. rewrite Hl. by apply erase_vprop_protein.
Qed.

Lemma peptide_unreferenced_shape fg fg' p :
  shape fg' = shape fg -> peptide_unreferenced fg p -> peptide_unreferenced fg' p.
Proof.
  intros Hs Hp v u' Hv Hu'.
  assert (Hl : shape fg !! v = Some (erase u')) by (by rewrite <- Hs, shape_lookup, Hv).
  rewrite shape_lookup in Hl. destruct (fg !! v) as [u|] eqn:Hu; [|done].
  simpl in Hl. injection Hl as Hl. apply (Hp v u Hu).
  apply erase_vprop_peptide. rewrite Hl. by apply erase_vprop_peptide.
Qed.

#[global] Instance untouched_outside_refl : Reflexive untouched_outside.
Proof. by intros c. Qed.

#[global] Instance untouched_outside_trans : Transitive untouched_outside.
Proof.
  intros c1 c2 c3 (A1 & A2 & A3 & A4 & A5) (B1 & B2 & B3 & B4 & B5).
  split; [congruence|]. split; [congruence|]. split; [congruence|]. split.
  - intros p Hp. rewrite B4, A4; [done..|]. by eapply protein_unreferenced_shape.
  - intros p Hp. rewrite B5, A5; [done..|]. by eapply peptide_unreferenced_shape.
Qed.

Lemma SetPosteriorVisitor_untouched_outside v x :
  preserves untouched_outside (SetPosteriorVisitor v x).
Proof.
  intros c r c' t H.
  split; [by apply (SetPosteriorVisitor_frame _ _ _ _ _ _ H)|].
  revert H. rewrite SetPosteriorVisitor_cases.
  destruct (cc_graph c !! v) as [u|] eqn:Hv; [|by intros [= <- <- <-]].
  destruct (vprop u) as [p|y|y|p] eqn:Hu.
  - destruct (hits (cc_data c) !! p) as [h|] eqn:Hh; [|by intros [= <- <- <-]].
    intros [= <- <- <-]. simpl. rewrite length_insert. repeat split; try done.
    intros q Hq. apply list_lookup_insert_ne. intros ->. by apply (Hq v u Hv).
  - by intros [= <- <- <-].
  - by intros [= <- <- <-].
  - destruct (peptide_hits (cc_data c) !! p) as [h|] eqn:Hh; [|by intros [= <- <- <-]].
    intros [= <- <- <-]. simpl. rewrite length_insert. repeat split; try done.
    intros q Hq. apply list_lookup_insert_ne. intros ->. by apply (Hq v u Hv).
Qed.

(** X10. A call of [GraphInferenceFunctor] stays within its component:
    however it ends, a protein hit or peptide hit that no vertex of the
    component points to is exactly as before (score, accession, prior and
    evidence), no hit is added or removed, and the graph keeps its shape. *)
Theorem writes_stay_within_the_component E param c r c' t :
  GraphInferenceFunctor E param c = (r, c', t) ->
  (forall p, protein_unreferenced (cc_graph c) p ->
     hits (cc_data c') !! p = hits (cc_data c) !! p)
  /\ (forall p, peptide_unreferenced (cc_graph c) p ->
     peptide_hits (cc_data c') !! p = peptide_hits (cc_data c) !! p)
  /\ length (hits (cc_data c')) = length (hits (cc_data c))
  /\ length (peptide_hits (cc_data c')) = length (peptide_hits (cc_data c))
  /\ shape (cc_graph c') = shape (cc_graph c).
Proof.
  intros H.
  destruct (GraphInferenceFunctor_lifted untouched_outside
              SetPosteriorVisitor_untouched_outside E param _ _ _ _ H)
    as (A1 & A2 & A3 & A4 & A5).
  by repeat split.
Qed.

Lemma ex_cc_third_hit_unreferenced : protein_unreferenced ex_cc 2.
Proof.
  intros [|[|[|[|v]]]] u Hv; simpl in Hv; try discriminate Hv;
    injection Hv as <-; simpl; discriminate.
Defined.

Lemma writes_stay_within_the_component_witness :
  hits (cc_data (snd (fst ex_final_wide))) !! 2%nat = hits ex_data_wide !! 2%nat
  /\ hits (cc_data (snd (fst ex_final_wide))) !! 0%nat <> hits ex_data_wide !! 0%nat.
Proof.
  split.
  - exact (proj1 (writes_stay_within_the_component ex_E ex_param ex_state_wide
                    (fst (fst ex_final_wide)) (snd (fst ex_final_wide)) (snd ex_final_wide)
                    (pairing ex_final_wide))
             2%nat ex_cc_third_hit_unreferenced).
  - intros H.
    apply (f_equal (fun o => match o with
                             | Some h => PrimFloat.ltb (prot_score h) 0.5%float
                             | None => false
                             end)) in H.
    vm_compute in H. discriminate H.
Defined.

(** X11. [ExtendedGraphInferenceFunctor] never reads the two side-effect
    switches: however they are set and however the call ends, it leaves the
    graph of the component, with the values of its group vertices, the
    peptide hits and the group records exactly as they were. Only protein
    scores can change. *)
Theorem extended_functor_writes_protein_scores_only E param c r c' t :
  ExtendedGraphInferenceFunctor E param c = (r, c', t) ->
  cc_graph c' = cc_graph c
  /\ peptide_hits (cc_data c') = peptide_hits (cc_data c)
  /\ indistinguishable_proteins (cc_data c') = indistinguishable_proteins (cc_data c)
  /\ accession <$> hits (cc_data c') = accession <$> hits (cc_data c).
Proof.
  intros H.
  assert (Hacc : accession <$> hits (cc_data c') = accession <$> hits (cc_data c)).
  { by destruct (ExtendedGraphInferenceFunctor_lifted same_component
                   SetPosteriorVisitor_same_component E param _ _ _ _ H)
      as (_ & _ & _ & _ & ? & _). }
  revert H.
  destruct (decide (2 <= length (cc_graph c))%nat) as [Hlen|Hlen].
  2: { rewrite short_component_ExtendedGraphInference by done. by intros [= <- <- <-]. }
  rewrite ExtendedGraphInferenceFunctor_run by done.
  destruct (ExtendedGraphInference_build E param c) as [[[[]|e|] l] t0] eqn:Hb.
  - destruct (to_graph_fault E (bigb l)) as [e|].
    { destruct (is_runtime_error e); by intros [= <- <- <-]. }
    destruct (inference_fault E (inference_input param l) (posteriorVars l)) as [e|].
    { destruct (is_runtime_error e); by intros [= <- <- <-]. }
    destruct (for_each (posterior_factors E param l) ExtendedGraphInference_write c)
      as [[r1 c1] t1] eqn:Hw.
    intros [= <- <- <-].
    destruct (ExtendedGraphInference_build_tracks _ _ _ _ _ _ Hb) as (_ & Hpv).
    specialize (Hpv eq_refl).
    destruct (ExtendedGraphInference_write_loop_frame _ _ _ _ _ Hw)
      as (_ & _ & _ & Hi & Hp & Hg).
    split; [|split; [|done]].
    + apply Hg. eapply posterior_factors_address; [done|].
      intros [] Hreq; simpl in *; congruence.
    + apply Hp. eapply posterior_factors_address; [done|].
      intros [] Hreq; simpl in *; congruence.
  - destruct (is_runtime_error e); [|by intros [= <- <- <-]].
    destruct (to_graph_fault E (bigb l)); by intros [= <- <- <-].
  - by intros [= <- <- <-].
Qed.

Lemma extended_functor_writes_protein_scores_only_witness :
  cc_graph ex_final_extended = ex_cc
  /\ peptide_hits (cc_data ex_final_extended) = peptide_hits ex_data
  /\ indistinguishable_proteins (cc_data ex_final_extended) = []
  /\ accession <$> hits (cc_data ex_final_extended) = ["P0"; "P1"].
Proof.
  exact (extended_functor_writes_protein_scores_only ex_E ex_param ex_state
           (fst (fst (ExtendedGraphInferenceFunctor ex_E ex_param ex_state)))
           ex_final_extended
           (snd (ExtendedGraphInferenceFunctor ex_E ex_param ex_state))
           (pairing (ExtendedGraphInferenceFunctor ex_E ex_param ex_state))).
Defined.

(** ** The switches and the model *)
















(** ** The annotation of the groups, composed *)

Lemma Annotate_driver_run w :
  Forall (adjacency_valid (hits (data w))) (ccs w) ->
  applyFunctorOnCCsST AnnotateIndistGroupsFunctor w
  = (Normal tt, annotated_world w (flat_map (component_groups (hits (data w))) (ccs w)), []).
Proof.
  intros Hvalid. unfold applyFunctorOnCCsST. rewrite bind_get.
  by rewrite Annotate_driver_loop.
Qed.

(** X13. The annotator never clears or replaces records: run a second time
    over the same components, it appends the same records once more, after
    the ones of the first run. *)
Theorem annotating_twice_appends_twice w :
  Forall (adjacency_valid (hits (data w))) (ccs w) ->
  (applyFunctorOnCCsST AnnotateIndistGroupsFunctor ;;;
   applyFunctorOnCCsST AnnotateIndistGroupsFunctor) w
  = (Normal tt,
     annotated_world w (flat_map (component_groups (hits (data w))) (ccs w)
                        ++ flat_map (component_groups (hits (data w))) (ccs w)), []).
Proof.
  intros Hvalid.
  rewrite (bind_normal _ _ _ _ _ _ (Annotate_driver_run w Hvalid)).
  rewrite Annotate_driver_run by done. simpl.
  by rewrite annotated_world_app.
Qed.

Lemma annotating_twice_appends_twice_witness :
  (applyFunctorOnCCsST AnnotateIndistGroupsFunctor ;;;
   applyFunctorOnCCsST AnnotateIndistGroupsFunctor) ex_world
  = (Normal tt,
     annotated_world ex_world [mkProteinGroup 0%float ["P0"; "P1"];
                               mkProteinGroup 0%float ["P0"; "P1"]], []).
Proof.
  apply (annotating_twice_appends_twice ex_world).
  apply List.Forall_cons; [exact ex_cc_adjacency_valid | apply List.Forall_nil].
Defined.

#[global] Instance inference_only_refl : Reflexive inference_only.
Proof. by intros c. Qed.

#[global] Instance inference_only_trans : Transitive inference_only.
Proof. intros c1 c2 c3 (A1 & A2 & A3) (B1 & B2 & B3). repeat split; congruence. Qed.

#[global] Instance inference_only_world_refl : Reflexive inference_only_world.
Proof. by intros w. Qed.

#[global] Instance inference_only_world_trans : Transitive inference_only_world.
Proof. intros w1 w2 w3 (A1 & A2 & A3) (B1 & B2 & B3). repeat split; congruence. Qed.

Lemma inference_only_lift w i g c' :
  ccs w !! i = Some g -> inference_only (mkCCState g (data w)) c' ->
  inference_only_world w (mkWorld (<[i := cc_graph c']> (ccs w)) (cc_data c')).
Proof.
  intros Hi (Hs & Hl & Hg). split; [|done]. simpl in *.
  rewrite list_fmap_insert, Hs. apply list_insert_id.
  by rewrite list_lookup_fmap, Hi.
Qed.

Lemma SetPosteriorVisitor_inference_only v x :
  preserves inference_only (SetPosteriorVisitor v x).
Proof.
  intros c r c' t H.
  destruct (SetPosteriorVisitor_frame _ _ _ _ _ _ H) as (_ & _ & Hs & Hi & _).
  split; [done|]. split; [|done].
  by destruct (SetPosteriorVisitor_untouched_outside v x _ _ _ _ H) as (_ & ? & _).
Qed.

Lemma search_phase_inference_only E gs :
  preserves (lifted same_settings inference_only_world) (search_phase E gs).
Proof.
  apply (search_phase_lifted inference_only inference_only_world same_settings
           inference_only_lift SetPosteriorVisitor_inference_only
           same_settings_setters same_settings_switches).
Qed.

Lemma final_pass_inference_only E gs best u g :
  preserves (lifted same_settings inference_only_world) (final_pass E gs best u g).
Proof.
  apply (final_pass_lifted inference_only inference_only_world same_settings
           inference_only_lift SetPosteriorVisitor_inference_only
           same_settings_setters same_settings_switches).
Qed.

Lemma erase_adjacent u : adjacent (erase u) = adjacent u.
Proof. by destruct u as [[] ?]. Qed.

Lemma shape_lookup_inv fg fg' i u' :
  shape fg' = shape fg -> fg' !! i = Some u' ->
  exists u, fg !! i = Some u /\ erase u = erase u'.
Proof.
  intros Hs Hi.
  assert (Hl : shape fg !! i = Some (erase u')) by (by rewrite <- Hs, shape_lookup, Hi).
  rewrite shape_lookup in Hl. destruct (fg !! i) as [u|]; [|done].
  exists u. split; [done|]. simpl in Hl. by injection Hl.
Qed.

Lemma neighbour_valid_shape fg fg' hs hs' nb :
  shape fg' = shape fg -> length hs' = length hs ->
  neighbour_valid fg hs nb -> neighbour_valid fg' hs' nb.
Proof.
  intros Hs Hl. unfold neighbour_valid.
  destruct (fg' !! nb) as [v'|] eqn:Hv'.
  - destruct (shape_lookup_inv _ _ _ _ Hs Hv') as (v & -> & He).
    destruct (vprop v') as [p| | |] eqn:Hp; [|done..].
    assert (Hpv : vprop v = ProteinHitPtr p).
    { apply erase_vprop_protein. rewrite He. by apply erase_vprop_protein. }
    rewrite Hpv. intros Hsome. apply lookup_lt_is_Some. rewrite Hl.
    by apply lookup_lt_is_Some.
  - assert (Hn : shape fg !! nb = None) by (by rewrite <- Hs, shape_lookup, Hv').
    rewrite shape_lookup in Hn. by destruct (fg !! nb).
Qed.

Lemma adjacency_valid_shape fg fg' hs hs' :
  shape fg' = shape fg -> length hs' = length hs ->
  adjacency_valid hs fg -> adjacency_valid hs' fg'.
Proof.
  intros Hs Hl Hvalid. unfold adjacency_valid in *.
  apply Forall_lookup. intros i u' Hi.
  destruct (shape_lookup_inv _ _ _ _ Hs Hi) as (u & Hu & He).
  pose proof (proj1 (Forall_lookup _ _) Hvalid i u Hu) as Hadj.
  replace (adjacent u') with (adjacent u)
    by (by rewrite <- (erase_adjacent u), He, erase_adjacent).
  eapply Forall_impl; [exact Hadj|].
  intros nb. by apply neighbour_valid_shape.
Qed.

Lemma adjacency_valid_world w w' :
  inference_only_world w w' ->
  Forall (adjacency_valid (hits (data w))) (ccs w) ->
  Forall (adjacency_valid (hits (data w'))) (ccs w').
Proof.
  intros (Hs & Hl & _) Hvalid. apply Forall_lookup. intros i g' Hi.
  assert (Hsi : (shape <$> ccs w) !! i = Some (shape g'))
    by (by rewrite <- Hs, list_lookup_fmap, Hi).
  rewrite list_lookup_fmap in Hsi.
  destruct (ccs w !! i) as [g|] eqn:Hg; [|done]. simpl in Hsi. injection Hsi as Hsi.
  apply (adjacency_valid_shape g g' (hits (data w)) (hits (data w'))); [done..|].
  by apply (proj1 (Forall_lookup _ _) Hvalid i g).
Qed.

(** X14. When the orchestrator returns normally on a graph whose adjacency
    lists are valid, the group records afterwards are the ones from before
    followed by one record for each protein-group vertex of the graph as the
    final pass left it, component by component: so the probability of a new
    record is the value the final pass left in its vertex. *)
Theorem groups_are_annotated_from_the_final_graph E a a' t :
  Forall (adjacency_valid (hits (data (world (prepared E a))))) (ccs (world (prepared E a))) ->
  inferPosteriorProbabilities E a = (Normal tt, a', t) ->
  indistinguishable_proteins (data (world a'))
  = indistinguishable_proteins (data (world a))
    ++ flat_map (component_groups (hits (data (world a')))) (ccs (world a')).
Proof.
  intros Hvalid.
  rewrite inferPosteriorProbabilities_unfold.
  rewrite (bind_normal _ _ _ _ _ _ (prepare_run E a)).
  destruct (bind _ _ (prepared E a)) as [[r0 a0] t0] eqn:H. intros [= -> <- <-].
  destruct (bind_run _ _ _ _ _ _ H) as [(best & a2 & t1 & t2 & H1 & H2 & ->)|[(e & _ & ?)|[_ ?]]];
    [|done..].
  destruct (bind_run _ _ _ _ _ _ H2) as [([] & a3 & t3 & t4 & H3 & H4 & ->)|[(e & _ & ?)|[_ ?]]];
    [|done..].
  apply search_phase_inference_only in H1 as [_ Hw1].
  apply final_pass_inference_only in H3 as [_ Hw3].
  assert (Hw : inference_only_world (world (prepared E a)) (world a3))
    by (by etransitivity).
  pose proof (adjacency_valid_world _ _ Hw Hvalid) as Hvalid3.
  unfold on_world in H4. rewrite (Annotate_driver_run _ Hvalid3) in H4.
  injection H4 as <- _. simpl.
  destruct Hw as (_ & _ & Hg). rewrite Hg.
  destruct (prepared_data E a) as (_ & _ & _ & _ & _ & _ & _ & P8).
  cbv zeta in P8. by rewrite P8.
Qed.

Lemma groups_are_annotated_from_the_final_graph_witness :
  indistinguishable_proteins (data (world (snd (fst ex_run))))
  = [mkProteinGroup 1%float ["P0"; "P1"]].
Proof.
  exact (groups_are_annotated_from_the_final_graph ex_E ex_algorithm_default
           (snd (fst ex_run)) (snd ex_run)
           (List.Forall_cons _ ex_cc [] ex_cc_adjacency_valid (List.Forall_nil _))
           (pairing ex_run)).
Defined.

(** ** The axes, outside the documented cases *)

Lemma SFcompare_total a b :
  a <> S754_nan -> b <> S754_nan -> is_Some (SFcompare a b).
Proof.
  intros Ha Hb.
  destruct a as [sa|sa| |sa ma ea], b as [sb|sb| |sb mb eb]; simpl; try done;
    repeat case_match; eauto.
Qed.

Lemma SFcompare_nan_r a : SFcompare a S754_nan = None.
Proof. by destruct a as [[]|[]| |[] ? ?]. Qed.

Lemma flt_nan_l x y : Prim2SF x = S754_nan -> flt x y = false.
Proof. intros H. unfold flt. rewrite ltb_spec. unfold SFltb. by rewrite H. Qed.

Lemma flt_nan_r x y : Prim2SF y = S754_nan -> flt x y = false.
Proof.
  intros H. unfold flt. rewrite ltb_spec. unfold SFltb. by rewrite H, SFcompare_nan_r.
Qed.

Lemma float_cases (x lo hi : double) :
  Prim2SF lo <> S754_nan -> Prim2SF hi <> S754_nan ->
  flt x lo = true \/ (fle lo x = true /\ fle x hi = true) \/ flt hi x = true
  \/ Prim2SF x = S754_nan.
Proof.
  intros Hlo Hhi.
  assert (Hdec : Prim2SF x = S754_nan \/ Prim2SF x <> S754_nan)
    by (destruct (Prim2SF x); first [by left | by right]).
  destruct Hdec as [Hn|Hn]; [by right; right; right|].
  destruct (SFcompare_total _ _ Hn Hlo) as [c1 H1].
  destruct (SFcompare_total _ _ Hn Hhi) as [c2 H2].
  pose proof (SFcompare_antisym (Prim2SF x) (Prim2SF lo)) as A1.
  pose proof (SFcompare_antisym (Prim2SF x) (Prim2SF hi)) as A2.
  rewrite H1 in A1. rewrite H2 in A2. simpl in A1, A2.
  unfold flt, fle. rewrite !ltb_spec, !leb_spec. unfold SFltb, SFleb.
  rewrite H1, H2, A1, A2.
  destruct c1; [| by left |]; destruct c2; simpl; auto.
Qed.

(** X15. What the axes do outside the two documented cases. A configured
    value above 1 is replaced by the default sweep like a negative one. A
    configured value that is not a number passes both comparisons and
    becomes the only candidate of its axis. Every value is below 0, within
    [0, 1], above 1 or not a number, so the four cases are all there are. *)
Theorem axis_candidates_in_the_remaining_cases (x : double) (default : list double) :
  (flt 1%float x = true -> search_axis x default = default)
  /\ (Prim2SF x = S754_nan -> search_axis x default = [x])
  /\ (flt x 0%float = true \/ (fle 0%float x = true /\ fle x 1%float = true)
      \/ flt 1%float x = true \/ Prim2SF x = S754_nan).
Proof.
  split; [|split].
  - intros H. unfold search_axis. by rewrite H.
  - intros H. unfold search_axis. by rewrite (flt_nan_r _ _ H), (flt_nan_l _ _ H).
  - apply float_cases; vm_compute; discriminate.
Qed.

Lemma axis_candidates_in_the_remaining_cases_witness :
  search_axis 2%float alpha_default = alpha_default
  /\ search_axis nan alpha_default = [nan].
Proof.
  exact (conj
    (proj1 (axis_candidates_in_the_remaining_cases 2%float alpha_default) eq_refl)
    (proj1 (proj2 (axis_candidates_in_the_remaining_cases nan alpha_default)) eq_refl)).
Defined.

(** ** What the search leaves in the parameters *)

Lemma with_model_parameters_again p a b c a' b' c' :
  with_model_parameters (with_model_parameters p a b c) a' b' c'
  = with_model_parameters p a' b' c'.
Proof. by destruct p. Qed.

(** The evaluator writes its three arguments into the parameters of the
    algorithm object, and they stay there however the pass ends. *)
Lemma GridSearchEvaluator_param E alpha beta gamma a r a' t :
  GridSearchEvaluator E alpha beta gamma a = (r, a', t) ->
  param_ a' = with_model_parameters (param_ a) alpha beta gamma.
Proof.
  unfold GridSearchEvaluator, modify_param. rewrite bind_unfold.
  change (emit (EvEvaluate alpha beta gamma) a)
    with (Normal tt, a, [EvEvaluate alpha beta gamma]).
  cbv iota beta. rewrite !bind_modify, bind_get. cbn [param_ world].
  match goal with |- context [bind ?m ?k ?s] =>
    destruct (bind m k s) as [[r1 a1] t1] eqn:H end.
  intros [= <- <- <-].
  destruct (bind_run _ _ _ _ _ _ H) as [(x & a2 & t2 & t3 & H1 & H2 & ->)|[(e & H1 & _)|[H1 _]]].
  - rewrite bind_get in H2. injection H2 as _ <- _. by apply on_world_param in H1.
  - by apply on_world_param in H1.
  - by apply on_world_param in H1.
Qed.

Lemma gridSearch_param E todo :
  forall bestValue bestIndices a best a' t,
    gridSearch (GridSearchEvaluator E) todo bestValue bestIndices a = (Normal best, a', t) ->
    param_ a' = match last todo with
                | Some (_, (alpha, beta, gamma)) =>
                    with_model_parameters (param_ a) alpha beta gamma
                | None => param_ a
                end.
Proof.
  induction todo as [|[idx [[al be] ga]] todo IH]; intros bestValue bestIndices a best a' t.
  - by intros [= _ <- _].
  - cbn [gridSearch]. intros H.
    destruct (bind_run _ _ _ _ _ _ H) as [(v & a1 & t1 & t2 & H1 & H2 & ->)|[(e & _ & ?)|[_ ?]]];
      [|done..].
    apply GridSearchEvaluator_param in H1.
    assert (H3 : param_ a' = match last todo with
                             | Some (_, (alpha, beta, gamma)) =>
                                 with_model_parameters (param_ a1) alpha beta gamma
                             | None => param_ a1
                             end).
    { destruct (flt bestValue v); by eapply IH. }
    rewrite H3, H1. destruct todo as [|y todo]; [done|].
    rewrite last_cons_cons.
    destruct (last (y :: todo)) as [[? [[? ?] ?]]|] eqn:Hl; [|by apply last_None in Hl].
    apply with_model_parameters_again.
Qed.

(** X16. A grid search that ends normally leaves in the parameters the
    combination it tried last, not the best one it found, since every
    evaluation writes its combination into the parameters of the algorithm
    object. The best combination is put there only afterwards. *)
Theorem search_leaves_the_last_combination E gs a best a' t :
  (1 < getNrCombos gs)%nat ->
  search_phase E gs a = (Normal best, a', t) ->
  exists idx alpha beta gamma,
    last (tuples gs) = Some (idx, (alpha, beta, gamma))
    /\ param_ a' = with_model_parameters (switches_off (param_ a)) alpha beta gamma.
Proof.
  intros Hn. apply Nat.ltb_lt in Hn.
  unfold search_phase, modify_param. rewrite !bind_modify, Hn.
  rewrite bind_unfold.
  match goal with |- context [emit ?e ?s] =>
    change (emit e s) with (Normal tt, s, [e]) end.
  cbv iota beta. unfold evaluate.
  match goal with |- context [gridSearch ?ev ?todo ?v ?i ?s] =>
    destruct (gridSearch ev todo v i s) as [[r1 a1] t1] eqn:H end.
  intros [= -> <- <-]. apply gridSearch_param in H. cbn [param_] in H.
  fold (switches_off (param_ a)) in H.
  destruct (last (tuples gs)) as [[idx [[al be] ga]]|] eqn:Hl.
  - by exists idx, al, be, ga.
  - apply last_None in Hl. apply Nat.ltb_lt in Hn.
    rewrite <- length_tuples, Hl in Hn. simpl in Hn. lia.
Qed.

Lemma search_leaves_the_last_combination_witness :
  fst (fst ex_search_run) = Normal (0, 0, 0)%nat
  /\ exists idx alpha beta gamma,
       last (tuples (make_grid ex_param)) = Some (idx, (alpha, beta, gamma))
       /\ param_ (snd (fst ex_search_run))
          = with_model_parameters (switches_off (param_ ex_algorithm_search)) alpha beta gamma.
Proof.
  split; [reflexivity|].
  apply (search_leaves_the_last_combination ex_E (make_grid ex_param) ex_algorithm_search
           (0, 0, 0)%nat (snd (fst ex_search_run)) (snd ex_search_run)).
  - vm_compute. lia.
  - exact (pairing ex_search_run).
Defined.

(** ** The indices the search returns *)

Lemma gridSearch_indices {S : Type} (ev : double -> double -> double -> M S double) todo :
  forall bestValue bestIndices s best s' t,
    gridSearch ev todo bestValue bestIndices s = (Normal best, s', t) ->
    best = bestIndices \/ best ∈ (fst <$> todo).
Proof.
  induction todo as [|[idx [[al be] ga]] todo IH]; intros bestValue bestIndices s best s' t.
  - intros [= <- _ _]. by left.
  - cbn [gridSearch]. intros H.
    destruct (bind_run _ _ _ _ _ _ H) as [(v & s1 & t1 & t2 & H1 & H2 & ->)|[(e & _ & ?)|[_ ?]]];
      [|done..].
    rewrite fmap_cons. cbn [fst].
    destruct (flt bestValue v).
    + destruct (IH _ _ _ _ _ _ H2) as [->|Hin]; right; [left | by right].
    + destruct (IH _ _ _ _ _ _ H2) as [->|Hin]; [by left | right; by right].
Qed.

Lemma indexed_lookup (l : list double) i x : (i, x) ∈ indexed l -> l !! i = Some x.
Proof.
  unfold indexed. intros H.
  apply elem_of_lookup_imap_1 in H as (j & y & [= -> ->] & Hj). done.
Qed.

Lemma tuples_lookup gs idx vals :
  (idx, vals) ∈ tuples gs ->
  grid_alpha gs !! fst (fst idx) = Some (fst (fst vals))
  /\ grid_beta gs !! snd (fst idx) = Some (snd (fst vals))
  /\ grid_gamma gs !! snd idx = Some (snd vals).
Proof.
  unfold tuples. intros H.
  apply list_elem_of_In, in_flat_map in H as ([i x] & Hx & H).
  apply in_flat_map in H as ([j y] & Hy & H).
  apply in_map_iff in H as ([k z] & [= <- <-] & Hz). simpl.
  split; [|split]; apply indexed_lookup; by apply list_elem_of_In.
Qed.

Lemma search_axis_first x d : d <> [] -> is_Some (search_axis x d !! 0%nat).
Proof.
  intros Hd. unfold search_axis. destruct (_ || _); [|by eexists].
  destruct d; [done | by eexists].
Qed.

(** X17. The indices a search returns always designate a candidate on each
    axis: the three reads of the best parameters are within bounds, also
    when the search was skipped or no evaluation beat the start value. The
    final pass therefore always gets to the functor. *)
Theorem best_indices_are_in_range E param a best a' t u g :
  search_phase E (make_grid param) a = (Normal best, a', t) ->
  exists bAlpha bBeta bGamma,
    alpha_search param !! fst (fst best) = Some bAlpha
    /\ beta_search param !! snd (fst best) = Some bBeta
    /\ gamma_search param !! snd best = Some bGamma
    /\ final_pass E (make_grid param) best u g a'
       = let p := set_annotate_group_probabilities
                    (set_update_PSM_probabilities
                       (with_model_parameters (param_ a') bAlpha bBeta bGamma) u) g in
         let '(r, w, t) := applyFunctorOnCCs (GraphInferenceFunctor E p) (world a') in
         (r, mkAlgorithm p w, [EvCoutBest bAlpha bBeta bGamma; EvCout running_message] ++ t).
Proof.
  intros H.
  assert (Hin : best = (0, 0, 0)%nat \/ best ∈ (fst <$> tuples (make_grid param))).
  { revert H. unfold search_phase, modify_param. rewrite !bind_modify.
    destruct (1 <? getNrCombos (make_grid param))%nat.
    - rewrite bind_unfold.
      match goal with |- context [emit ?e ?s] =>
        change (emit e s) with (Normal tt, s, [e]) end.
      cbv iota beta. unfold evaluate.
      match goal with |- context [gridSearch ?ev ?todo ?v ?i ?s] =>
        destruct (gridSearch ev todo v i s) as [[r1 a1] t1] eqn:Hs end.
      intros [= -> _ _]. by apply gridSearch_indices in Hs.
    - cbv [bind emit ret]. intros [= <- _ _]. by left. }
  assert (Hl : exists x y z,
             alpha_search param !! fst (fst best) = Some x
             /\ beta_search param !! snd (fst best) = Some y
             /\ gamma_search param !! snd best = Some z).
  { destruct Hin as [->|Hin].
    - destruct (search_axis_first (pep_emission param) alpha_default) as [x Hx]; [done|].
      destruct (search_axis_first (pep_spurious_emission param) beta_default) as [y Hy]; [done|].
      destruct (search_axis_first (prot_prior param) gamma_default) as [z Hz]; [done|].
      by exists x, y, z.
    - apply list_elem_of_fmap in Hin as ([idx vals] & -> & Hin).
      apply tuples_lookup in Hin as (Hx & Hy & Hz). cbn [fst].
      by exists (fst (fst vals)), (snd (fst vals)), (snd vals). }
  destruct Hl as (x & y & z & Hx & Hy & Hz). exists x, y, z.
  split; [done|]. split; [done|]. split; [done|].
  by apply final_pass_run.
Qed.

Lemma best_indices_are_in_range_witness :
  exists bAlpha bBeta bGamma,
    alpha_search ex_param !! fst (fst (0, 0, 0)%nat) = Some bAlpha
    /\ beta_search ex_param !! snd (fst (0, 0, 0)%nat) = Some bBeta
    /\ gamma_search ex_param !! snd (0, 0, 0)%nat = Some bGamma
    /\ final_pass ex_E (make_grid ex_param) (0, 0, 0)%nat true true (snd (fst ex_search_run))
       = let p := set_annotate_group_probabilities
                    (set_update_PSM_probabilities
                       (with_model_parameters (param_ (snd (fst ex_search_run)))
                          bAlpha bBeta bGamma) true) true in
         let '(r, w, t) := applyFunctorOnCCs (GraphInferenceFunctor ex_E p)
                             (world (snd (fst ex_search_run))) in
         (r, mkAlgorithm p w, [EvCoutBest bAlpha bBeta bGamma; EvCout running_message] ++ t).
Proof.
  exact (best_indices_are_in_range ex_E ex_param ex_algorithm_search (0, 0, 0)%nat
           (snd (fst ex_search_run)) (snd ex_search_run) true true (pairing ex_search_run)).
Defined.

(** ** What is reported and what is used *)

Lemma group_accessions_emits P fg ids adj :
  forall acc, emits P (group_accessions fg ids adj acc).
Proof.
  induction adj as [|nb adj IH]; intros acc; simpl.
  - apply emits_ret.
  - apply emits_bind; [apply emits_deref|]. intros v.
    destruct (which (vprop v) =? 0); [|apply IH].
    apply emits_bind.
    { destruct (vprop v); first [apply emits_ret | apply emits_throw]. }
    intros p. apply emits_bind; [apply emits_deref|]. intros h. apply IH.
Qed.

Lemma AnnotateIndistGroupsFunctor_emits P : emits P AnnotateIndistGroupsFunctor.
Proof.
  unfold AnnotateIndistGroupsFunctor.
  apply emits_bind; [apply emits_get|].
  intros c. apply emits_when, emits_for_each.
  intros ui. unfold AnnotateIndistGroups_vertex.
  apply emits_bind; [apply emits_get|]. intros s.
  apply emits_bind; [apply emits_deref|]. intros v.
  apply emits_when.
  apply emits_bind.
  { destruct (vprop v); first [apply emits_ret | apply emits_throw]. }
  intros prob. apply emits_bind; [apply group_accessions_emits|].
  intros accs. apply emits_modify.
Qed.

Lemma final_pass_trace E gs best u g a a' t :
  final_pass E gs best u g a = (Normal tt, a', t) ->
  exists bAlpha bBeta bGamma t',
    t = EvCoutBest bAlpha bBeta bGamma :: EvCout running_message :: t'
    /\ Forall functor_event t'
    /\ param_ a' = set_annotate_group_probabilities
                     (set_update_PSM_probabilities
                        (with_model_parameters (param_ a) bAlpha bBeta bGamma) u) g.
Proof.
  intros H.
  destruct (final_pass_normal _ _ _ _ _ _ _ _ H) as (x & y & z & Hx & Hy & Hz & Hp).
  rewrite (final_pass_run E gs best u g a x y z) in H by done. cbv zeta in H.
  match type of H with context [applyFunctorOnCCs ?F ?w] =>
    destruct (applyFunctorOnCCs F w) as [[r1 w1] t1] eqn:Hrun end.
  injection H as _ _ <-. exists x, y, z, t1. split; [done|]. split; [|done].
  revert Hrun. apply applyFunctorOnCCs_emits, GraphInferenceFunctor_emits.
Qed.

(** X18. On a normal return the best parameters are reported once, after
    the last evaluation, and they are the ones the object holds afterwards:
    what follows the report are events of the functor only (no evaluator
    entry and no second report), and the three values printed are the model
    parameters of the final pass and of the object at the end. *)
Theorem reported_parameters_are_the_ones_used E a a' t :
  inferPosteriorProbabilities E a = (Normal tt, a', t) ->
  exists t1 t2 bAlpha bBeta bGamma,
    t = t1 ++ EvCoutBest bAlpha bBeta bGamma :: EvCout running_message :: t2
    /\ existsb is_best t1 = false
    /\ Forall functor_event t2
    /\ pep_emission (param_ a') = bAlpha
    /\ pep_spurious_emission (param_ a') = bBeta
    /\ prot_prior (param_ a') = bGamma.
Proof.
  rewrite inferPosteriorProbabilities_unfold.
  rewrite (bind_normal _ _ _ _ _ _ (prepare_run E a)).
  destruct (bind _ _ (prepared E a)) as [[r0 a0] t0] eqn:H. intros [= -> <- <-].
  destruct (bind_run _ _ _ _ _ _ H) as [(best & a2 & t1 & t2 & H1 & H2 & ->)|[(e & _ & ?)|[_ ?]]];
    [|done..].
  destruct (bind_run _ _ _ _ _ _ H2) as [([] & a3 & t3 & t4 & H3 & H4 & ->)|[(e & _ & ?)|[_ ?]]];
    [|done..].
  apply search_phase_trace in H1 as [Hq _].
  apply final_pass_trace in H3 as (x & y & z & t' & -> & Hf & Hp).
  pose proof (on_world_param _ _ _ _ _ H4) as Hp4.
  assert (Hf4 : Forall functor_event t4).
  { revert H4. apply on_world_emits, (applyFunctorOnCCs_emits _ AnnotateIndistGroupsFunctor),
      AnnotateIndistGroupsFunctor_emits. }
  exists t1, (t' ++ t4), x, y, z.
  split; [done|]. split; [done|]. split; [by apply Forall_app|].
  rewrite Hp4, Hp. by destruct (param_ a2).
Qed.

Lemma reported_parameters_are_the_ones_used_witness :
  exists t1 t2 bAlpha bBeta bGamma,
    snd ex_run = t1 ++ EvCoutBest bAlpha bBeta bGamma :: EvCout running_message :: t2
    /\ existsb is_best t1 = false
    /\ Forall functor_event t2
    /\ pep_emission (param_ (snd (fst ex_run))) = bAlpha
    /\ pep_spurious_emission (param_ (snd (fst ex_run))) = bBeta
    /\ prot_prior (param_ (snd (fst ex_run))) = bGamma.
Proof.
  exact (reported_parameters_are_the_ones_used ex_E ex_algorithm_default
           (snd (fst ex_run)) (snd ex_run) (pairing ex_run)).
Defined.
